(** * createChatGPTContext.js: a shallow embedding and its properties

    The script walks the working directory twice (a structure pass and a
    content pass), filters ignored and binary files, optionally normalises
    the text of each kept file, and writes one text artifact.

    The embedding follows the source function by function:
    - JavaScript strings are lists of UTF-16 code units;
    - each regular expression literal of the source is a matcher that says,
      at the head of the remaining input, how long the match is;
      [String.prototype.replace] with a global pattern is one generic scan;
    - the binary detector divides in IEEE binary64, as JavaScript does;
    - the file system is an oracle tree that answers [readdirSync],
      [statSync] and [readFileSync], each answer possibly an error;
    - the directory structure is a JavaScript object: an ordered property
      list with a prototype link, enumerated in the order of [for ... in];
    - exceptions and console output are threaded through a small monad. *)

From Stdlib Require Import List Bool Arith ZArith NArith Lia String Ascii.
From Stdlib Require Import Permutation Floats.
From Stdlib Require DecimalPos DecimalN.
Import ListNotations.

Set Warnings "-inexact-float,-abstract-large-number,-register-all".

(** [length] and [concat] are those of lists throughout. *)
Abbreviation length := List.length.
Abbreviation concat := List.concat.

(* ====================================================================== *)
(** * JavaScript strings *)
(* ====================================================================== *)

Module Js.

(** A UTF-16 code unit. *)
Definition char := N.
Definition jsstring := list char.

(** An ASCII literal of the source, as code units. *)
Definition lit (s : string) : jsstring :=
  map N_of_ascii (list_ascii_of_string s).

Definition ch (a : ascii) : char := N_of_ascii a.

Definition eqc (a b : char) : bool := N.eqb a b.

Fixpoint eqs (a b : jsstring) : bool :=
  match a, b with
  | [], [] => true
  | x :: a', y :: b' => eqc x y && eqs a' b'
  | _, _ => false
  end.

(** ECMAScript [LineTerminator]: LF, CR, LS, PS.  The pattern atom [.]
    (without the [s] flag) matches every code unit but these. *)
Definition isLineTerminator (c : char) : bool :=
  (c =? 10)%N || (c =? 13)%N || (c =? 8232)%N || (c =? 8233)%N.

(** The class [\s], which is also what [String.prototype.trim] strips:
    ECMAScript [WhiteSpace] and [LineTerminator]. *)
Definition isWhiteSpace (c : char) : bool :=
  ((9 <=? c) && (c <=? 13))%N || (c =? 32)%N || (c =? 160)%N
  || (c =? 5760)%N || ((8192 <=? c) && (c <=? 8202))%N
  || (c =? 8232)%N || (c =? 8233)%N || (c =? 8239)%N || (c =? 8287)%N
  || (c =? 12288)%N || (c =? 65279)%N.

Definition isDigit (c : char) : bool := ((48 <=? c) && (c <=? 57))%N.

(** Length of the longest prefix whose code units all satisfy [p]: what a
    greedy [[class]*] consumes. *)
Fixpoint span (p : char -> bool) (s : jsstring) : nat :=
  match s with
  | c :: s' => if p c then S (span p s') else 0
  | [] => 0
  end.

(** [s.startsWith(p)], returning the rest. *)
Fixpoint strip_prefix (p s : jsstring) : option jsstring :=
  match p, s with
  | [], _ => Some s
  | x :: p', y :: s' => if eqc x y then strip_prefix p' s' else None
  | _ :: _, [] => None
  end.

(** [String(n)] for a non-negative integer. *)
Fixpoint digits_of_uint (u : Decimal.uint) : jsstring :=
  match u with
  | Decimal.Nil => []
  | Decimal.D0 u' => 48%N :: digits_of_uint u'
  | Decimal.D1 u' => 49%N :: digits_of_uint u'
  | Decimal.D2 u' => 50%N :: digits_of_uint u'
  | Decimal.D3 u' => 51%N :: digits_of_uint u'
  | Decimal.D4 u' => 52%N :: digits_of_uint u'
  | Decimal.D5 u' => 53%N :: digits_of_uint u'
  | Decimal.D6 u' => 54%N :: digits_of_uint u'
  | Decimal.D7 u' => 55%N :: digits_of_uint u'
  | Decimal.D8 u' => 56%N :: digits_of_uint u'
  | Decimal.D9 u' => 57%N :: digits_of_uint u'
  end.

Definition string_of_N (n : N) : jsstring :=
  match N.to_uint n with
  | Decimal.Nil => [48%N]
  | u => digits_of_uint u
  end.

Definition string_of_nat (n : nat) : jsstring := string_of_N (N.of_nat n).

(** [Number(s)] for a string of decimal digits. *)
Definition number_of_digits (s : jsstring) : N :=
  fold_left (fun acc c => (10 * acc + (c - 48))%N) s 0%N.

(** ** Patterns and [String.prototype.replace]

    A matcher stands for one regular expression literal.  Applied to the
    rest of the input it answers whether the expression matches at this
    position and, if so, the length of the match and its capture groups.
    None of the expressions of the source looks behind the position
    ([^], [\b] and look-behind are absent), so the rest of the input
    decides the match. *)
Definition matcher := jsstring -> option (nat * list jsstring).

Section Replace.
Context {St : Type}.
Variable re : matcher.
(** The replacer callback; [St] is what it mutates. *)
Variable cb : St -> jsstring -> list jsstring -> St * jsstring.

(** [text.replace(re, cb)] with the [g] flag: scan from the left, at
    each position try the expression, on a match emit the callback's
    result and resume after the match, otherwise copy one code unit.
    [skip] counts the code units of the current match still to pass.
    No expression of the source matches the empty string. *)
Fixpoint replace_from (skip : nat) (st : St) (s : jsstring) {struct s}
  : St * jsstring :=
  match s with
  | [] => (st, [])
  | c :: s' =>
    match skip with
    | S k => replace_from k st s'
    | O =>
      match re s with
      | Some (S len, groups) =>
        let (st1, r) := cb st (firstn (S len) s) groups in
        let (st2, out) := replace_from len st1 s' in
        (st2, r ++ out)
      | _ =>
        let (st1, out) := replace_from 0 st s' in
        (st1, c :: out)
      end
    end
  end.

Definition replace_st (st : St) (s : jsstring) : St * jsstring :=
  replace_from 0 st s.
End Replace.

(** [text.replace(re, r)] with a replacer that has no state. *)
Definition replace (re : matcher) (r : jsstring -> list jsstring -> jsstring)
  (s : jsstring) : jsstring :=
  snd (replace_st re (fun (st : unit) m g => (st, r m g)) tt s).

(** [text.trim()]. *)
Fixpoint trimStart (s : jsstring) : jsstring :=
  match s with
  | c :: s' => if isWhiteSpace c then trimStart s' else s
  | [] => []
  end.

Definition trimEnd (s : jsstring) : jsstring := rev (trimStart (rev s)).

Definition trim (s : jsstring) : jsstring := trimEnd (trimStart s).

End Js.

Import Js.

(* ====================================================================== *)
(** * Text normalisation: [removeWhitespace] and [removeComments] *)
(* ====================================================================== *)

(** [/\s+/g]: a greedy, non-empty run of white space. *)
Definition whitespacePattern : matcher := fun s =>
  match span isWhiteSpace s with
  | O => None
  | n => Some (n, [])
  end.

(** [text.replace(/\s+/g, ' ').trim()] *)
Definition removeWhitespace (text : jsstring) : jsstring :=
  trim (replace whitespacePattern (fun _ _ => lit " ") text).

Definition slash : char := 47%N.
Definition star : char := 42%N.
Definition backslash : char := 92%N.
Definition underscore : char := 95%N.

(** The class of the three quote characters: single quote (39), double
    quote (34) and back-tick (96). *)
Definition isQuote (c : char) : bool :=
  (c =? 39)%N || (c =? 34)%N || (c =? 96)%N.

(** The rest of [stringPattern] after the opening quote [q], that is the
    starred group and the back-reference: the length of the body together
    with the closing quote.  At each position at most
    one alternative applies (a backslash takes the second, any other code
    unit but the quote the first, and [.] refuses a line terminator), and
    the code unit after an iteration boundary is the quote only where the
    star has stopped; so the greedy star followed by [\1] either matches
    at the first unescaped quote or not at all. *)
Fixpoint stringBody (q : char) (s : jsstring) : option nat :=
  match s with
  | [] => None
  | c :: s' =>
    if eqc c q then Some 1
    else if eqc c backslash then
      match s' with
      | e :: s'' =>
        if isLineTerminator e then None
        else option_map (fun n => S (S n)) (stringBody q s'')
      | [] => None
      end
    else if isLineTerminator c then None
    else option_map S (stringBody q s')
  end.

(** [stringPattern]: a quote captured as group 1; then, repeated
    greedily, either one code unit accepted by [.] that is neither the
    captured quote nor a backslash, or a backslash and one code unit
    accepted by [.]; then the captured quote again. *)
Definition stringPattern : matcher := fun s =>
  match s with
  | q :: s' =>
    if isQuote q then
      match stringBody q s' with
      | Some n => Some (S n, [[q]])
      | None => None
      end
    else None
  | [] => None
  end.

(** The class [[^/\\\n]]. *)
Definition isRegexBodyChar (c : char) : bool :=
  negb (eqc c slash || eqc c backslash || (c =? 10)%N).

(** The class [[gimsuy]]. *)
Definition isRegexFlag (c : char) : bool :=
  (c =? 103)%N || (c =? 105)%N || (c =? 109)%N || (c =? 115)%N
  || (c =? 117)%N || (c =? 121)%N.

(** [regexPattern]: a slash not followed by a star (look-ahead), the
    longest non-empty run of the body class, a slash, the longest run of
    flags.  A shorter run of the body class is followed by a member of
    the class, never by the slash, so backtracking finds nothing more. *)
Definition regexPattern : matcher := fun s =>
  match s with
  | c :: s' =>
    if eqc c slash then
      match s' with
      | d :: _ =>
        if eqc d star then None
        else
          match span isRegexBodyChar s' with
          | O => None
          | n =>
            match skipn n s' with
            | e :: tail =>
              if eqc e slash then Some (1 + n + 1 + span isRegexFlag tail, [])
              else None
            | [] => None
            end
          end
      | [] => None
      end
    else None
  | [] => None
  end.

(** [singleLineCommentPattern]: two slashes, the longest run of [.], and
    then (look-ahead) LF, CR or the end of the input.  The run stops at a line
    terminator or at the end; when it stops at LS or PS the look-ahead
    fails, and a shorter run is followed by a code unit that [.] accepts,
    so the expression does not match there at all. *)
Definition singleLineCommentPattern : matcher := fun s =>
  match s with
  | c :: d :: s' =>
    if eqc c slash && eqc d slash then
      let n := span (fun x => negb (isLineTerminator x)) s' in
      match skipn n s' with
      | [] => Some (2 + n, [])
      | e :: _ => if (e =? 10)%N || (e =? 13)%N then Some (2 + n, []) else None
      end
    else None
  | _ => None
  end.

(** Index of the first star-slash in [s]: what the lazy star of
    [multiLineCommentPattern] passes before the closing pair matches. *)
Fixpoint findCommentEnd (s : jsstring) : option nat :=
  match s with
  | c :: s' =>
    match s' with
    | d :: _ =>
      if eqc c star && eqc d slash then Some 0
      else option_map S (findCommentEnd s')
    | [] => None
    end
  | [] => None
  end.

(** [multiLineCommentPattern]: slash-star, lazily any code units, then
    star-slash. *)
Definition multiLineCommentPattern : matcher := fun s =>
  match s with
  | c :: d :: s' =>
    if eqc c slash && eqc d star then
      match findCommentEnd s' with
      | Some i => Some (2 + i + 2, [])
      | None => None
      end
    else None
  | _ => None
  end.

Definition placeholderPrefix : jsstring := lit "__PRESERVED__".

(** The template [`__PRESERVED__${i}__`]. *)
Definition placeholder (i : nat) : jsstring :=
  placeholderPrefix ++ string_of_nat i ++ lit "__".

(** The pattern of the restoring pass, [__PRESERVED__] then group 1 of
    one or more digits then two underscores: the digits are taken
    greedily; a shorter run of digits is followed by a digit, not by an
    underscore. *)
Definition placeholderPattern : matcher := fun s =>
  match strip_prefix placeholderPrefix s with
  | Some s' =>
    match span isDigit s' with
    | O => None
    | n =>
      match strip_prefix (lit "__") (skipn n s') with
      | Some _ => Some (length placeholderPrefix + n + 2, [firstn n s'])
      | None => None
      end
    end
  | None => None
  end.

(** The replacer of the two protecting passes:
    [match => { preservedItems.push(match); return `__PRESERVED__${preservedItems.length - 1}__`; }] *)
Definition preserve (preservedItems : list jsstring) (m : jsstring)
  (_ : list jsstring) : list jsstring * jsstring :=
  let preservedItems' := preservedItems ++ [m] in
  (preservedItems', placeholder (length preservedItems' - 1)).

(** [preservedItems[Number(index)]], converted to a string by [replace]:
    an index past the end reads [undefined]. *)
Definition restoreItem (preservedItems : list jsstring) (_ : jsstring)
  (groups : list jsstring) : jsstring :=
  match groups with
  | index :: _ =>
    nth (N.to_nat (number_of_digits index)) preservedItems (lit "undefined")
  | [] => lit "undefined"
  end.

(** The text after the two protecting passes, with what they preserved. *)
Definition protect (text : jsstring) : list jsstring * jsstring :=
  let (items1, t1) := replace_st stringPattern preserve [] text in
  replace_st regexPattern preserve items1 t1.

Definition removeComments (text : jsstring) : jsstring :=
  let (preservedItems, preservedText) := protect text in
  let preservedText :=
    replace singleLineCommentPattern (fun _ _ => []) preservedText in
  let preservedText :=
    replace multiLineCommentPattern (fun _ _ => []) preservedText in
  replace placeholderPattern (restoreItem preservedItems) preservedText.

(* ====================================================================== *)
(** * Configuration and the file filter *)
(* ====================================================================== *)

Definition processAllFiles : bool := true.

Definition TARGET_EXTENSIONS : list jsstring := [lit ".html"; lit ".js"].

(** [path.extname] on a directory entry name (no separator in it): from
    the last dot to the end; empty when there is no dot, when the only
    dot is the first code unit, and for the name of two dots. *)
Fixpoint lastDot (s : jsstring) (i : nat) : option nat :=
  match s with
  | [] => None
  | c :: s' =>
    match lastDot s' (S i) with
    | Some j => Some j
    | None => if eqc c 46%N then Some i else None
    end
  end.

Definition extname (name : jsstring) : jsstring :=
  match lastDot name 0 with
  | None => []
  | Some O => []
  | Some i => if eqs name (lit "..") then [] else skipn i name
  end.

(** [toLowerCase] on the ASCII letters.  Outside ASCII the real function
    maps letters to letters that are not ASCII, or to [k] (the Kelvin
    sign), [i] followed by a combining dot, or a-ring: never to a letter
    of [.js] or [.html], so comparing the result with one of those
    strings is unaffected. *)
Definition toLowerCase (s : jsstring) : jsstring :=
  map (fun c => if ((65 <=? c) && (c <=? 90))%N then (c + 32)%N else c) s.

Definition shouldProcessFile (file : jsstring) : bool :=
  if processAllFiles then true
  else
    let fileExt := toLowerCase (extname file) in
    existsb (eqs fileExt) TARGET_EXTENSIONS.

(* ====================================================================== *)
(** * The binary detector *)
(* ====================================================================== *)

Definition maxBytes : nat := 8000.

(** An integer count as a JavaScript Number (IEEE binary64).  Counting up
    by one is exact far beyond the 8000 that occur here. *)
Fixpoint Number (n : nat) : float :=
  match n with
  | O => 0%float
  | S k => (Number k + 1)%float
  end.

(** The condition of the second [if] in the loop of [isBinaryFile]. *)
Definition isNonTextByte (byte : N) : bool :=
  ((byte <? 7) || ((14 <? byte) && (byte <? 32)))%N
  && negb (byte =? 9)%N && negb (byte =? 10)%N && negb (byte =? 13)%N.

(** The loop of [isBinaryFile] over the bytes to check: [None] when a
    null byte makes the function return [true] at once, otherwise the
    final [nonTextBytes]. *)
Fixpoint scanBytes (bytes : list Byte.byte) (nonTextBytes : nat) : option nat :=
  match bytes with
  | [] => Some nonTextBytes
  | b :: rest =>
    let byte := Byte.to_N b in
    if (byte =? 0)%N then None
    else if isNonTextByte byte then scanBytes rest (S nonTextBytes)
    else scanBytes rest nonTextBytes
  end.

(** [isBinaryFile] on the buffer that [readFileSync] returned. *)
Definition isBinaryFile (buffer : list Byte.byte) : bool :=
  let bytesToCheck := Nat.min (length buffer) maxBytes in
  match scanBytes (firstn bytesToCheck buffer) 0 with
  | None => true
  | Some nonTextBytes =>
    let ratio := (Number nonTextBytes / Number bytesToCheck)%float in
    (0.3 <? ratio)%float
  end.

(* ====================================================================== *)
(** * JavaScript values and plain objects *)
(* ====================================================================== *)

(** The values the script stores in and reads from the directory
    structure.  A plain object is its prototype link ([None] stands for
    [Object.prototype]) and its own properties in creation order.  A Date
    carries the text that its [toString()] gives. *)
Inductive value : Type :=
| VUndefined
| VString (s : jsstring)
| VNumber (n : N)
| VDate (text : jsstring)
| VObject (proto : option value) (props : list (jsstring * value)).

(** The object literal [{}]. *)
Definition emptyObject : value := VObject None [].

Fixpoint assoc {A : Type} (k : jsstring) (l : list (jsstring * A)) : option A :=
  match l with
  | [] => None
  | (k', x) :: l' => if eqs k k' then Some x else assoc k l'
  end.

(** Replace the value of an own property in place, or create the property
    after the existing ones. *)
Fixpoint upsert {A : Type} (k : jsstring) (x : A) (l : list (jsstring * A))
  : list (jsstring * A) :=
  match l with
  | [] => [(k, x)]
  | (k', y) :: l' => if eqs k k' then (k', x) :: l' else (k', y) :: upsert k x l'
  end.

(** A property found on the object or along its prototype chain, short
    of [Object.prototype] (whose properties are the built-in methods and
    the [__proto__] accessor, none of them enumerable). *)
Fixpoint lookup (o : value) (k : jsstring) {struct o} : option value :=
  match o with
  | VObject proto props =>
    match assoc k props with
    | Some x => Some x
    | None =>
      match proto with
      | Some p => lookup p k
      | None => None
      end
    end
  | _ => None
  end.

Definition isObject (v : value) : bool :=
  match v with
  | VObject _ _ => true
  | _ => false
  end.

(** [typeof v === 'object'] *)
Definition typeofObject (v : value) : bool :=
  match v with
  | VObject _ _ | VDate _ => true
  | _ => false
  end.

Definition protoKey : jsstring := lit "__proto__".

(** The assignment [o[k] = v].  The key [__proto__] reaches the accessor
    of [Object.prototype], which replaces the prototype link when [v] is
    an object and otherwise does nothing; any other key is an own data
    property.  Assigning to a property of a primitive has no effect. *)
Definition setMember (o : value) (k : jsstring) (v : value) : value :=
  match o with
  | VObject proto props =>
    if eqs k protoKey
    then (if isObject v then VObject (Some v) props else o)
    else VObject proto (upsert k v props)
  | _ => o
  end.

(** The member read [o[k]] right after [o[k] = v]. *)
Definition getMember (o : value) (k : jsstring) : value :=
  match o with
  | VObject proto props =>
    if eqs k protoKey
    then match proto with Some p => p | None => VUndefined end
    else match lookup o k with Some x => x | None => VUndefined end
  | _ => VUndefined
  end.

(** The numeric value of a key that is an array index: a canonical
    decimal numeral below 2^32 - 1. *)
Definition arrayIndex (k : jsstring) : option N :=
  match k with
  | [] => None
  | c :: k' =>
    if forallb isDigit k
       && (negb (eqc c 48%N) || match k' with [] => true | _ => false end)
       && (length k <=? 10)%nat
       && (number_of_digits k <? 4294967295)%N
    then Some (number_of_digits k)
    else None
  end.

Section KeyOrder.
Context {A : Type}.

Fixpoint insertIndexed (i : N) (e : jsstring * A)
  (l : list (N * (jsstring * A))) : list (N * (jsstring * A)) :=
  match l with
  | [] => [(i, e)]
  | (j, e') :: l' =>
    if (i <? j)%N then (i, e) :: l else (j, e') :: insertIndexed i e l'
  end.

Fixpoint indexedProps (l : list (jsstring * A)) : list (N * (jsstring * A)) :=
  match l with
  | [] => []
  | (k, x) :: l' =>
    match arrayIndex k with
    | Some i => insertIndexed i (k, x) (indexedProps l')
    | None => indexedProps l'
    end
  end.

Fixpoint namedProps (l : list (jsstring * A)) : list (jsstring * A) :=
  match l with
  | [] => []
  | (k, x) :: l' =>
    match arrayIndex k with
    | Some _ => namedProps l'
    | None => (k, x) :: namedProps l'
    end
  end.

(** The order in which [for ... in] visits the own properties of a
    plain object: array-index keys in ascending numeric order, then the
    other keys in creation order. *)
Definition ownPropertyOrder (l : list (jsstring * A)) : list (jsstring * A) :=
  map snd (indexedProps l) ++ namedProps l.
End KeyOrder.

(* ====================================================================== *)
(** * Exceptions and the console *)
(* ====================================================================== *)

Inductive error : Type :=
| IOError (message : jsstring)
| TypeError (message : jsstring)
| RangeError (message : jsstring).

Definition message (e : error) : jsstring :=
  match e with
  | IOError m | TypeError m | RangeError m => m
  end.

Inductive outcome (A : Type) : Type :=
| Ok (a : A)
| Throw (e : error).
Arguments Ok {A} a.
Arguments Throw {A} e.

Inductive stream := Log | Warn | Err.

(** What a run leaves behind: the console lines and the files written,
    both in order. *)
Record effects : Type := {
  console : list (stream * jsstring);
  written : list (jsstring * jsstring)
}.

Definition noEffects : effects := {| console := []; written := [] |}.

(** A computation that may print, write and throw.  What was printed
    before an exception stays printed. *)
Definition M (A : Type) : Type := effects -> effects * outcome A.

Definition ret {A : Type} (a : A) : M A := fun w => (w, Ok a).

Definition throw {A : Type} (e : error) : M A := fun w => (w, Throw e).

Definition bind {A B : Type} (m : M A) (f : A -> M B) : M B := fun w =>
  match m w with
  | (w', Ok a) => f a w'
  | (w', Throw e) => (w', Throw e)
  end.

Definition lift {A : Type} (o : outcome A) : M A := fun w => (w, o).

Definition tryCatch {A : Type} (m : M A) (handler : error -> M A) : M A :=
  fun w =>
    match m w with
    | (w', Ok a) => (w', Ok a)
    | (w', Throw e) => handler e w'
    end.

Definition print (s : stream) (line : jsstring) : M unit := fun w =>
  ({| console := console w ++ [(s, line)]; written := written w |}, Ok tt).

Declare Scope js_scope.
Delimit Scope js_scope with js.
Notation "x <- m ;; k" := (bind m (fun x => k))
  (at level 61, m at next level, right associativity) : js_scope.
Notation "m ;;; k" := (bind m (fun _ => k))
  (at level 61, right associativity) : js_scope.
Open Scope js_scope.

Definition bindO {A B : Type} (o : outcome A) (f : A -> outcome B) : outcome B :=
  match o with
  | Ok a => f a
  | Throw e => Throw e
  end.

(* ====================================================================== *)
(** * The file system and [path] *)
(* ====================================================================== *)

(** What the file system answers about one path: [statSync] gives the
    size and the modification time (as the text of the Date) or throws;
    a file answers [readFileSync] without encoding by its bytes and with
    ['utf8'] by its decoded text; a directory answers [readdirSync] by its
    entries in the order of the platform. *)
Inductive fsnode : Type :=
| File (stat : outcome (N * jsstring)) (raw : outcome (list Byte.byte))
       (utf8 : outcome jsstring)
| Dir (stat : outcome (N * jsstring)) (unreadable : option error)
      (entries : list (jsstring * fsnode)).

Record Stats : Type := {
  isDirectory : bool;
  size : N;
  mtime : jsstring
}.

Definition statSync (node : fsnode) : M Stats :=
  match node with
  | File (Ok (sz, t)) _ _ => ret {| isDirectory := false; size := sz; mtime := t |}
  | Dir (Ok (sz, t)) _ _ => ret {| isDirectory := true; size := sz; mtime := t |}
  | File (Throw e) _ _ | Dir (Throw e) _ _ => throw e
  end.

Definition readFileSyncRaw (node : fsnode) : M (list Byte.byte) :=
  match node with
  | File _ raw _ => lift raw
  | Dir _ _ _ => throw (IOError (lit "EISDIR: illegal operation on a directory, read"))
  end.

Definition readFileSyncUtf8 (node : fsnode) : M jsstring :=
  match node with
  | File _ _ utf8 => lift utf8
  | Dir _ _ _ => throw (IOError (lit "EISDIR: illegal operation on a directory, read"))
  end.

Definition endsWithSlash (s : jsstring) : bool :=
  match rev s with
  | c :: _ => eqc c slash
  | [] => false
  end.

(** [path.join(a, b)] where [a] is empty or a normalised path and [b] is
    the name of a directory entry. *)
Definition path_join (a b : jsstring) : jsstring :=
  match a with
  | [] => b
  | _ => if endsWithSlash a then a ++ b else a ++ lit "/" ++ b
  end.

(** [path.relative(from, to)] where [to] lies below [from]. *)
Definition path_relative (from to : jsstring) : jsstring :=
  match strip_prefix from to with
  | Some (c :: rest) => if eqc c slash then rest else c :: rest
  | Some [] => []
  | None => to
  end.

(* ====================================================================== *)
(** * The two traversals *)
(* ====================================================================== *)

Definition nl : jsstring := [10%N].

Section ForEach.
Context {A S : Type}.
Variable callback : A -> S -> M S.

(** [items.forEach(callback)], where the callback updates one variable
    of the enclosing function; an exception ends the loop. *)
Fixpoint forEach (items : list A) (captured : S) : M S :=
  match items with
  | [] => ret captured
  | item :: rest =>
    captured <- callback item captured ;;
    forEach rest captured
  end.
End ForEach.

Section Walk.
(** [process.cwd()] *)
Variable cwd : jsstring.
(** [ig.ignores], the configured instance of the [ignore] package. *)
Variable ig : jsstring -> bool.

(** The object literal of a kept file. *)
Definition fileEntry (fullPath relativePath : jsstring) (stats : Stats) : value :=
  VObject None
    [ (lit "path", VString fullPath);
      (lit "relativePath", VString relativePath);
      (lit "size", VNumber (size stats));
      (lit "lastModified", VDate (mtime stats)) ].

(** The callback of the loop of [getDirectoryStructure], for the entry
    [item] whose node is [child]; [self] is the function itself.  The
    source stores a fresh object under [item] and lets the recursive call
    fill that same object; here the call returns the filled object and
    it is stored again under the same key, which keeps its place. *)
Definition structureEntry
  (self : fsnode -> jsstring -> value -> jsstring -> M value)
  (dir parentPath : jsstring) (entry : jsstring * fsnode)
  (fileStructure : value) : M value :=
  let (item, child) := entry in
  let fullPath := path_join dir item in
  let relativePath := path_relative cwd fullPath in
  if ig relativePath then ret fileStructure
  else
    stats <- statSync child ;;
    if isDirectory stats then
      let fileStructure := setMember fileStructure item emptyObject in
      filled <- self child fullPath (getMember fileStructure item)
                  (path_join parentPath item) ;;
      ret (setMember fileStructure item filled)
    else if shouldProcessFile item then
      buffer <- readFileSyncRaw child ;;
      if isBinaryFile buffer then
        print Warn (lit "Skipping binary file: " ++ relativePath) ;;;
        ret fileStructure
      else
        ret (setMember fileStructure item
               (fileEntry fullPath (path_join parentPath item) stats))
    else ret fileStructure.

(** [getDirectoryStructure(dir, fileStructure, parentPath, ig)], where
    [node] is what the file system holds at [dir]. *)
Fixpoint getDirectoryStructure (node : fsnode) (dir : jsstring)
  (fileStructure : value) (parentPath : jsstring) {struct node} : M value :=
  match node with
  | File _ _ _ => throw (IOError (lit "ENOTDIR: not a directory, scandir"))
  | Dir _ (Some e) _ => throw e
  | Dir _ None items =>
    forEach (structureEntry getDirectoryStructure dir parentPath) items
      fileStructure
  end.

(** The text that [readAllFiles] computes for one kept file. *)
Definition processContent (item fileContent : jsstring)
  (removeWhitespaceSetting removeCommentsSetting : bool) : jsstring :=
  let fileContent :=
    if removeWhitespaceSetting then removeWhitespace fileContent
    else fileContent in
  if removeCommentsSetting && eqs (toLowerCase (extname item)) (lit ".js")
  then removeComments fileContent
  else fileContent.

(** The three appends for one kept file. *)
Definition fileBlock (item path fileContent : jsstring) : jsstring :=
  (lit "File: " ++ item ++ nl)
  ++ (lit "Path: " ++ path ++ nl ++ nl)
  ++ (fileContent ++ nl ++ nl).

(** The callback of the loop of [readAllFiles]. *)
Definition contentEntry
  (self : fsnode -> jsstring -> jsstring -> bool -> bool -> M jsstring)
  (dir parentPath : jsstring)
  (removeWhitespaceSetting removeCommentsSetting : bool)
  (entry : jsstring * fsnode) (allText : jsstring) : M jsstring :=
  let (item, child) := entry in
  let fullPath := path_join dir item in
  let relativePath := path_relative cwd fullPath in
  if ig relativePath then ret allText
  else
    stats <- statSync child ;;
    if isDirectory stats then
      sub <- self child fullPath (path_join parentPath item)
               removeWhitespaceSetting removeCommentsSetting ;;
      ret (allText ++ sub)
    else if shouldProcessFile item then
      buffer <- readFileSyncRaw child ;;
      if isBinaryFile buffer then
        print Warn (lit "Skipping binary file: " ++ relativePath) ;;;
        ret allText
      else
        fileContent <- readFileSyncUtf8 child ;;
        let fileContent :=
          processContent item fileContent
            removeWhitespaceSetting removeCommentsSetting in
        ret (allText ++ fileBlock item (path_join parentPath item) fileContent)
    else ret allText.

(** [readAllFiles(dir, parentPath, removeWhitespaceSetting,
    removeCommentsSetting, ig)] *)
Fixpoint readAllFiles (node : fsnode) (dir parentPath : jsstring)
  (removeWhitespaceSetting removeCommentsSetting : bool) {struct node}
  : M jsstring :=
  match node with
  | File _ _ _ => throw (IOError (lit "ENOTDIR: not a directory, scandir"))
  | Dir _ (Some e) _ => throw e
  | Dir _ None items =>
    forEach
      (contentEntry readAllFiles dir parentPath
         removeWhitespaceSetting removeCommentsSetting)
      items []
  end.
End Walk.

(* ====================================================================== *)
(** * The formatter *)
(* ====================================================================== *)

(** The conversion of a template literal substitution to a string.  For
    a plain object the conversion calls [toString]; when the object or
    its chain defines a property of that name, its value is none of the
    built-in functions, [valueOf] cannot supply a primitive either, and
    the conversion throws. *)
Definition toStr (v : value) : outcome jsstring :=
  match v with
  | VUndefined => Ok (lit "undefined")
  | VString s => Ok s
  | VNumber n => Ok (string_of_N n)
  | VDate text => Ok text
  | VObject _ _ =>
    match lookup v (lit "toString") with
    | Some _ => Throw (TypeError (lit "Cannot convert object to primitive value"))
    | None => Ok (lit "[object Object]")
    end
  end.

(** The destructuring read [const { k } = o]. *)
Definition destructure (o : value) (k : jsstring) : value :=
  match lookup o k with
  | Some x => x
  | None => VUndefined
  end.

(** [typeof v === 'object' && 'relativePath' in v] *)
Definition looksLikeFile (v : value) : bool :=
  typeofObject v
  && match lookup v (lit "relativePath") with Some _ => true | None => false end.

(** The line appended for a child that looks like a file. *)
Definition fileLine (indentString key : jsstring) (entry : value) : outcome jsstring :=
  bindO (toStr (destructure entry (lit "relativePath"))) (fun relativePath =>
  bindO (toStr (destructure entry (lit "size"))) (fun size =>
  bindO (toStr (destructure entry (lit "lastModified"))) (fun lastModified =>
  Ok (indentString ++ key ++ lit " (Path: " ++ relativePath
      ++ lit ", Size: " ++ size ++ lit " bytes, Last Modified: "
      ++ lastModified ++ lit ")" ++ nl)))).

(** [structureText += ...] over the visited keys, up to the first
    exception. *)
Fixpoint appendAll (parts : list (jsstring * outcome jsstring))
  (structureText : jsstring) : outcome jsstring :=
  match parts with
  | [] => Ok structureText
  | (_, Ok part) :: parts' => appendAll parts' (structureText ++ part)
  | (_, Throw e) :: _ => Throw e
  end.

(** [formatStructure(fileStructure, indent)].  The loop visits the
    enumerable properties of the object and of its chain, and the call
    [fileStructure.hasOwnProperty(key)] lets only the own ones pass; when
    the object or its chain defines [hasOwnProperty] that call throws on
    the first visit.  A non-empty string argument recurses on its first
    character for ever, which ends as a RangeError; the other primitives
    and a Date have nothing to visit. *)
Fixpoint formatStructure (fileStructure : value) (indent : nat)
  {struct fileStructure} : outcome jsstring :=
  let indentString := repeat 32%N indent in
  match fileStructure with
  | VUndefined | VNumber _ | VDate _ | VString [] => Ok []
  | VString (_ :: _) => Throw (RangeError (lit "Maximum call stack size exceeded"))
  | VObject _ props =>
    match lookup fileStructure (lit "hasOwnProperty") with
    | Some _ => Throw (TypeError (lit "fileStructure.hasOwnProperty is not a function"))
    | None =>
      appendAll
        (ownPropertyOrder
           (map (fun entry : jsstring * value =>
                   let (key, child) := entry in
                   (key,
                    if looksLikeFile child then fileLine indentString key child
                    else
                      bindO (formatStructure child (indent + 2)) (fun sub =>
                      Ok (indentString ++ key ++ lit "/" ++ nl ++ sub))))
                props))
        []
    end
  end.

(* ====================================================================== *)
(** * Main execution *)
(* ====================================================================== *)

Definition SENSITIVE_FILES : list jsstring :=
  map lit [ ".env"; ".npmrc"; ".yarnrc"; ".credentials"; ".aws"; ".gcp"; ".azure";
            "*.sqlite"; "*.sqlite3"; "*.db"; "*.db-journal"; "*.sql"; "*.bak";
            "*.pem"; "*.key"; "*.crt"; "*.csr"; "secrets.json" ]%string.

Definition EXCLUDE_DIRS : list jsstring :=
  map lit [ ".git"; ".hg"; ".svn"; ".bzr"; "node_modules"; "vendor";
            "bower_components"; "__pycache__"; "dist"; "build"; ".cache";
            "out"; "target"; ".next"; ".nuxt"; ".idea"; ".vscode";
            ".history"; ".sass-cache"; ".pytest_cache" ]%string.

Definition EXCLUDE_FILES : list jsstring :=
  map lit [ ".DS_Store"; "Thumbs.db"; "*.log"; "*.log.*";
            "*.bak"; "*.swp"; "*.tmp"; "*~"; "package-lock.json"; "package.json" ]%string.

(** How [fs.writeFileSync] fails.  It opens the file with the flag
    [w], which creates or truncates it, and then writes the data.  When
    opening fails nothing is created or changed.  When writing fails the
    file exists already and is left with what had reached it, [remains]:
    a part of the data, possibly none. *)
Inductive writeFailure : Type :=
| OpenFails (e : error)
| WriteFails (e : error) (remains : jsstring).

Definition failureError (failure : writeFailure) : error :=
  match failure with
  | OpenFails e | WriteFails e _ => e
  end.

(** The surroundings of one run: the tree below the working directory,
    the answer about [.gitignore] ([None] when [existsSync] is false,
    otherwise what [readFileSync] gives), and whether and how writing
    the output file fails. *)
Record world : Type := {
  root : fsnode;
  gitignore : option (outcome jsstring);
  writeError : option writeFailure
}.

(** [fs.writeFileSync(path, data, 'utf8')]; [written] records what the
    file holds after the call. *)
Definition writeFileSync (w : world) (path data : jsstring) : M unit :=
  match writeError w with
  | Some (OpenFails e) => throw e
  | Some (WriteFails e remains) => fun eff =>
      ({| console := console eff; written := written eff ++ [(path, remains)] |},
       Throw e)
  | None => fun eff =>
      ({| console := console eff; written := written eff ++ [(path, data)] |}, Ok tt)
  end.

(** What the output file holds after the call, when it was opened. *)
Definition fileAfterWrite (w : world) (data : jsstring) : jsstring :=
  match writeError w with
  | Some (WriteFails _ remains) => remains
  | _ => data
  end.

Section Main.
Variable cwd : jsstring.
(** The [ignore] package: the decision of an instance to which the
    given pattern sources were added, in order, on a relative path. *)
Variable ignores : list jsstring -> jsstring -> bool.

Definition getIgnorePatterns (w : world) : M (jsstring -> bool) :=
  added <-
    match gitignore w with
    | Some answer => gitignoreContent <- lift answer ;; ret [gitignoreContent]
    | None => ret []
    end ;;
  ret (ignores (added ++ EXCLUDE_DIRS ++ SENSITIVE_FILES ++ EXCLUDE_FILES)).

(** The body of the [try] block. *)
Definition mainBody (w : world) : M unit :=
  let targetDir := cwd in
  let outputFilePath := path_join targetDir (lit "output.txt") in
  let removeWhitespaceSetting := false in
  let removeCommentsSetting := false in
  ig <- getIgnorePatterns w ;;
  fileStructure <- getDirectoryStructure cwd ig (root w) targetDir emptyObject [] ;;
  structureText <- lift (formatStructure fileStructure 0) ;;
  filesText <- readAllFiles cwd ig (root w) targetDir []
                 removeWhitespaceSetting removeCommentsSetting ;;
  let finalOutput :=
    lit "Directory Structure:" ++ nl ++ structureText ++ nl
    ++ lit "File Contents:" ++ nl ++ filesText in
  writeFileSync w outputFilePath finalOutput ;;;
  print Log (lit "Folder structure and file contents have been saved to "
             ++ outputFilePath).

(** The script: the [try] block and its [catch]. *)
Definition main (w : world) : M unit :=
  tryCatch (mainBody w)
    (fun error =>
       print Err (lit "Error processing directory: " ++ message error)).

(** The exit status of the process: 0 when the script runs to its end,
    1 when an exception escapes it.  The script sets no exit code. *)
Definition exitStatus (result : outcome unit) : Z :=
  match result with
  | Ok _ => 0%Z
  | Throw _ => 1%Z
  end.

(** One run from a clean slate: what it leaves and how it exits. *)
Definition run (w : world) : effects * Z :=
  let (eff, result) := main w noEffects in
  (eff, exitStatus result).
End Main.

(* ====================================================================== *)
(** * Auxiliary definitions: the binary detector *)
(* ====================================================================== *)

Module BinaryDefs.

(** The bytes that the loop of [isBinaryFile] examines. *)
Definition examined (buffer : list Byte.byte) : list Byte.byte :=
  firstn (Nat.min (length buffer) maxBytes) buffer.

(** The rule of the specification for one byte value. *)
Definition nonTextRule (byte : N) : Prop :=
  (byte < 7 \/ (14 < byte /\ byte < 32))%N.

Definition nonTextRuleb (b : Byte.byte) : bool :=
  ((Byte.to_N b <? 7) || ((14 <? Byte.to_N b) && (Byte.to_N b <? 32)))%N.

Definition noNullByte (l : list Byte.byte) : Prop :=
  forall b, In b l -> Byte.to_N b <> 0%N.

(** ** The division, checked on every pair that can occur

    [0.3 < n / d] in binary64 agrees with [3 d < 10 n] on the integers
    for all [0 <= n <= d], [1 <= d <= 8000].  Each row [d] is checked by
    running through the numerators, first those at most [3 d / 10], then
    the others. *)
Definition above (fn fd : float) : bool := (0.3 <? fn / fd)%float.

Fixpoint phase (k : nat) (expect : bool) (fn fd : float)
  (next : float -> bool) : bool :=
  match k with
  | O => next fn
  | S k' => Bool.eqb (above fn fd) expect && phase k' expect (fn + 1)%float fd next
  end.

Definition rowOk (d : nat) (fd : float) : bool :=
  let k1 := S (3 * d / 10) in
  phase k1 false 0%float fd (fun fn =>
  phase (S d - k1) true fn fd (fun _ => true)).

Fixpoint tableOk (k d : nat) (fd : float) : bool :=
  match k with
  | O => true
  | S k' => rowOk d fd && tableOk k' (S d) (fd + 1)%float
  end.

(** Eight bytes, two of them non-text: a letter, tab, LF, CR, the
    control bytes 1 and 27, byte 14 and DEL. *)
Definition sampleBuffer : list Byte.byte :=
  [Byte.x61; Byte.x09; Byte.x0a; Byte.x0d; Byte.x01; Byte.x1b; Byte.x0e; Byte.x7f].

(** A buffer of 8000 bytes, 31 in 100 of them non-text. *)
Definition buffer31 : list Byte.byte :=
  repeat Byte.x01 2480 ++ repeat Byte.x61 5520.

End BinaryDefs.

(* ====================================================================== *)
(** * Auxiliary definitions: text *)
(* ====================================================================== *)

Module TextDefs.

(** [s] has two neighbouring code units [a], [b]. *)
Definition adjacent (a b : char) (s : jsstring) : Prop :=
  exists pre post, s = pre ++ a :: b :: post.

(** Every white space code unit is a single space between two code units
    that are not white space. *)
Definition tidy (s : jsstring) : Prop :=
  (forall c, In c s -> isWhiteSpace c = true -> c = 32%N)
  /\ (forall a b, adjacent a b s -> isWhiteSpace a && isWhiteSpace b = false).

Definition noLeadingWhiteSpace (s : jsstring) : Prop :=
  forall c rest, s = c :: rest -> isWhiteSpace c = false.

Definition noTrailingWhiteSpace (s : jsstring) : Prop :=
  forall pre c, s = pre ++ [c] -> isWhiteSpace c = false.

(** [text.replace(/\s+/g, ' ')], the first half of [removeWhitespace]. *)
Definition collapse (text : jsstring) : jsstring :=
  replace whitespacePattern (fun _ _ => lit " ") text.

(** [s.indexOf('//')] *)
Fixpoint indexOfSlashSlash (s : jsstring) : option nat :=
  match s with
  | c :: s' =>
    match s' with
    | d :: _ =>
      if eqc c slash && eqc d slash then Some 0
      else option_map S (indexOfSlashSlash s')
    | [] => None
    end
  | [] => None
  end.

(** [path.extname(item).toLowerCase() === '.js'] *)
Definition isJsFile (item : jsstring) : bool :=
  eqs (toLowerCase (extname item)) (lit ".js").

(** The three later passes of [removeComments], on the protected text. *)
Definition stripSingleLine (t : jsstring) : jsstring :=
  replace singleLineCommentPattern (fun _ _ => []) t.

Definition stripMultiLine (t : jsstring) : jsstring :=
  replace multiLineCommentPattern (fun _ _ => []) t.

Definition restore (preservedItems : list jsstring) (t : jsstring) : jsstring :=
  replace placeholderPattern (restoreItem preservedItems) t.






(** [s.includes(p)] *)
Fixpoint occursIn (p s : jsstring) : bool :=
  match strip_prefix p s with
  | Some _ => true
  | None =>
    match s with
    | [] => false
    | _ :: s' => occursIn p s'
    end
  end.

(** A text contains no comment, as [removeComments] finds comments:
    after the protecting passes neither comment pattern matches, so the
    two removing passes leave the text as it is. *)
Definition commentFree (text : jsstring) : Prop :=
  stripSingleLine (snd (protect text)) = snd (protect text)
  /\ stripMultiLine (snd (protect text)) = snd (protect text).

(** Neither [//] nor a slash followed by a star occurs in the text. *)
Definition noCommentOpener (text : jsstring) : bool :=
  negb (occursIn [slash; slash] text) && negb (occursIn [slash; star] text).

(** The sentence of the specification about idempotence. *)
Definition idempotentOnCommentFree : Prop :=
  forall x, commentFree x ->
    removeComments (removeComments x) = removeComments x.

(** The code units of which placeholders are made. *)
Definition inPlaceholderAlphabet (c : char) : bool :=
  eqc c underscore || isDigit c || existsb (eqc c) (lit "PRESERVED").

(** The text begins with [__PRESERVED__] and a digit. *)
Definition startsLikePlaceholder (s : jsstring) : bool :=
  match strip_prefix placeholderPrefix s with
  | Some (c :: _) => isDigit c
  | _ => false
  end.

(** Along the scan of the restoring pass, where the pattern does not
    match, the text does not even begin like a placeholder. *)
Inductive aligned : jsstring -> Prop :=
| aligned_nil : aligned []
| aligned_copy (c : char) (s : jsstring) :
    startsLikePlaceholder (c :: s) = false -> aligned s -> aligned (c :: s)
| aligned_match (s : jsstring) (n : nat) (g : list jsstring) :
    placeholderPattern s = Some (S n, g) -> aligned (skipn (S n) s) -> aligned s.

(** The text holds no [__PRESERVED__]. *)
Definition noPlaceholderText (text : jsstring) : Prop :=
  occursIn placeholderPrefix text = false.

(** No preserved literal holds [__PRESERVED__]: no match of the
    regex-literal pattern has swallowed the placeholder of a string. *)
Definition literalsPlain (text : jsstring) : Prop :=
  forallb (fun m => negb (occursIn placeholderPrefix m)) (fst (protect text)) = true.

(** What the stage lemma needs to know of a protecting pattern: a match
    begins and ends with a code unit of which no placeholder is made. *)
Definition delimited (re : matcher) : Prop :=
  forall s n g,
    re s = Some (S n, g) ->
    exists d pre e,
      firstn (S n) s = d :: pre ++ [e]
      /\ inPlaceholderAlphabet d = false
      /\ inPlaceholderAlphabet e = false.

Definition doubleQuoted (s : jsstring) : jsstring := [34%N] ++ s ++ [34%N].

(** A string literal between two divisions. *)
Definition stringBetweenDivisions : jsstring :=
  lit "w / 2 + " ++ doubleQuoted (lit "//not-a-comment") ++ lit " + h / 2".

(** A string literal before a comment. *)
Definition stringBeforeComment : jsstring :=
  lit "x = " ++ doubleQuoted (lit "//not-a-comment") ++ lit "; // a comment".

(** A text without comment that contains a text of the form of a
    placeholder. *)
Definition placeholderInText : jsstring :=
  lit "/ b __PRESERVED__0__* c" ++ nl ++ lit "/r/ */".

(** A text without comment: a string literal that holds two slashes,
    and a regex literal. *)
Definition plainText : jsstring :=
  lit "x = " ++ doubleQuoted (lit "//not-a-comment") ++ lit " + /r/g.test(s)".

End TextDefs.

(* ====================================================================== *)
(** * Auxiliary definitions: runs *)
(* ====================================================================== *)

Module RunDefs.

(** How far the two traversals of a run get. *)
Inductive traversal : Type :=
| NotStarted (e : error)
| StructureFailed (e : error)
| FormatFailed (e : error)
| ContentFailed (e : error)
| Completed (fileStructure : value) (structureText filesText : jsstring).

(** The traversals of [mainBody], step by step. *)
Definition traverse (cwd : jsstring) (ignores : list jsstring -> jsstring -> bool)
  (w : world) : traversal :=
  match getIgnorePatterns ignores w noEffects with
  | (_, Throw e) => NotStarted e
  | (eff0, Ok ig) =>
    match getDirectoryStructure cwd ig (root w) cwd emptyObject [] eff0 with
    | (_, Throw e) => StructureFailed e
    | (eff1, Ok fileStructure) =>
      match formatStructure fileStructure 0 with
      | Throw e => FormatFailed e
      | Ok structureText =>
        match readAllFiles cwd ig (root w) cwd [] false false eff1 with
        | (_, Throw e) => ContentFailed e
        | (_, Ok filesText) => Completed fileStructure structureText filesText
        end
      end
    end
  end.

(** The exception of a traversal, if one of them threw. *)
Definition traversalError (t : traversal) : option error :=
  match t with
  | StructureFailed e | ContentFailed e => Some e
  | _ => None
  end.

Definition errorLine (e : error) : stream * jsstring :=
  (Err, lit "Error processing directory: " ++ message e).

(** The sentence of the specification about a failing traversal. *)
Definition abortsWithFailureStatus (cwd : jsstring)
  (ignores : list jsstring -> jsstring -> bool) (w : world) : Prop :=
  forall e,
    traversalError (traverse cwd ignores w) = Some e ->
    written (fst (run cwd ignores w)) = []
    /\ In (errorLine e) (console (fst (run cwd ignores w)))
    /\ snd (run cwd ignores w) <> 0%Z.

(** An instance of the [ignore] package none of whose rules matches the
    paths of the examples below. *)
Definition matchesNothing : list jsstring -> jsstring -> bool :=
  fun _ _ => false.

Definition permissionDenied : error :=
  IOError (lit "EACCES: permission denied, scandir '/work'").

(** A working directory that cannot be listed. *)
Definition unreadableWorld : world :=
  {| root := Dir (Ok (4096%N, lit "Mon Nov 02 2026")) (Some permissionDenied) [];
     gitignore := None;
     writeError := None |}.

End RunDefs.

(* ====================================================================== *)
(** * Auxiliary definitions: the kept tree *)
(* ====================================================================== *)

Module TreeDefs.

(** A kept file: its name, the two paths, its stat data, and what
    reading it as text answers. *)
Record keptFile : Type := {
  kfName : jsstring;
  kfPath : jsstring;
  kfRelativePath : jsstring;
  kfStats : Stats;
  kfText : outcome jsstring
}.

(** The directory structure as a tagged tree, as the design notes of the
    specification describe it. *)
Inductive node : Type :=
| FileNode (f : keptFile)
| DirectoryNode (children : list (jsstring * node)).

(** Map the values of a property list, or of one paired with indices,
    leaving the keys. *)
Definition relabel {A B : Type} (g : jsstring -> A -> B)
  (l : list (jsstring * A)) : list (jsstring * B) :=
  map (fun entry => (fst entry, g (fst entry) (snd entry))) l.

Definition relabelIndexed {A B : Type} (g : jsstring -> A -> B)
  (l : list (N * (jsstring * A))) : list (N * (jsstring * B)) :=
  map (fun e => (fst e, (fst (snd e), g (fst (snd e)) (snd (snd e))))) l.

Section Kept.
Variable cwd : jsstring.
Variable ig : jsstring -> bool.

(** What both traversals keep of one directory entry, decided by the
    filter of the source on the answers of the file system: nothing when
    the path is ignored; a directory; a file that passes
    [shouldProcessFile] and is not binary. *)
Definition keptEntry (self : fsnode -> jsstring -> jsstring -> list (jsstring * node))
  (dir parentPath : jsstring) (entry : jsstring * fsnode)
  : list (jsstring * node) :=
  let (item, child) := entry in
  let fullPath := path_join dir item in
  let relativePath := path_relative cwd fullPath in
  if ig relativePath then []
  else
    match child with
    | Dir (Ok _) _ _ =>
      [(item, DirectoryNode (self child fullPath (path_join parentPath item)))]
    | File (Ok (sz, t)) (Ok buffer) utf8 =>
      if shouldProcessFile item && negb (isBinaryFile buffer)
      then [(item,
             FileNode {| kfName := item;
                         kfPath := fullPath;
                         kfRelativePath := path_join parentPath item;
                         kfStats := {| isDirectory := false;
                                       size := sz; mtime := t |};
                         kfText := utf8 |})]
      else []
    | _ => []
    end.

(** The entries kept below a directory, in the order of its listing. *)
Fixpoint keptChildren (n : fsnode) (dir parentPath : jsstring) {struct n}
  : list (jsstring * node) :=
  match n with
  | File _ _ _ => []
  | Dir _ _ items => flat_map (keptEntry keptChildren dir parentPath) items
  end.
End Kept.

(** The JavaScript object that stands for a tagged tree. *)
Fixpoint toValue (n : node) : value :=
  match n with
  | FileNode f => fileEntry (kfPath f) (kfRelativePath f) (kfStats f)
  | DirectoryNode children =>
    VObject None (relabel (fun _ child => toValue child) children)
  end.

Definition toProps (children : list (jsstring * node)) : list (jsstring * value) :=
  relabel (fun _ child => toValue child) children.

Section Ordered.
(** The order in which the children of a directory are visited. *)
Variable order : forall A : Type, list (jsstring * A) -> list (jsstring * A).

(** The kept files of a tree, depth first. *)
Fixpoint filesOf (n : node) : list keptFile :=
  match n with
  | FileNode f => [f]
  | DirectoryNode children =>
    concat (map snd (order _ (relabel (fun _ child => filesOf child) children)))
  end.

(** The listing that the specification describes: one line for a file,
    [name/] and the children two columns further in for a directory. *)
Fixpoint render (indent : nat) (name : jsstring) (n : node) : jsstring :=
  let indentString := repeat 32%N indent in
  match n with
  | FileNode f =>
    indentString ++ name ++ lit " (Path: " ++ kfRelativePath f
    ++ lit ", Size: " ++ string_of_N (size (kfStats f))
    ++ lit " bytes, Last Modified: " ++ mtime (kfStats f) ++ lit ")" ++ nl
  | DirectoryNode children =>
    indentString ++ name ++ lit "/" ++ nl
    ++ concat (map snd (order _ (relabel (render (indent + 2)) children)))
  end.

Definition renderChildren (children : list (jsstring * node)) (indent : nat)
  : jsstring :=
  concat (map snd (order _ (relabel (render indent) children))).
End Ordered.

(** The kept files below a directory, and their blocks in the text. *)
Definition filesOfChildren
  (order : forall A : Type, list (jsstring * A) -> list (jsstring * A))
  (children : list (jsstring * node)) : list keptFile :=
  filesOf order (DirectoryNode children).

Definition insertionOrder : forall A : Type, list (jsstring * A) -> list (jsstring * A) :=
  fun _ l => l.

Definition propertyOrder : forall A : Type, list (jsstring * A) -> list (jsstring * A) :=
  fun _ l => ownPropertyOrder l.

(** The relative path of a file entry object: an object whose own
    property [relativePath] is a string.  (The children of a directory
    object are objects, never strings.) *)
Definition entryPath (v : value) : option jsstring :=
  match v with
  | VObject _ props =>
    match assoc (lit "relativePath") props with
    | Some (VString p) => Some p
    | _ => None
    end
  | _ => None
  end.

(** The file entries of a directory structure in the order in which
    [for ... in] meets them, depth first. *)
Fixpoint entriesInOrder (v : value) : list jsstring :=
  match v with
  | VObject _ props =>
    concat (map snd (ownPropertyOrder
      (relabel (fun _ child =>
                  match entryPath child with
                  | Some p => [p]
                  | None => entriesInOrder child
                  end) props)))
  | _ => []
  end.

(** The block of a kept file in the concatenated text. *)
Definition blockOf (removeWhitespaceSetting removeCommentsSetting : bool)
  (f : keptFile) : jsstring :=
  match kfText f with
  | Ok fileContent =>
    fileBlock (kfName f) (kfRelativePath f)
      (processContent (kfName f) fileContent
         removeWhitespaceSetting removeCommentsSetting)
  | Throw _ => []
  end.

Definition blocksOf (removeWhitespaceSetting removeCommentsSetting : bool)
  (files : list keptFile) : jsstring :=
  concat (map (blockOf removeWhitespaceSetting removeCommentsSetting) files).

Fixpoint memb (k : jsstring) (l : list jsstring) : bool :=
  match l with
  | [] => false
  | x :: l' => eqs k x || memb k l'
  end.

Fixpoint distinct (l : list jsstring) : bool :=
  match l with
  | [] => true
  | x :: l' => negb (memb x l') && distinct l'
  end.

Section Names.
(** A condition on the name of an entry. *)
Variable allowed : jsstring -> bool.
(** A condition on the names of the children of a directory below the
    root. *)
Variable allowedBelow : list jsstring -> bool.

Definition belowOk (n : node) : bool :=
  match n with
  | DirectoryNode sub => allowedBelow (map fst sub)
  | FileNode _ => true
  end.

(** In every directory of the tree the names are distinct and allowed. *)
Fixpoint namesOk (n : node) : bool :=
  match n with
  | FileNode _ => true
  | DirectoryNode children =>
    distinct (map fst children)
    && forallb allowed (map fst children)
    && forallb (fun entry => namesOk (snd entry) && belowOk (snd entry)) children
  end.
End Names.

(** What is required of a list of kept entries that is appended to the
    properties [props0] of a plain object. *)
Definition appendable (allowed : jsstring -> bool)
  (allowedBelow : list jsstring -> bool) (props0 : list (jsstring * value))
  (kept : list (jsstring * node)) : Prop :=
  distinct (map fst props0 ++ map fst kept) = true
  /\ forallb allowed (map fst kept) = true
  /\ Forall (fun entry => namesOk allowed allowedBelow (snd entry) = true
                          /\ belowOk allowedBelow (snd entry) = true) kept.

(** Names on which a plain object keeps creation order and stores the
    entry as an own property. *)
Definition plainName (k : jsstring) : bool :=
  negb (eqs k protoKey)
  && match arrayIndex k with Some _ => false | None => true end.

(** Names other than [__proto__]: names that a plain object stores as
    own properties. *)
Definition ordinaryName (k : jsstring) : bool := negb (eqs k protoKey).

(** Names that the formatter can handle, whatever their order. *)
Definition formattableName (k : jsstring) : bool :=
  negb (eqs k protoKey) && negb (eqs k (lit "hasOwnProperty")).

Definition noRelativePath (names : list jsstring) : bool :=
  negb (memb (lit "relativePath") names).

(** The structure pass and the content pass on one tree. *)
Definition structurePass (cwd : jsstring) (ig : jsstring -> bool) (root : fsnode)
  : outcome value :=
  snd (getDirectoryStructure cwd ig root cwd emptyObject [] noEffects).

Definition contentPass (cwd : jsstring) (ig : jsstring -> bool) (root : fsnode)
  (removeWhitespaceSetting removeCommentsSetting : bool) : outcome jsstring :=
  snd (readAllFiles cwd ig root cwd []
         removeWhitespaceSetting removeCommentsSetting noEffects).

(** The sentence of the specification about the two passes: the text is
    the blocks of the kept files, and the file entries of the structure
    come in the order of these blocks. *)
Definition passesAgree (cwd : jsstring) (ig : jsstring -> bool) (root : fsnode)
  : Prop :=
  forall fileStructure filesText,
    structurePass cwd ig root = Ok fileStructure ->
    contentPass cwd ig root false false = Ok filesText ->
    let files := filesOf insertionOrder (DirectoryNode (keptChildren cwd ig root cwd [])) in
    filesText = blocksOf false false files
    /\ entriesInOrder fileStructure = map kfRelativePath files.

(** The sentence of the specification about the formatter: the listing
    visits the children in insertion order. *)
Definition formatsInInsertionOrder (cwd : jsstring) (ig : jsstring -> bool)
  (root : fsnode) : Prop :=
  forall fileStructure,
    structurePass cwd ig root = Ok fileStructure ->
    formatStructure fileStructure 0
    = Ok (renderChildren insertionOrder (keptChildren cwd ig root cwd []) 0).

(** An instance of the [ignore] package that ignores none of the paths
    of the examples. *)
Definition ignoresNothing : jsstring -> bool := fun _ => false.

Definition workDir : jsstring := lit "/work".

(** A readable text file and a readable directory. *)
Definition textFile (bytes : list Byte.byte) (text : jsstring) : fsnode :=
  File (Ok (N.of_nat (length bytes), lit "Mon Nov 02 2026"))
       (Ok bytes) (Ok text).

Definition directory (entries : list (jsstring * fsnode)) : fsnode :=
  Dir (Ok (4096%N, lit "Mon Nov 02 2026")) None entries.

(** A directory that lists a file named [b] before a file named [1]. *)
Definition letterThenDigit : fsnode :=
  directory
    [ (lit "b", textFile [Byte.x68; Byte.x69] (lit "hi"));
      (lit "1", textFile [Byte.x79; Byte.x6f] (lit "yo")) ].

(** The example of the specification: [a.txt] and [sub/b.txt]. *)
Definition specExample : fsnode :=
  directory
    [ (lit "a.txt",
       textFile [Byte.x68; Byte.x65; Byte.x6c; Byte.x6c; Byte.x6f] (lit "hello"));
      (lit "sub",
       directory
         [ (lit "b.txt",
            textFile [Byte.x77; Byte.x6f; Byte.x72; Byte.x6c; Byte.x64]
                     (lit "world")) ]) ].

(** A directory named [__proto__] that holds one file. *)
Definition protoDirectory : fsnode :=
  directory
    [ (lit "__proto__",
       directory [ (lit "a.txt", textFile [Byte.x68; Byte.x69] (lit "hi")) ]) ].

End TreeDefs.
(* ====================================================================== *)
(** * Auxiliary definitions: what the protecting passes make of a text *)
(* ====================================================================== *)

Module PieceDefs.
Import TextDefs.

(** One step of a protecting pass over a text: a code unit that is
    copied, or a match [m] that is preserved as item number [k] and
    replaced by the placeholder of [k]. *)
Inductive piece : Type :=
| Chr (c : char)
| Lit (k : nat) (m : jsstring).

(** What the pass reads, and what it writes. *)
Definition source (p : piece) : jsstring :=
  match p with
  | Chr c => [c]
  | Lit _ m => m
  end.

Definition masked (p : piece) : jsstring :=
  match p with
  | Chr c => [c]
  | Lit k _ => placeholder k
  end.

Definition sources (ps : list piece) : jsstring := flat_map source ps.

Definition maskeds (ps : list piece) : jsstring := flat_map masked ps.

(** The matches of the pass, in order. *)
Fixpoint literals (ps : list piece) : list jsstring :=
  match ps with
  | [] => []
  | Chr _ :: ps' => literals ps'
  | Lit _ m :: ps' => m :: literals ps'
  end.

(** The matches carry the numbers [n], [n + 1], ... in order. *)
Fixpoint numbered (n : nat) (ps : list piece) : Prop :=
  match ps with
  | [] => True
  | Chr _ :: ps' => numbered n ps'
  | Lit k _ :: ps' => k = n /\ numbered (S n) ps'
  end.

(** The pieces are the steps of the scan of [sources ps] with the
    pattern [re]: where a code unit is copied the pattern does not
    match, and each match is what the pattern matches there. *)
Fixpoint scanned (re : matcher) (ps : list piece) : Prop :=
  match ps with
  | [] => True
  | Chr c :: ps' =>
    (forall len g, re (c :: sources ps') <> Some (S len, g)) /\ scanned re ps'
  | Lit _ m :: ps' =>
    (exists len g, re (m ++ sources ps') = Some (S len, g) /\ length m = S len)
    /\ scanned re ps'
  end.

(** The two protecting passes together.  A group is a step of the regex
    pass over the text that the string pass has left: a piece of the
    string pass that the regex pass copies (for a string literal, it
    copies the code units of the placeholder), or a match of the
    regex-literal pattern, number [j], with the pieces of the string pass
    that it covers. *)
Inductive group : Type :=
| One (p : piece)
| Reg (j : nat) (ps : list piece).

(** The steps of the string pass. *)
Definition stringLevel (gs : list group) : list piece :=
  flat_map (fun g => match g with One p => [p] | Reg _ ps => ps end) gs.

(** The steps of the regex pass. *)
Definition regexLevel (gs : list group) : list piece :=
  flat_map (fun g =>
              match g with
              | One (Chr c) => [Chr c]
              | One (Lit k _) => map Chr (placeholder k)
              | Reg j ps => [Lit j (maskeds ps)]
              end) gs.

(** The protected text with what each of its placeholders stands for:
    a string literal, or a regex literal as the regex pass met it. *)
Definition topLevel (gs : list group) : list piece :=
  map (fun g => match g with One p => p | Reg j ps => Lit j (maskeds ps) end) gs.

(** The restored text as the string pass of a second application goes
    through it: the regex literals are plain code units now. *)
Definition restoredLevel (gs : list group) : list piece :=
  flat_map (fun g =>
              match g with
              | One p => [p]
              | Reg _ ps => map Chr (maskeds ps)
              end) gs.

(** The groups of a second application to the restored text: the same
    steps with new numbers, the string literals from [i] and the regex
    literals from [j]. *)
Fixpoint secondRun (i j : nat) (gs : list group) : list group :=
  match gs with
  | [] => []
  | One (Chr c) :: gs' => One (Chr c) :: secondRun i j gs'
  | One (Lit _ m) :: gs' => One (Lit i m) :: secondRun (S i) j gs'
  | Reg _ ps :: gs' => Reg j (map Chr (maskeds ps)) :: secondRun i (S j) gs'
  end.

(** The same pieces but for the numbers. *)
Inductive sameShape : list piece -> list piece -> Prop :=
| sameShape_nil : sameShape [] []
| sameShape_chr (c : char) (ps qs : list piece) :
    sameShape ps qs -> sameShape (Chr c :: ps) (Chr c :: qs)
| sameShape_lit (k k' : nat) (m : jsstring) (ps qs : list piece) :
    sameShape ps qs -> sameShape (Lit k m :: ps) (Lit k' m :: qs).

(** The code units copied before the first match. *)
Fixpoint leadingText (ps : list piece) : jsstring :=
  match ps with
  | Chr c :: ps' => c :: leadingText ps'
  | _ => []
  end.

(** No run of copied code units holds [__PRESERVED__]. *)
Fixpoint gapsPlain (ps : list piece) : Prop :=
  match ps with
  | [] => True
  | Chr c :: ps' =>
    occursIn placeholderPrefix (leadingText ps) = false /\ gapsPlain ps'
  | Lit _ _ :: ps' => gapsPlain ps'
  end.

(** Every placeholder names the item that it stands for. *)
Definition consistent (items : list jsstring) (ps : list piece) : Prop :=
  forall k m, In (Lit k m) ps -> nth k items (lit "undefined") = m.

(** A pattern never matches more than there is. *)
Definition bounded (re : matcher) : Prop :=
  forall s n g, re s = Some (n, g) -> n <= length s.

(** The steps of the string pass, and the restored text as the string
    pass of a second application goes through it: a string literal that
    a match of the regex-literal pattern covers has given way to its
    placeholder, which is plain code units now. *)
Inductive hardened : list piece -> list piece -> Prop :=
| hardened_nil : hardened [] []
| hardened_chr (c : char) (ps qs : list piece) :
    hardened ps qs -> hardened (Chr c :: ps) (Chr c :: qs)
| hardened_kept (k : nat) (m : jsstring) (ps qs : list piece) :
    hardened ps qs -> hardened (Lit k m :: ps) (Lit k m :: qs)
| hardened_covered (k : nat) (m : jsstring) (ps qs : list piece) :
    hardened ps qs ->
    hardened (Lit k m :: ps) (map Chr (placeholder k) ++ qs).

(** What the rest of the string pattern makes of two texts: where it
    finds no closing quote in the first, at the start or after a
    backslash, it finds none in the second. *)
Definition safe (q : char) (r r' : jsstring) : Prop :=
  (stringBody q r = None -> stringBody q r' = None)
  /\ (stringBody q (backslash :: r) = None ->
      stringBody q (backslash :: r') = None).

(** The code unit at which the longest run of a class stops. *)
Definition stopOf (p : char -> bool) (s : jsstring) : option char :=
  hd_error (skipn (span p s) s).

(** The pattern matches at no position of the text. *)
Definition nowhere (re : matcher) (s : jsstring) : Prop :=
  forall i, i < length s -> forall len g, re (skipn i s) <> Some (S len, g).

End PieceDefs.

(* ====================================================================== *)
(** * Auxiliary definitions: further properties *)
(* ====================================================================== *)

Module MoreDefs.
Import TextDefs TreeDefs RunDefs BinaryDefs.

(** A letter followed by a null byte. *)
Definition letterThenNull : list Byte.byte := [Byte.x61; Byte.x00].

(** The words of a text: its maximal runs of code units that are not
    white space, in order.  [word] is the run read so far. *)
Fixpoint splitWords (s word : jsstring) : list jsstring :=
  match s with
  | [] => match word with [] => [] | _ => [word] end
  | c :: s' =>
    if isWhiteSpace c then
      match word with
      | [] => splitWords s' []
      | _ => word :: splitWords s' []
      end
    else splitWords s' (word ++ [c])
  end.

Definition words (s : jsstring) : list jsstring := splitWords s [].

(** [ws.join(' ')] *)
Fixpoint joinWords (ws : list jsstring) : jsstring :=
  match ws with
  | [] => []
  | [w] => w
  | w :: rest => w ++ 32%N :: joinWords rest
  end.

(** The code units of a text that are not white space. *)
Definition content (s : jsstring) : jsstring :=
  filter (fun c => negb (isWhiteSpace c)) s.

(** A code unit that is neither a quote nor a slash: it begins no
    string literal, no regex literal and no comment. *)
Definition isPlain (c : char) : bool :=
  negb (isQuote c) && negb (eqc c slash).

Definition notSlash (c : char) : bool := negb (eqc c slash).

Definition notQuote (c : char) : bool := negb (isQuote c).

(** The text is empty or begins with LF or CR. *)
Definition beginsNewLine (tail : jsstring) : bool :=
  match tail with
  | [] => true
  | c :: _ => (c =? 10)%N || (c =? 13)%N
  end.

(** LS (U+2028) or PS (U+2029). *)
Definition isLineSeparator (c : char) : bool :=
  (c =? 8232)%N || (c =? 8233)%N.

Definition hasPlaceholderText (text : jsstring) : bool :=
  occursIn placeholderPrefix text.

(** Examples: an assignment, the words of a comment, a following line. *)
Definition sampleCode : jsstring := lit "x = 1; ".
Definition sampleComment : jsstring := lit " set x".
Definition sampleTail : jsstring := nl ++ lit "y = 2;".

(** What the body of a string literal quoted by [q] may hold besides
    escapes: any code unit other than the quote, the backslash and the
    line terminators. *)
Definition isBodyChar (q c : char) : bool :=
  negb (eqc c q) && negb (eqc c backslash) && negb (isLineTerminator c).

(** The text does not begin with a star. *)
Definition beginsWithoutStar (s : jsstring) : bool :=
  match s with
  | [] => false
  | c :: _ => negb (eqc c star)
  end.

(** The line that both traversals print for a binary file. *)
Definition skipLine (relativePath : jsstring) : stream * jsstring :=
  (Warn, lit "Skipping binary file: " ++ relativePath).

Section Skipped.
Variable cwd : jsstring.
Variable ig : jsstring -> bool.

(** The entry passes the test of [ig.ignores]. *)
Definition notIgnored (dir : jsstring) (entry : jsstring * fsnode) : bool :=
  negb (ig (path_relative cwd (path_join dir (fst entry)))).

(** The relative paths of the files that a traversal finds binary, in
    the order of the traversal, decided by the filter of the source on
    the answers of the file system. *)
Definition skippedEntry (self : fsnode -> jsstring -> list jsstring)
  (dir : jsstring) (entry : jsstring * fsnode) : list jsstring :=
  let (item, child) := entry in
  let fullPath := path_join dir item in
  let relativePath := path_relative cwd fullPath in
  if ig relativePath then []
  else
    match child with
    | Dir (Ok _) _ _ => self child fullPath
    | File (Ok _) (Ok buffer) _ =>
      if shouldProcessFile item && isBinaryFile buffer then [relativePath]
      else []
    | _ => []
    end.

Fixpoint skipped (n : fsnode) (dir : jsstring) {struct n} : list jsstring :=
  match n with
  | File _ _ _ => []
  | Dir _ _ items => flat_map (skippedEntry skipped dir) items
  end.
End Skipped.

(** The pattern sources that [getIgnorePatterns] adds, in order. *)
Definition ignorePatterns (w : world) : list jsstring :=
  match gitignore w with
  | Some (Ok gitignoreContent) => [gitignoreContent]
  | _ => []
  end ++ EXCLUDE_DIRS ++ SENSITIVE_FILES ++ EXCLUDE_FILES.

(** The text of the output file. *)
Definition finalOutput (structureText filesText : jsstring) : jsstring :=
  lit "Directory Structure:" ++ nl ++ structureText ++ nl
  ++ lit "File Contents:" ++ nl ++ filesText.

Definition savedLine (cwd : jsstring) : stream * jsstring :=
  (Log, lit "Folder structure and file contents have been saved to "
        ++ path_join cwd (lit "output.txt")).

(** A file with a null byte. *)
Definition binaryFile : fsnode :=
  File (Ok (3%N, lit "Mon Nov 02 2026"))
       (Ok [Byte.x89; Byte.x00; Byte.x50]) (Ok (lit "?")).

(** A text file beside a binary file in a subdirectory. *)
Definition withBinary : fsnode :=
  directory
    [ (lit "a.txt", textFile [Byte.x68; Byte.x69] (lit "hi"));
      (lit "img", directory [ (lit "p.png", binaryFile) ]) ].

Definition withBinaryWorld : world :=
  {| root := withBinary; gitignore := None; writeError := None |}.



Definition gitignoreIsDirectory : error :=
  IOError (lit "EISDIR: illegal operation on a directory, read").

Definition badGitignoreWorld : world :=
  {| root := withBinary;
     gitignore := Some (Throw gitignoreIsDirectory);
     writeError := None |}.

(** A working directory with a file named [hasOwnProperty]. *)
Definition withHasOwnProperty : fsnode :=
  directory
    [ (lit "a.txt", textFile [Byte.x68; Byte.x69] (lit "hi"));
      (lit "hasOwnProperty", textFile [Byte.x68; Byte.x69] (lit "hi")) ].

(** ** constants.js *)

Definition STANDARD_TUNING : list jsstring :=
  map lit ["E"; "A"; "D"; "G"; "B"; "E"]%string.

Definition TUNING : list N := [4; 9; 2; 7; 11; 4]%N.

(** The object literal [NOTE_INDEX_MAP], its properties in source order. *)
Definition NOTE_INDEX_MAP : list (jsstring * N) :=
  [ (lit "C", 0); (lit "C#", 1); (lit "D", 2); (lit "D#", 3); (lit "E", 4);
    (lit "F", 5); (lit "F#", 6); (lit "G", 7); (lit "G#", 8); (lit "A", 9);
    (lit "A#", 10); (lit "B", 11) ]%N.

Definition BARRE_RATING : N := 1%N.

End MoreDefs.


(* ====================================================================== *)
(** * Properties of the binary detector *)
(* ====================================================================== *)

Module Binary.
Import BinaryDefs.

Lemma isNonTextByte_rule (byte : N) :
  isNonTextByte byte = true <-> nonTextRule byte.
Proof.
  unfold isNonTextByte, nonTextRule.
  rewrite !andb_true_iff, orb_true_iff, andb_true_iff, !negb_true_iff.
  rewrite !N.ltb_lt, !N.eqb_neq.
  lia.
Qed.

Lemma isNonTextByte_ruleb (b : Byte.byte) :
  isNonTextByte (Byte.to_N b) = nonTextRuleb b.
Proof.
  destruct (isNonTextByte (Byte.to_N b)) eqn:E; symmetry.
  - apply isNonTextByte_rule in E. unfold nonTextRuleb, nonTextRule in *.
    rewrite orb_true_iff, andb_true_iff, !N.ltb_lt. exact E.
  - apply not_true_iff_false. intro H. apply not_true_iff_false in E. apply E.
    apply isNonTextByte_rule. unfold nonTextRuleb, nonTextRule in *.
    rewrite orb_true_iff, andb_true_iff, !N.ltb_lt in H. exact H.
Qed.

Lemma scanBytes_counts (l : list Byte.byte) :
  noNullByte l ->
  forall n, scanBytes l n = Some (n + length (filter nonTextRuleb l)).
Proof.
  induction l as [|b l IH]; intros Hnull n; simpl.
  - f_equal. lia.
  - assert (Hb : Byte.to_N b <> 0%N) by (apply Hnull; now left).
    assert (Hl : noNullByte l) by (intros x Hx; apply Hnull; now right).
    apply N.eqb_neq in Hb. rewrite Hb.
    rewrite isNonTextByte_ruleb.
    destruct (nonTextRuleb b); rewrite IH by assumption; simpl; f_equal; lia.
Qed.

Lemma scanBytes_null (l : list Byte.byte) :
  ~ noNullByte l -> forall n, scanBytes l n = None.
Proof.
  induction l as [|b l IH]; intros Hnull n; simpl.
  - exfalso. apply Hnull. intros b [].
  - destruct (Byte.to_N b =? 0)%N eqn:Hb; [reflexivity|].
    assert (Hl : ~ noNullByte l).
    { intro Hl. apply Hnull. intros x [<-|Hx].
      - now apply N.eqb_neq.
      - now apply Hl. }
    destruct (isNonTextByte (Byte.to_N b)); now apply IH.
Qed.

Lemma phase_spec (k : nat) (expect : bool) (fd : float) (next : float -> bool) :
  forall n, phase k expect (Number n) fd next = true ->
  (forall j, j < k -> above (Number (n + j)) fd = expect)
  /\ next (Number (n + k)) = true.
Proof.
  induction k as [|k IH]; intros n H; simpl in H.
  - split; [intros j Hj; lia|]. now rewrite Nat.add_0_r.
  - apply andb_true_iff in H. destruct H as [H0 H1].
    apply eqb_prop in H0.
    change (Number n + 1)%float with (Number (S n)) in H1.
    apply IH in H1. destruct H1 as [H1 H2]. split.
    + intros [|j] Hj.
      * now rewrite Nat.add_0_r.
      * rewrite Nat.add_succ_r. apply (H1 j). lia.
    + now rewrite Nat.add_succ_r.
Qed.

Lemma rowOk_spec (d n : nat) :
  rowOk d (Number d) = true -> n <= d ->
  above (Number n) (Number d) = (3 * d <? 10 * n).
Proof.
  unfold rowOk. intros H Hn.
  apply (phase_spec _ _ _ _ 0) in H. destruct H as [Hlow H].
  apply phase_spec in H. destruct H as [Hhigh _].
  assert (Hdiv : 10 * (3 * d / 10) <= 3 * d < 10 * S (3 * d / 10)).
  { pose proof (Nat.div_mod_eq (3 * d) 10) as E.
    pose proof (Nat.mod_upper_bound (3 * d) 10). lia. }
  destruct (Nat.lt_ge_cases n (S (3 * d / 10))) as [Hlt|Hge].
  - specialize (Hlow n Hlt). simpl in Hlow. rewrite Hlow.
    symmetry. apply Nat.ltb_ge. lia.
  - replace n with (0 + S (3 * d / 10) + (n - S (3 * d / 10))) at 1 by lia.
    rewrite Hhigh by lia. symmetry. apply Nat.ltb_lt. lia.
Qed.

Lemma tableOk_spec (k : nat) :
  forall d, tableOk k d (Number d) = true ->
  forall i, i < k -> rowOk (d + i) (Number (d + i)) = true.
Proof.
  induction k as [|k IH]; intros d H i Hi; [lia|].
  simpl in H. apply andb_true_iff in H. destruct H as [H0 H1].
  change (Number d + 1)%float with (Number (S d)) in H1.
  destruct i as [|i].
  - now rewrite Nat.add_0_r.
  - rewrite Nat.add_succ_r. apply (IH (S d) H1 i). lia.
Qed.

Lemma tableOk_all : tableOk maxBytes 1 (Number 1) = true.
Proof. vm_cast_no_check (eq_refl true). Qed.

Lemma maxBytes_value : maxBytes = 80 * 100.
Proof. reflexivity. Qed.

Lemma ratio_exact (n d : nat) :
  1 <= d <= maxBytes -> n <= d ->
  above (Number n) (Number d) = (3 * d <? 10 * n).
Proof.
  intros [Hd1 Hd2] Hn. apply rowOk_spec; [|exact Hn].
  replace d with (1 + (d - 1)) by lia.
  apply (tableOk_spec maxBytes 1 tableOk_all). lia.
Qed.

Lemma examined_length (buffer : list Byte.byte) :
  length (examined buffer) = Nat.min (length buffer) maxBytes.
Proof. unfold examined. rewrite length_firstn. lia. Qed.

Lemma filter_length_le {A : Type} (p : A -> bool) (l : list A) :
  length (filter p l) <= length l.
Proof.
  induction l as [|x l IH]; simpl; [lia|]. destruct (p x); simpl; lia.
Qed.

(** [isBinaryFile] in terms of the two counts. *)
Lemma isBinaryFile_no_null (buffer : list Byte.byte) :
  noNullByte (examined buffer) ->
  isBinaryFile buffer
  = (3 * length (examined buffer)
     <? 10 * length (filter nonTextRuleb (examined buffer))).
Proof.
  intros Hnull. unfold isBinaryFile. fold (examined buffer).
  rewrite (scanBytes_counts _ Hnull 0). simpl (0 + _).
  rewrite <- examined_length.
  pose proof (filter_length_le nonTextRuleb (examined buffer)) as Hle.
  destruct (length (examined buffer)) as [|d] eqn:Hd.
  - assert (E : length (filter nonTextRuleb (examined buffer)) = 0) by lia.
    rewrite E. reflexivity.
  - apply (ratio_exact _ (S d)); [|exact Hle].
    pose proof (examined_length buffer). lia.
Qed.

(** C3.  In the loop of [isBinaryFile], when no null byte is among the
    examined bytes, a byte is counted as non-text exactly when it is below
    7, or above 14 and below 32: the final count is the number of examined
    bytes that satisfy this rule, the condition of the source holds for a
    byte value exactly under the rule, and it fails for every value from 7
    to 14 (tab, newline and carriage return among them) and for every
    value from 32 on. *)
Theorem isBinaryFile_counts_by_rule (buffer : list Byte.byte) :
  noNullByte (examined buffer) ->
  scanBytes (examined buffer) 0
  = Some (length (filter nonTextRuleb (examined buffer)))
  /\ (forall byte : N, isNonTextByte byte = true <-> nonTextRule byte)
  /\ (forall byte : N, (7 <= byte <= 14)%N -> isNonTextByte byte = false)
  /\ (forall byte : N, (32 <= byte)%N -> isNonTextByte byte = false).
Proof.
  intros Hnull. split; [|split; [|split]].
  - now rewrite (scanBytes_counts _ Hnull 0).
  - exact isNonTextByte_rule.
  - intros byte H. apply not_true_iff_false. intro E.
    apply isNonTextByte_rule in E. unfold nonTextRule in E. lia.
  - intros byte H. apply not_true_iff_false. intro E.
    apply isNonTextByte_rule in E. unfold nonTextRule in E. lia.
Qed.

Lemma isBinaryFile_counts_by_rule_witness :
  noNullByte (examined sampleBuffer)
  /\ scanBytes (examined sampleBuffer) 0 = Some 2.
Proof.
  assert (H : noNullByte (examined sampleBuffer)).
  { intros b Hb. vm_compute in Hb.
    repeat (destruct Hb as [<-|Hb]; [discriminate|]). destruct Hb. }
  split; [exact H|].
  exact (proj1 (isBinaryFile_counts_by_rule sampleBuffer H)).
Defined.

(** C4.  For the empty file [isBinaryFile] returns false: no byte is
    examined, the division of zero by zero gives NaN without failing, and
    NaN is not greater than 0.3. *)
Theorem isBinaryFile_empty :
  isBinaryFile [] = false
  /\ examined [] = []
  /\ PrimFloat.is_nan (Number 0 / Number (Nat.min (length (@nil Byte.byte)) maxBytes))%float
     = true.
Proof. repeat split. Qed.

(** C5.  For a file with no null byte among its examined bytes,
    [isBinaryFile] answers binary exactly when the number of non-text
    bytes divided by the number of bytes examined exceeds 0.30, that is
    when ten times the first is more than three times the second.  With
    8000 bytes examined, 2480 non-text bytes (31 percent) give binary and
    2400 (30 percent) give text. *)
Theorem isBinaryFile_threshold (buffer : list Byte.byte) :
  noNullByte (examined buffer) ->
  let nonText := length (filter nonTextRuleb (examined buffer)) in
  let total := length (examined buffer) in
  (isBinaryFile buffer = true <-> 3 * total < 10 * nonText)
  /\ (total = 8000 -> nonText = 2480 -> isBinaryFile buffer = true)
  /\ (total = 8000 -> nonText = 2400 -> isBinaryFile buffer = false).
Proof.
  intros Hnull nonText total. subst nonText total.
  rewrite (isBinaryFile_no_null _ Hnull).
  change 8000 with maxBytes. rewrite maxBytes_value.
  split; [apply Nat.ltb_lt|split]; intros Ht Hn.
  - apply Nat.ltb_lt.
    change 2480 with (80 * 31) in Hn. lia.
  - apply Nat.ltb_ge.
    change 2400 with (80 * 30) in Hn. lia.
Qed.

Lemma noNullByte_decide (l : list Byte.byte) :
  forallb (fun b => negb (Byte.to_N b =? 0)%N) l = true -> noNullByte l.
Proof.
  intros H b Hb. rewrite forallb_forall in H. specialize (H b Hb).
  apply negb_true_iff in H. now apply N.eqb_neq.
Qed.

Lemma isBinaryFile_threshold_witness :
  noNullByte (examined buffer31) /\ isBinaryFile buffer31 = true.
Proof.
  assert (H : noNullByte (examined buffer31)).
  { apply noNullByte_decide. vm_compute. reflexivity. }
  split; [exact H|].
  apply (proj1 (proj2 (isBinaryFile_threshold buffer31 H))); vm_compute; reflexivity.
Defined.

End Binary.

(* ====================================================================== *)
(** * Facts about [replace] *)
(* ====================================================================== *)

Module ReplaceFacts.

Section WithState.
Context {St : Type}.
Variable re : matcher.
Variable cb : St -> jsstring -> list jsstring -> St * jsstring.

Lemma replace_from_skip (s : jsstring) :
  forall k st,
    replace_from re cb k st s = replace_from re cb 0 st (skipn k s).
Proof.
  induction s as [|c s IH]; intros k st.
  - now rewrite skipn_nil.
  - destruct k as [|k]; [reflexivity|]. simpl. apply IH.
Qed.

Lemma replace_st_nil (st : St) : replace_st re cb st [] = (st, []).
Proof. reflexivity. Qed.

Lemma replace_st_copy (st : St) (c : char) (s : jsstring) :
  (forall len g, re (c :: s) <> Some (S len, g)) ->
  replace_st re cb st (c :: s)
  = let (st1, out) := replace_st re cb st s in (st1, c :: out).
Proof.
  intros H. unfold replace_st. simpl.
  destruct (re (c :: s)) as [[[|len] g]|] eqn:E; try reflexivity.
  exfalso. now apply (H len g).
Qed.

Lemma replace_st_match (st : St) (c : char) (s : jsstring) (len : nat)
  (g : list jsstring) :
  re (c :: s) = Some (S len, g) ->
  replace_st re cb st (c :: s)
  = let (st1, r) := cb st (firstn (S len) (c :: s)) g in
    let (st2, out) := replace_st re cb st1 (skipn len s) in
    (st2, r ++ out).
Proof.
  intros H. unfold replace_st. cbn [replace_from]. rewrite H.
  destruct (cb st (firstn (S len) (c :: s)) g) as [st1 r].
  now rewrite replace_from_skip.
Qed.
End WithState.

Section Stateless.
Variable re : matcher.
Variable r : jsstring -> list jsstring -> jsstring.

Lemma replace_nil : replace re r [] = [].
Proof. reflexivity. Qed.

Lemma replace_copy (c : char) (s : jsstring) :
  (forall len g, re (c :: s) <> Some (S len, g)) ->
  replace re r (c :: s) = c :: replace re r s.
Proof.
  intros H. unfold replace. rewrite replace_st_copy by exact H.
  now destruct (replace_st re _ tt s).
Qed.

Lemma replace_match (c : char) (s : jsstring) (len : nat) (g : list jsstring) :
  re (c :: s) = Some (S len, g) ->
  replace re r (c :: s)
  = r (firstn (S len) (c :: s)) g ++ replace re r (skipn len s).
Proof.
  intros H. unfold replace. rewrite (replace_st_match _ _ _ _ _ _ _ H).
  now destruct (replace_st re _ tt (skipn len s)).
Qed.
End Stateless.

(** Induction on a string where the hypothesis is available for every
    shorter string: the shape of the scan, which resumes after a match. *)
Lemma suffix_induction (P : jsstring -> Prop) :
  (forall s, (forall t, length t < length s -> P t) -> P s) ->
  forall s, P s.
Proof.
  intros H s.
  assert (G : forall n t, length t < n -> P t).
  { induction n as [|n IH]; intros t Ht; [lia|].
    apply H. intros u Hu. apply IH. lia. }
  apply (G (S (length s))). lia.
Qed.

Lemma span_le (p : char -> bool) (s : jsstring) : span p s <= length s.
Proof.
  induction s as [|c s IH]; simpl; [lia|]. destruct (p c); simpl; lia.
Qed.

Lemma span_firstn (p : char -> bool) (s : jsstring) :
  forall c, In c (firstn (span p s) s) -> p c = true.
Proof.
  induction s as [|x s IH]; simpl; intros c Hc; [destruct Hc|].
  destruct (p x) eqn:E; simpl in Hc; [|destruct Hc].
  destruct Hc as [<-|Hc]; [exact E|now apply IH].
Qed.

Lemma span_skipn (p : char -> bool) (s : jsstring) :
  match skipn (span p s) s with
  | [] => True
  | c :: _ => p c = false
  end.
Proof.
  induction s as [|x s IH]; simpl; [exact I|].
  destruct (p x) eqn:E; simpl; [exact IH|exact E].
Qed.


End ReplaceFacts.

(* ====================================================================== *)
(** * Properties of [removeWhitespace] *)
(* ====================================================================== *)

Module Whitespace.
Import TextDefs ReplaceFacts.

Lemma trimStart_skipn (s : jsstring) :
  trimStart s = skipn (span isWhiteSpace s) s.
Proof.
  induction s as [|c s IH]; simpl; [reflexivity|].
  destruct (isWhiteSpace c); [exact IH|reflexivity].
Qed.

Lemma trimStart_split (s : jsstring) :
  exists p, s = p ++ trimStart s /\ forall c, In c p -> isWhiteSpace c = true.
Proof.
  induction s as [|c s (p & E & Hp)]; simpl.
  - exists []. split; [reflexivity|intros c []].
  - destruct (isWhiteSpace c) eqn:Hc.
    + exists (c :: p). split; [simpl; now f_equal|].
      intros x [<-|Hx]; [exact Hc|now apply Hp].
    + exists []. split; [reflexivity|intros x []].
Qed.

Lemma trimStart_length (s : jsstring) : length (trimStart s) <= length s.
Proof.
  destruct (trimStart_split s) as (p & E & _).
  rewrite E at 2. rewrite length_app. lia.
Qed.

Lemma trimStart_noLeading (s : jsstring) : noLeadingWhiteSpace (trimStart s).
Proof.
  induction s as [|c s IH]; simpl.
  - intros x rest H. discriminate.
  - destruct (isWhiteSpace c) eqn:Hc; [exact IH|].
    intros x rest H. injection H as <- _. exact Hc.
Qed.

Lemma trimStart_id (s : jsstring) : noLeadingWhiteSpace s -> trimStart s = s.
Proof.
  destruct s as [|c s]; intros H; simpl; [reflexivity|].
  now rewrite (H c s eq_refl).
Qed.

Lemma trimEnd_split (s : jsstring) :
  exists q, s = trimEnd s ++ q /\ forall c, In c q -> isWhiteSpace c = true.
Proof.
  unfold trimEnd. destruct (trimStart_split (rev s)) as (p & E & Hp).
  exists (rev p). split.
  - rewrite <- rev_app_distr, <- E. now rewrite rev_involutive.
  - intros c Hc. apply Hp. now apply in_rev.
Qed.

Lemma trimEnd_noTrailing (s : jsstring) : noTrailingWhiteSpace (trimEnd s).
Proof.
  unfold trimEnd. intros pre c H.
  apply (f_equal (@rev char)) in H.
  rewrite rev_involutive, rev_app_distr in H. simpl in H.
  exact (trimStart_noLeading (rev s) c (rev pre) H).
Qed.

Lemma trimEnd_noLeading (s : jsstring) :
  noLeadingWhiteSpace s -> noLeadingWhiteSpace (trimEnd s).
Proof.
  intros H c rest E. destruct (trimEnd_split s) as (q & Es & _).
  rewrite E in Es. exact (H c (rest ++ q) Es).
Qed.

Lemma trimEnd_id (s : jsstring) : noTrailingWhiteSpace s -> trimEnd s = s.
Proof.
  intros H. unfold trimEnd.
  rewrite trimStart_id; [apply rev_involutive|].
  intros c rest E. apply (H (rev rest) c).
  apply (f_equal (@rev char)) in E. rewrite rev_involutive in E.
  exact E.
Qed.

Lemma trim_id (s : jsstring) :
  noLeadingWhiteSpace s -> noTrailingWhiteSpace s -> trim s = s.
Proof.
  intros H1 H2. unfold trim. rewrite (trimStart_id _ H1). now apply trimEnd_id.
Qed.

Lemma adjacent_cons (a b x : char) (s : jsstring) :
  adjacent a b (x :: s) ->
  (a = x /\ exists post, s = b :: post) \/ adjacent a b s.
Proof.
  intros ([|y pre] & post & E); simpl in E; injection E as -> ->.
  - left. split; [reflexivity|]. now exists post.
  - right. now exists pre, post.
Qed.

Lemma tidy_nil : tidy [].
Proof.
  split.
  - intros c [].
  - intros a b ([|y pre] & post & E); discriminate.
Qed.

Lemma tidy_suffix (p s : jsstring) : tidy (p ++ s) -> tidy s.
Proof.
  intros [H1 H2]. split.
  - intros c Hc. apply H1. apply in_or_app. now right.
  - intros a b (pre & post & E). apply H2. exists (p ++ pre), post.
    rewrite E. now rewrite <- app_assoc.
Qed.

Lemma tidy_prefix (s q : jsstring) : tidy (s ++ q) -> tidy s.
Proof.
  intros [H1 H2]. split.
  - intros c Hc. apply H1. apply in_or_app. now left.
  - intros a b (pre & post & E). apply H2. exists pre, (post ++ q).
    rewrite E. now rewrite <- app_assoc.
Qed.

Lemma tidy_cons_other (c : char) (s : jsstring) :
  isWhiteSpace c = false -> tidy s -> tidy (c :: s).
Proof.
  intros Hc [H1 H2]. split.
  - intros x [<-|Hx] Hw; [congruence|now apply H1].
  - intros a b H. apply adjacent_cons in H. destruct H as [[-> _]|H].
    + now rewrite Hc.
    + now apply H2.
Qed.

Lemma tidy_cons_space (s : jsstring) :
  noLeadingWhiteSpace s -> tidy s -> tidy (32%N :: s).
Proof.
  intros Hs [H1 H2]. split.
  - intros x [<-|Hx] Hw; [reflexivity|now apply H1].
  - intros a b H. apply adjacent_cons in H. destruct H as [[-> (post & E)]|H].
    + rewrite (Hs b post E). apply andb_false_r.
    + now apply H2.
Qed.

Lemma whitespacePattern_other (c : char) (s : jsstring) :
  isWhiteSpace c = false -> whitespacePattern (c :: s) = None.
Proof. intros H. unfold whitespacePattern. simpl. now rewrite H. Qed.

Lemma whitespacePattern_space (c : char) (s : jsstring) :
  isWhiteSpace c = true ->
  whitespacePattern (c :: s) = Some (S (span isWhiteSpace s), []).
Proof. intros H. unfold whitespacePattern. simpl. now rewrite H. Qed.

Lemma collapse_other (c : char) (s : jsstring) :
  isWhiteSpace c = false -> collapse (c :: s) = c :: collapse s.
Proof.
  intros H. unfold collapse. apply replace_copy.
  intros len g. now rewrite (whitespacePattern_other _ _ H).
Qed.

Lemma collapse_space (c : char) (s : jsstring) :
  isWhiteSpace c = true -> collapse (c :: s) = 32%N :: collapse (trimStart s).
Proof.
  intros H. unfold collapse.
  rewrite (replace_match _ _ _ _ _ _ (whitespacePattern_space _ _ H)).
  now rewrite trimStart_skipn.
Qed.

Lemma collapse_noLeading (s : jsstring) :
  noLeadingWhiteSpace s -> noLeadingWhiteSpace (collapse s).
Proof.
  destruct s as [|c s]; intros H.
  - intros x rest E. discriminate.
  - rewrite (collapse_other _ _ (H c s eq_refl)).
    intros x rest E. injection E as <- _. exact (H c s eq_refl).
Qed.

Lemma collapse_tidy : forall s, tidy (collapse s).
Proof.
  apply suffix_induction. intros [|c s] IH.
  - apply tidy_nil.
  - destruct (isWhiteSpace c) eqn:Hc.
    + rewrite (collapse_space _ _ Hc). apply tidy_cons_space.
      * apply collapse_noLeading, trimStart_noLeading.
      * apply IH. pose proof (trimStart_length s). simpl. lia.
    + rewrite (collapse_other _ _ Hc). apply tidy_cons_other; [exact Hc|].
      apply IH. simpl. lia.
Qed.

Lemma collapse_id (s : jsstring) : tidy s -> collapse s = s.
Proof.
  induction s as [|c s IH]; intros H; [reflexivity|].
  assert (Hs : tidy s) by exact (tidy_suffix [c] s H).
  destruct (isWhiteSpace c) eqn:Hc.
  - rewrite (collapse_space _ _ Hc).
    assert (E : c = 32%N) by (apply (proj1 H); [now left|exact Hc]).
    assert (Hl : noLeadingWhiteSpace s).
    { intros d rest Ed. subst s.
      pose proof (proj2 H c d (ex_intro _ [] (ex_intro _ rest eq_refl))) as Hp.
      now rewrite Hc in Hp. }
    rewrite (trimStart_id _ Hl), (IH Hs). now rewrite E.
  - rewrite (collapse_other _ _ Hc). now rewrite (IH Hs).
Qed.

Lemma removeWhitespace_unfold (s : jsstring) :
  removeWhitespace s = trim (collapse s).
Proof. reflexivity. Qed.

Lemma removeWhitespace_tidy (s : jsstring) : tidy (removeWhitespace s).
Proof.
  rewrite removeWhitespace_unfold. unfold trim.
  destruct (trimEnd_split (trimStart (collapse s))) as (q & E & _).
  destruct (trimStart_split (collapse s)) as (p & E' & _).
  apply (tidy_prefix _ q). rewrite <- E.
  apply (tidy_suffix p). rewrite <- E'. apply collapse_tidy.
Qed.

Lemma removeWhitespace_noLeading (s : jsstring) :
  noLeadingWhiteSpace (removeWhitespace s).
Proof. apply trimEnd_noLeading, trimStart_noLeading. Qed.

Lemma removeWhitespace_noTrailing (s : jsstring) :
  noTrailingWhiteSpace (removeWhitespace s).
Proof. apply trimEnd_noTrailing. Qed.

(** C9.  [removeWhitespace] is idempotent; its result has no two
    neighbouring white space code units, and neither begins nor ends
    with white space. *)
Theorem removeWhitespace_idempotent (s : jsstring) :
  removeWhitespace (removeWhitespace s) = removeWhitespace s
  /\ (forall a b, adjacent a b (removeWhitespace s) ->
      isWhiteSpace a && isWhiteSpace b = false)
  /\ noLeadingWhiteSpace (removeWhitespace s)
  /\ noTrailingWhiteSpace (removeWhitespace s).
Proof.
  pose proof (removeWhitespace_tidy s) as Ht.
  pose proof (removeWhitespace_noLeading s) as Hl.
  pose proof (removeWhitespace_noTrailing s) as Hr.
  split; [|split; [exact (proj2 Ht)|split; assumption]].
  rewrite (removeWhitespace_unfold (removeWhitespace s)).
  rewrite (collapse_id _ Ht). now apply trim_id.
Qed.

End Whitespace.

(* ====================================================================== *)
(** * [removeComments] on collapsed content *)
(* ====================================================================== *)

Module Collapsed.
Import TextDefs ReplaceFacts Whitespace.

Lemma removeComments_unfold (text : jsstring) :
  removeComments text
  = restore (fst (protect text))
      (stripMultiLine (stripSingleLine (snd (protect text)))).
Proof. unfold removeComments. now destruct (protect text). Qed.



Lemma replace_from_Forall {St : Type} (P : char -> Prop) (re : matcher)
  (cb : St -> jsstring -> list jsstring -> St * jsstring) :
  (forall st m g, Forall P (snd (cb st m g))) ->
  forall s k st, Forall P s -> Forall P (snd (replace_from re cb k st s)).
Proof.
  intros Hcb. induction s as [|c s IH]; intros k st Hs; simpl.
  - constructor.
  - inversion Hs as [|? ? Hc Hs']; subst.
    destruct k as [|k]; [|now apply IH].
    destruct (re (c :: s)) as [[[|len] g]|].
    + specialize (IH 0 st Hs').
      destruct (replace_from re cb 0 st s). simpl in *. now constructor.
    + specialize (Hcb st (c :: firstn len s) g).
      destruct (cb st (c :: firstn len s) g) as [st1 r].
      specialize (IH len st1 Hs').
      destruct (replace_from re cb len st1 s). simpl in *.
      apply Forall_app. now split.
    + specialize (IH 0 st Hs').
      destruct (replace_from re cb 0 st s). simpl in *. now constructor.
Qed.

Lemma digits_of_uint_digits (u : Decimal.uint) :
  Forall (fun c => isDigit c = true) (digits_of_uint u).
Proof. induction u; simpl; constructor; (reflexivity || assumption). Qed.

Lemma string_of_nat_digits (n : nat) :
  Forall (fun c => isDigit c = true) (string_of_nat n).
Proof.
  unfold string_of_nat, string_of_N.
  pose proof (digits_of_uint_digits (N.to_uint (N.of_nat n))) as H.
  destruct (N.to_uint (N.of_nat n)); try exact H.
  constructor; [reflexivity|constructor].
Qed.






Lemma stripSingleLine_none (t : jsstring) :
  indexOfSlashSlash t = None -> stripSingleLine t = t.
Proof.
  unfold stripSingleLine.
  induction t as [|c t IH]; intros Hi; [reflexivity|].
  rewrite replace_copy.
  - f_equal. apply IH. simpl in Hi. destruct t as [|d t]; [reflexivity|].
    destruct (eqc c slash && eqc d slash); [discriminate|].
    now destruct (indexOfSlashSlash (d :: t)).
  - intros len g. unfold singleLineCommentPattern.
    simpl in Hi. destruct t as [|d t]; [discriminate|].
    destruct (eqc c slash && eqc d slash); [discriminate|discriminate].
Qed.






End Collapsed.

(* ====================================================================== *)
(** * Properties of a run *)
(* ====================================================================== *)

Module Run.
Import RunDefs.

(** Induction on a file system tree, with the hypothesis for every entry
    of a directory. *)
Lemma fsnode_induction (P : fsnode -> Prop) :
  (forall st raw utf8, P (File st raw utf8)) ->
  (forall st unreadable entries,
      Forall (fun entry => P (snd entry)) entries ->
      P (Dir st unreadable entries)) ->
  forall node, P node.
Proof.
  intros Hfile Hdir.
  refine (fix IH (node : fsnode) : P node :=
            match node with
            | File st raw utf8 => Hfile st raw utf8
            | Dir st unreadable entries =>
              Hdir st unreadable entries
                ((fix each (l : list (jsstring * fsnode))
                    : Forall (fun entry => P (snd entry)) l :=
                    match l with
                    | [] => Forall_nil _
                    | entry :: l' => Forall_cons entry (IH (snd entry)) (each l')
                    end) entries)
            end).
Qed.

Lemma forEach_cons {A S : Type} (callback : A -> S -> M S) (item : A)
  (rest : list A) (captured : S) (eff : effects) :
  forEach callback (item :: rest) captured eff
  = match callback item captured eff with
    | (eff', Ok captured') => forEach callback rest captured' eff'
    | (eff', Throw e) => (eff', Throw e)
    end.
Proof. reflexivity. Qed.

(** A loop writes no file when its callback writes none. *)
Lemma forEach_written {A S : Type} (callback : A -> S -> M S) (items : list A) :
  Forall (fun item => forall captured eff,
              written (fst (callback item captured eff)) = written eff) items ->
  forall captured eff,
    written (fst (forEach callback items captured eff)) = written eff.
Proof.
  induction items as [|item rest IH]; intros H captured eff; [reflexivity|].
  inversion H as [|? ? Hitem Hrest]; subst.
  rewrite forEach_cons. specialize (Hitem captured eff).
  destruct (callback item captured eff) as [eff' [captured'|e]]; simpl in Hitem.
  - rewrite <- Hitem. now apply IH.
  - exact Hitem.
Qed.

Section Frame.
Variable cwd : jsstring.
Variable ig : jsstring -> bool.

Lemma structureEntry_written
  (self : fsnode -> jsstring -> value -> jsstring -> M value)
  (dir parent : jsstring) (entry : jsstring * fsnode) :
  (forall d fs p eff, written (fst (self (snd entry) d fs p eff)) = written eff) ->
  forall fs eff,
    written (fst (structureEntry cwd ig self dir parent entry fs eff))
    = written eff.
Proof.
  destruct entry as [item child]. cbn [snd]. intros Hself fs eff.
  unfold structureEntry. destruct (ig _); [reflexivity|].
  unfold bind at 1.
  destruct child as [[[sz t]|e] raw utf8|[[sz t]|e] unreadable sub];
    cbn [statSync ret throw isDirectory]; try reflexivity.
  - destruct (shouldProcessFile item); [|reflexivity].
    unfold bind at 1. unfold readFileSyncRaw, lift.
    destruct raw as [buffer|e]; [|reflexivity].
    destruct (isBinaryFile buffer); reflexivity.
  - unfold bind at 1.
    specialize (Hself (path_join dir item)
                  (getMember (setMember fs item emptyObject) item)
                  (path_join parent item) eff).
    destruct (self (Dir (Ok (sz, t)) unreadable sub) _ _ _ eff)
      as [eff' [filled|e]]; exact Hself.
Qed.

Lemma contentEntry_written
  (self : fsnode -> jsstring -> jsstring -> bool -> bool -> M jsstring)
  (dir parent : jsstring) (rw rc : bool) (entry : jsstring * fsnode) :
  (forall d p eff, written (fst (self (snd entry) d p rw rc eff)) = written eff) ->
  forall allText eff,
    written (fst (contentEntry cwd ig self dir parent rw rc entry allText eff))
    = written eff.
Proof.
  destruct entry as [item child]. cbn [snd]. intros Hself allText eff.
  unfold contentEntry. destruct (ig _); [reflexivity|].
  unfold bind at 1.
  destruct child as [[[sz t]|e] raw utf8|[[sz t]|e] unreadable sub];
    cbn [statSync ret throw isDirectory]; try reflexivity.
  - destruct (shouldProcessFile item); [|reflexivity].
    unfold bind at 1. unfold readFileSyncRaw, readFileSyncUtf8, lift.
    destruct raw as [buffer|e]; [|reflexivity].
    destruct (isBinaryFile buffer); [reflexivity|].
    unfold bind at 1. destruct utf8; reflexivity.
  - unfold bind at 1.
    specialize (Hself (path_join dir item) (path_join parent item) eff).
    destruct (self (Dir (Ok (sz, t)) unreadable sub) _ _ _ _ eff)
      as [eff' [sub'|e]]; exact Hself.
Qed.

(** The traversals write no file. *)
Lemma getDirectoryStructure_written (node : fsnode) :
  forall dir fs parent eff,
    written (fst (getDirectoryStructure cwd ig node dir fs parent eff))
    = written eff.
Proof.
  induction node as [st raw utf8|st unreadable items IH] using fsnode_induction;
    intros dir fs parent eff; [reflexivity|].
  destruct unreadable as [e|]; [reflexivity|].
  cbn [getDirectoryStructure]. apply forEach_written.
  eapply Forall_impl; [|exact IH].
  intros entry Hentry. now apply structureEntry_written.
Qed.

Lemma readAllFiles_written (node : fsnode) :
  forall dir parent rw rc eff,
    written (fst (readAllFiles cwd ig node dir parent rw rc eff))
    = written eff.
Proof.
  induction node as [st raw utf8|st unreadable items IH] using fsnode_induction;
    intros dir parent rw rc eff; [reflexivity|].
  destruct unreadable as [e|]; [reflexivity|].
  cbn [readAllFiles]. apply forEach_written.
  eapply Forall_impl; [|exact IH].
  intros entry Hentry. apply contentEntry_written. intros d p eff'. apply Hentry.
Qed.
End Frame.

Section OneRun.
Variable cwd : jsstring.
Variable ignores : list jsstring -> jsstring -> bool.

Lemma getIgnorePatterns_effects (w : world) (eff : effects) :
  fst (getIgnorePatterns ignores w eff) = eff.
Proof.
  unfold getIgnorePatterns, bind, lift, ret.
  destruct (gitignore w) as [[content|e]|]; reflexivity.
Qed.

Lemma print_written (s : stream) (line : jsstring) (eff : effects) :
  print s line eff
  = ({| console := console eff ++ [(s, line)]; written := written eff |}, Ok tt).
Proof. reflexivity. Qed.

(** The script never lets an exception escape. *)
Lemma main_returns (w : world) (eff : effects) :
  exists eff', main cwd ignores w eff = (eff', Ok tt).
Proof.
  unfold main, tryCatch.
  destruct (mainBody cwd ignores w eff) as [eff1 [[]|e]].
  - now exists eff1.
  - rewrite print_written. eexists. reflexivity.
Qed.

Lemma run_status (w : world) : snd (run cwd ignores w) = 0%Z.
Proof.
  unfold run. destruct (main_returns w noEffects) as [eff' E].
  now rewrite E.
Qed.

(** What a run leaves, by how far the traversals got. *)
Lemma run_by_traversal (w : world) :
  match traverse cwd ignores w with
  | NotStarted e | StructureFailed e | FormatFailed e | ContentFailed e =>
    written (fst (run cwd ignores w)) = []
    /\ exists before, console (fst (run cwd ignores w)) = before ++ [errorLine e]
  | Completed _ structureText filesText =>
    forall file, In file (written (fst (run cwd ignores w))) ->
    file = (path_join cwd (lit "output.txt"),
            fileAfterWrite w
              (lit "Directory Structure:" ++ nl ++ structureText ++ nl
               ++ lit "File Contents:" ++ nl ++ filesText))
  end.
Proof.
  unfold traverse, run, main, tryCatch, mainBody, bind.
  pose proof (getIgnorePatterns_effects w noEffects) as Hig.
  destruct (getIgnorePatterns ignores w noEffects) as [eff0 [ig|e]];
    simpl in Hig; subst eff0.
  2: { simpl. split; [reflexivity|]. now exists []. }
  pose proof (getDirectoryStructure_written cwd ig) as Hw1.
  pose proof (readAllFiles_written cwd ig) as Hw2.
  specialize (Hw1 (root w) cwd emptyObject [] noEffects).
  destruct (getDirectoryStructure cwd ig (root w) cwd emptyObject [] noEffects)
    as [eff1 [fileStructure|e]]; simpl in Hw1.
  2: { simpl. split; [exact Hw1|]. now exists (console eff1). }
  unfold lift.
  destruct (formatStructure fileStructure 0) as [structureText|e].
  2: { simpl. split; [exact Hw1|]. now exists (console eff1). }
  specialize (Hw2 (root w) cwd [] false false eff1).
  destruct (readAllFiles cwd ig (root w) cwd [] false false eff1)
    as [eff2 [filesText|e]]; simpl in Hw2.
  2: { simpl. split; [congruence|]. now exists (console eff2). }
  unfold writeFileSync, fileAfterWrite.
  destruct (writeError w) as [[e|e remains]|]; simpl.
  - intros file Hin. rewrite Hw2, Hw1 in Hin. destruct Hin.
  - intros file Hin. rewrite Hw2, Hw1 in Hin. simpl in Hin.
    destruct Hin as [<-|[]]. reflexivity.
  - intros file Hin. rewrite Hw2, Hw1 in Hin. simpl in Hin.
    destruct Hin as [<-|[]]. reflexivity.
Qed.

(** C2, as the code has it.  When a traversal throws, the run writes no
    file, prints one error line with the message of the exception, and
    ends with exit status 0: the exception is caught and the script sets
    no exit code.  In every run, a file is written only when the
    structure pass, the formatting and the content pass have all
    completed, and it is the output file; it holds the combined text,
    or, when the writing itself fails after the file was opened, what
    had reached the file by then. *)
Theorem main_aborts_on_traversal_error (w : world) (e : error) :
  traversalError (traverse cwd ignores w) = Some e ->
  written (fst (run cwd ignores w)) = []
  /\ In (errorLine e) (console (fst (run cwd ignores w)))
  /\ snd (run cwd ignores w) = 0%Z
  /\ (forall w' file,
        In file (written (fst (run cwd ignores w'))) ->
        exists fileStructure structureText filesText,
          traverse cwd ignores w' = Completed fileStructure structureText filesText
          /\ file = (path_join cwd (lit "output.txt"),
                     fileAfterWrite w'
                       (lit "Directory Structure:" ++ nl ++ structureText ++ nl
                        ++ lit "File Contents:" ++ nl ++ filesText))).
Proof.
  intros He.
  pose proof (run_by_traversal w) as H.
  assert (Hfail : written (fst (run cwd ignores w)) = []
                  /\ exists before,
                      console (fst (run cwd ignores w)) = before ++ [errorLine e]).
  { destruct (traverse cwd ignores w); simpl in He; try discriminate;
      injection He as ->; exact H. }
  destruct Hfail as [Hw [before Hc]].
  split; [exact Hw|]. split.
  { rewrite Hc. apply in_or_app. right. now left. }
  split; [apply run_status|].
  intros w' file Hin.
  pose proof (run_by_traversal w') as H'.
  destruct (traverse cwd ignores w') as [e'|e'|e'|e'|fs st ft].
  1-4: destruct H' as [H' _]; rewrite H' in Hin; destruct Hin.
  exists fs, st, ft. split; [reflexivity|]. now apply H'.
Qed.
End OneRun.

Lemma main_aborts_on_traversal_error_witness :
  traversalError (traverse (lit "/work") matchesNothing unreadableWorld)
  = Some permissionDenied
  /\ written (fst (run (lit "/work") matchesNothing unreadableWorld)) = []
  /\ snd (run (lit "/work") matchesNothing unreadableWorld) = 0%Z.
Proof.
  split; [reflexivity|].
  destruct (main_aborts_on_traversal_error (lit "/work") matchesNothing
              unreadableWorld permissionDenied eq_refl) as (H1 & _ & H3 & _).
  split; assumption.
Defined.

(** C2, as stated, at a working directory that cannot be listed: the
    run writes nothing and prints the error line, but its exit status is
    0, not a failure status. *)
Lemma unreadable_directory_exits_zero :
  run (lit "/work") matchesNothing unreadableWorld
  = ({| console := [errorLine permissionDenied]; written := [] |}, 0%Z)
  /\ ~ abortsWithFailureStatus (lit "/work") matchesNothing unreadableWorld.
Proof.
  split; [reflexivity|].
  intros H. destruct (H permissionDenied eq_refl) as (_ & _ & Hstatus).
  apply Hstatus. reflexivity.
Qed.

End Run.

(* ====================================================================== *)
(** * The two passes and the formatter on the kept tree *)
(* ====================================================================== *)

Module Tree.
Import TreeDefs Run.

Lemma eqc_eq (a b : char) : eqc a b = true <-> a = b.
Proof. apply N.eqb_eq. Qed.

Lemma eqs_eq (a b : jsstring) : eqs a b = true <-> a = b.
Proof.
  revert b. induction a as [|x a IH]; intros [|y b]; simpl;
    try (split; (discriminate || reflexivity)).
  rewrite andb_true_iff, eqc_eq, IH. split.
  - now intros [-> ->].
  - intros E. injection E as -> ->. now split.
Qed.

Lemma eqs_refl (a : jsstring) : eqs a a = true.
Proof. now apply eqs_eq. Qed.

Lemma eqs_sym (a b : jsstring) : eqs a b = eqs b a.
Proof.
  destruct (eqs a b) eqn:E; symmetry.
  - apply eqs_eq in E. subst. apply eqs_refl.
  - apply not_true_iff_false. intros H. apply eqs_eq in H. subst.
    now rewrite eqs_refl in E.
Qed.

Lemma memb_app (k : jsstring) (l1 l2 : list jsstring) :
  memb k (l1 ++ l2) = memb k l1 || memb k l2.
Proof.
  induction l1 as [|x l1 IH]; simpl; [reflexivity|].
  now rewrite IH, orb_assoc.
Qed.

Lemma distinct_app (l1 l2 : list jsstring) :
  distinct (l1 ++ l2) = true ->
  distinct l1 = true /\ distinct l2 = true
  /\ forall k, memb k l1 = true -> memb k l2 = false.
Proof.
  induction l1 as [|x l1 IH]; simpl; intros H.
  - repeat split; [exact H|]. intros k Hk. discriminate.
  - apply andb_true_iff in H. destruct H as [Hx H].
    rewrite memb_app in Hx. apply negb_true_iff, orb_false_iff in Hx.
    destruct Hx as [Hx1 Hx2].
    destruct (IH H) as (H1 & H2 & H3).
    rewrite Hx1, H1. repeat split; [exact H2|].
    intros k Hk. apply orb_true_iff in Hk. destruct Hk as [Hk|Hk].
    + apply eqs_eq in Hk. now subst.
    + now apply H3.
Qed.

Lemma distinct_snoc_fresh (l : list jsstring) (k : jsstring) (rest : list jsstring) :
  distinct (l ++ k :: rest) = true ->
  memb k l = false /\ distinct ((l ++ [k]) ++ rest) = true.
Proof.
  intros H. split.
  - destruct (distinct_app _ _ H) as (_ & _ & H3).
    destruct (memb k l) eqn:E; [|reflexivity].
    specialize (H3 k E). simpl in H3. now rewrite eqs_refl in H3.
  - now rewrite <- app_assoc.
Qed.

Section Assoc.
Context {A : Type}.

Lemma assoc_fresh (k : jsstring) (l : list (jsstring * A)) :
  memb k (map fst l) = false -> assoc k l = None.
Proof.
  induction l as [|[k' x] l IH]; simpl; [reflexivity|].
  intros H. apply orb_false_iff in H. destruct H as [H1 H2].
  rewrite H1. now apply IH.
Qed.

Lemma assoc_snoc (k : jsstring) (x : A) (l : list (jsstring * A)) :
  memb k (map fst l) = false -> assoc k (l ++ [(k, x)]) = Some x.
Proof.
  induction l as [|[k' y] l IH]; simpl; intros H.
  - now rewrite eqs_refl.
  - apply orb_false_iff in H. destruct H as [H1 H2].
    rewrite H1. now apply IH.
Qed.

Lemma upsert_fresh (k : jsstring) (x : A) (l : list (jsstring * A)) :
  memb k (map fst l) = false -> upsert k x l = l ++ [(k, x)].
Proof.
  induction l as [|[k' y] l IH]; simpl; [reflexivity|].
  intros H. apply orb_false_iff in H. destruct H as [H1 H2].
  rewrite H1. f_equal. now apply IH.
Qed.

Lemma upsert_snoc (k : jsstring) (x y : A) (l : list (jsstring * A)) :
  memb k (map fst l) = false ->
  upsert k y (l ++ [(k, x)]) = l ++ [(k, y)].
Proof.
  induction l as [|[k' z] l IH]; simpl; intros H.
  - now rewrite eqs_refl.
  - apply orb_false_iff in H. destruct H as [H1 H2].
    rewrite H1. f_equal. now apply IH.
Qed.
End Assoc.

(** ** Property order does not look at the values *)

Section Natural.
Context {A B : Type}.
Variable g : jsstring -> A -> B.

Lemma insertIndexed_relabel (i : N) (k : jsstring) (x : A)
  (l : list (N * (jsstring * A))) :
  insertIndexed i (k, g k x) (relabelIndexed g l)
  = relabelIndexed g (insertIndexed i (k, x) l).
Proof.
  induction l as [|[j [k' y]] l IH]; simpl; [reflexivity|].
  destruct (i <? j)%N; simpl; [reflexivity|]. now rewrite IH.
Qed.

Lemma indexedProps_relabel (l : list (jsstring * A)) :
  indexedProps (relabel g l) = relabelIndexed g (indexedProps l).
Proof.
  induction l as [|[k x] l IH]; simpl; [reflexivity|].
  destruct (arrayIndex k); [|exact IH].
  fold (relabel g l). rewrite IH. apply insertIndexed_relabel.
Qed.

Lemma namedProps_relabel (l : list (jsstring * A)) :
  namedProps (relabel g l) = relabel g (namedProps l).
Proof.
  induction l as [|[k x] l IH]; simpl; [reflexivity|].
  destruct (arrayIndex k); [exact IH|]. simpl. f_equal. exact IH.
Qed.

Lemma ownPropertyOrder_relabel (l : list (jsstring * A)) :
  ownPropertyOrder (relabel g l) = relabel g (ownPropertyOrder l).
Proof.
  unfold ownPropertyOrder.
  rewrite indexedProps_relabel, namedProps_relabel.
  unfold relabel, relabelIndexed. rewrite map_app, !map_map. reflexivity.
Qed.
End Natural.

Lemma ownPropertyOrder_named {A : Type} (l : list (jsstring * A)) :
  forallb (fun k => match arrayIndex k with Some _ => false | None => true end)
          (map fst l) = true ->
  ownPropertyOrder l = l.
Proof.
  unfold ownPropertyOrder. induction l as [|[k x] l IH]; simpl; [reflexivity|].
  intros H. apply andb_true_iff in H. destruct H as [Hk H].
  destruct (arrayIndex k); [discriminate|].
  specialize (IH H).
  assert (E : indexedProps l = []).
  { destruct (indexedProps l); [reflexivity|].
    apply (f_equal (@length _)) in IH. simpl in IH.
    rewrite length_app, length_map in IH.
    assert (Hlen : length (namedProps l) <= length l).
    { clear. induction l as [|[k' y] l IH]; simpl; [lia|].
      destruct (arrayIndex k'); simpl; lia. }
    exfalso.
    assert (Hn : length (namedProps l) = length l).
    { clear - H. induction l as [|[k' y] l IH]; simpl in *; [reflexivity|].
      apply andb_true_iff in H. destruct H as [Hk H].
      destruct (arrayIndex k'); [discriminate|]. simpl. f_equal. now apply IH. }
    lia. }
  rewrite E in *. simpl in *. now f_equal.
Qed.

(** ** Induction on the tagged tree *)

Lemma node_induction (P : node -> Prop) :
  (forall f, P (FileNode f)) ->
  (forall children,
      Forall (fun entry => P (snd entry)) children ->
      P (DirectoryNode children)) ->
  forall n, P n.
Proof.
  intros Hfile Hdir.
  refine (fix IH (n : node) : P n :=
            match n with
            | FileNode f => Hfile f
            | DirectoryNode children =>
              Hdir children
                ((fix each (l : list (jsstring * node))
                    : Forall (fun entry => P (snd entry)) l :=
                    match l with
                    | [] => Forall_nil _
                    | entry :: l' => Forall_cons entry (IH (snd entry)) (each l')
                    end) children)
            end).
Qed.

Lemma toValue_directory (children : list (jsstring * node)) :
  toValue (DirectoryNode children) = VObject None (toProps children).
Proof. reflexivity. Qed.

Lemma toProps_names (children : list (jsstring * node)) :
  map fst (toProps children) = map fst children.
Proof. unfold toProps, relabel. rewrite map_map. reflexivity. Qed.

Lemma namesOk_directory (allowed : jsstring -> bool)
  (below : list jsstring -> bool) (children : list (jsstring * node)) :
  namesOk allowed below (DirectoryNode children) = true <->
  distinct (map fst children) = true
  /\ forallb allowed (map fst children) = true
  /\ Forall (fun entry => namesOk allowed below (snd entry) = true
                          /\ belowOk below (snd entry) = true) children.
Proof.
  cbn [namesOk]. rewrite !andb_true_iff, Forall_forall.
  split.
  - intros [[H1 H2] H3]. split; [exact H1|]. split; [exact H2|].
    intros x Hx. rewrite forallb_forall in H3. specialize (H3 x Hx).
    now apply andb_true_iff in H3.
  - intros (H1 & H2 & H3). split; [now split|].
    apply forallb_forall. intros x Hx. apply andb_true_iff. now apply H3.
Qed.

Lemma setMember_fresh (props : list (jsstring * value)) (k : jsstring) (v : value) :
  eqs k protoKey = false -> memb k (map fst props) = false ->
  setMember (VObject None props) k v = VObject None (props ++ [(k, v)]).
Proof. intros Hk Hf. unfold setMember. rewrite Hk. now rewrite upsert_fresh. Qed.

Lemma setMember_snoc (props : list (jsstring * value)) (k : jsstring) (x v : value) :
  eqs k protoKey = false -> memb k (map fst props) = false ->
  setMember (VObject None (props ++ [(k, x)])) k v
  = VObject None (props ++ [(k, v)]).
Proof. intros Hk Hf. unfold setMember. rewrite Hk. now rewrite upsert_snoc. Qed.

Lemma getMember_snoc (props : list (jsstring * value)) (k : jsstring) (x : value) :
  eqs k protoKey = false -> memb k (map fst props) = false ->
  getMember (VObject None (props ++ [(k, x)])) k = x.
Proof.
  intros Hk Hf. unfold getMember. rewrite Hk. cbn [lookup].
  now rewrite assoc_snoc.
Qed.

Section StructurePass.
Variable cwd : jsstring.
Variable ig : jsstring -> bool.
Variable allowed : jsstring -> bool.
Variable below : list jsstring -> bool.
Hypothesis allowed_not_proto : forall k, allowed k = true -> eqs k protoKey = false.

Local Abbreviation appendable := (TreeDefs.appendable allowed below).

Lemma appendable_nil (props0 : list (jsstring * value)) (kept : list (jsstring * node)) :
  appendable props0 ([] ++ kept) -> appendable props0 kept.
Proof. exact (fun H => H). Qed.

Lemma appendable_cons (props0 : list (jsstring * value)) (k : jsstring)
  (n : node) (kept : list (jsstring * node)) (v : value) :
  appendable props0 ([(k, n)] ++ kept) ->
  eqs k protoKey = false
  /\ memb k (map fst props0) = false
  /\ namesOk allowed below n = true
  /\ appendable (props0 ++ [(k, v)]) kept.
Proof.
  intros (Hd & Ha & Hs). cbn [app map fst] in *.
  apply distinct_snoc_fresh in Hd. destruct Hd as [Hfresh Hd].
  apply andb_true_iff in Ha. destruct Ha as [Hk Ha].
  inversion Hs as [|? ? [Hn _] Hs']; subst. cbn [snd] in Hn.
  repeat split; try assumption; [now apply allowed_not_proto|].
  now rewrite map_app.
Qed.

Lemma structureEntry_kept
  (self : fsnode -> jsstring -> value -> jsstring -> M value)
  (kself : fsnode -> jsstring -> jsstring -> list (jsstring * node))
  (dir parent : jsstring) (entry : jsstring * fsnode) :
  (forall d p eff eff' tree,
      namesOk allowed below (DirectoryNode (kself (snd entry) d p)) = true ->
      self (snd entry) d emptyObject p eff = (eff', Ok tree) ->
      tree = toValue (DirectoryNode (kself (snd entry) d p))) ->
  forall props0 rest eff eff' fs',
    appendable props0 (keptEntry cwd ig kself dir parent entry ++ rest) ->
    structureEntry cwd ig self dir parent entry (VObject None props0) eff
    = (eff', Ok fs') ->
    fs' = VObject None (props0 ++ toProps (keptEntry cwd ig kself dir parent entry))
    /\ appendable (props0 ++ toProps (keptEntry cwd ig kself dir parent entry)) rest.
Proof.
  destruct entry as [item child]. cbn [snd].
  intros Hself props0 rest eff eff' fs' Hok Hrun.
  unfold structureEntry in Hrun. unfold keptEntry in *.
  destruct (ig (path_relative cwd (path_join dir item))).
  { injection Hrun as _ <-. cbn [toProps relabel map]. rewrite app_nil_r.
    split; [reflexivity|exact Hok]. }
  unfold bind at 1 in Hrun.
  destruct child as [[[sz t]|e] raw utf8|[[sz t]|e] unreadable sub];
    cbn [statSync ret throw isDirectory] in Hrun; try discriminate Hrun.
  - (* a file *)
    destruct (shouldProcessFile item).
    2: { injection Hrun as _ <-. destruct raw; cbn [andb toProps relabel map];
         rewrite app_nil_r; (split; [reflexivity|exact Hok]). }
    unfold bind at 1 in Hrun. unfold readFileSyncRaw, lift in Hrun.
    destruct raw as [buffer|e]; [|discriminate Hrun].
    destruct (isBinaryFile buffer).
    { unfold bind at 1 in Hrun. cbn [print ret] in Hrun.
      injection Hrun as _ <-. cbn [andb negb toProps relabel map].
      rewrite app_nil_r. split; [reflexivity|exact Hok]. }
    cbn [andb negb] in *.
    eapply appendable_cons in Hok. destruct Hok as (Hproto & Hfresh & _ & Hok).
    rewrite (setMember_fresh _ _ _ Hproto Hfresh) in Hrun.
    injection Hrun as _ <-. split; [reflexivity|exact Hok].
  - (* a directory *)
    eapply appendable_cons in Hok. destruct Hok as (Hproto & Hfresh & Hnames & Hok).
    unfold bind at 1 in Hrun.
    rewrite (setMember_fresh _ _ _ Hproto Hfresh) in Hrun.
    rewrite (getMember_snoc _ _ _ Hproto Hfresh) in Hrun.
    specialize (Hself (path_join dir item) (path_join parent item) eff).
    destruct (self (Dir (Ok (sz, t)) unreadable sub)
                (path_join dir item) emptyObject (path_join parent item) eff)
      as [eff1 [filled|e]]; [|discriminate Hrun].
    specialize (Hself eff1 filled Hnames eq_refl). subst filled.
    rewrite (setMember_snoc _ _ _ _ Hproto Hfresh) in Hrun.
    injection Hrun as _ <-. split; [reflexivity|exact Hok].
Qed.

Lemma structureLoop_kept
  (self : fsnode -> jsstring -> value -> jsstring -> M value)
  (kself : fsnode -> jsstring -> jsstring -> list (jsstring * node))
  (dir parent : jsstring) (items : list (jsstring * fsnode)) :
  Forall (fun entry =>
            forall d p eff eff' tree,
              namesOk allowed below (DirectoryNode (kself (snd entry) d p)) = true ->
              self (snd entry) d emptyObject p eff = (eff', Ok tree) ->
              tree = toValue (DirectoryNode (kself (snd entry) d p))) items ->
  forall props0 eff eff' tree,
    appendable props0 (flat_map (keptEntry cwd ig kself dir parent) items) ->
    forEach (structureEntry cwd ig self dir parent) items (VObject None props0) eff
    = (eff', Ok tree) ->
    tree = VObject None
             (props0 ++ toProps (flat_map (keptEntry cwd ig kself dir parent) items)).
Proof.
  induction items as [|entry rest IH]; intros Hself props0 eff eff' tree Hok Hrun.
  - injection Hrun as _ <-. cbn. now rewrite app_nil_r.
  - inversion Hself as [|? ? Hentry Hrest]; subst.
    rewrite forEach_cons in Hrun. cbn [flat_map] in *.
    destruct (structureEntry cwd ig self dir parent entry (VObject None props0) eff)
      as [eff1 [fs1|e]] eqn:Estep; [|discriminate Hrun].
    destruct (structureEntry_kept self kself dir parent entry Hentry
                props0 _ eff eff1 fs1 Hok Estep) as [-> Hok'].
    rewrite (IH Hrest _ _ _ _ Hok' Hrun).
    unfold toProps, relabel. now rewrite map_app, app_assoc.
Qed.

(** The structure pass builds the object of the kept tree. *)
Lemma getDirectoryStructure_kept (n : fsnode) :
  forall dir parent eff eff' tree,
    namesOk allowed below (DirectoryNode (keptChildren cwd ig n dir parent)) = true ->
    getDirectoryStructure cwd ig n dir emptyObject parent eff = (eff', Ok tree) ->
    tree = toValue (DirectoryNode (keptChildren cwd ig n dir parent)).
Proof.
  induction n as [st raw utf8|st unreadable items IH] using fsnode_induction;
    intros dir parent eff eff' tree Hok Hrun; [discriminate Hrun|].
  destruct unreadable as [e|]; [discriminate Hrun|].
  cbn [getDirectoryStructure] in Hrun. cbn [keptChildren] in *.
  apply namesOk_directory in Hok.
  apply (structureLoop_kept _ _ dir parent items IH [] eff eff' tree Hok Hrun).
Qed.
End StructurePass.

Section ContentPass.
Variable cwd : jsstring.
Variable ig : jsstring -> bool.
Variables rw rc : bool.

Lemma filesOfChildren_app (l1 l2 : list (jsstring * node)) :
  filesOfChildren insertionOrder (l1 ++ l2)
  = filesOfChildren insertionOrder l1 ++ filesOfChildren insertionOrder l2.
Proof.
  unfold filesOfChildren, insertionOrder, relabel. cbn [filesOf].
  unfold relabel. now rewrite !map_app, concat_app.
Qed.

Lemma blocksOf_app (l1 l2 : list keptFile) :
  blocksOf rw rc (l1 ++ l2) = blocksOf rw rc l1 ++ blocksOf rw rc l2.
Proof. unfold blocksOf. now rewrite map_app, concat_app. Qed.

Lemma filesOfChildren_single (k : jsstring) (n : node) :
  filesOfChildren insertionOrder [(k, n)] = filesOf insertionOrder n.
Proof.
  unfold filesOfChildren, insertionOrder. cbn [filesOf relabel map snd fst concat].
  apply app_nil_r.
Qed.

Lemma contentEntry_kept
  (self : fsnode -> jsstring -> jsstring -> bool -> bool -> M jsstring)
  (kself : fsnode -> jsstring -> jsstring -> list (jsstring * node))
  (dir parent : jsstring) (entry : jsstring * fsnode) :
  (forall d p eff eff' text,
      self (snd entry) d p rw rc eff = (eff', Ok text) ->
      text = blocksOf rw rc (filesOfChildren insertionOrder (kself (snd entry) d p))) ->
  forall allText eff eff' text,
    contentEntry cwd ig self dir parent rw rc entry allText eff = (eff', Ok text) ->
    text = allText
           ++ blocksOf rw rc
                (filesOfChildren insertionOrder
                   (keptEntry cwd ig kself dir parent entry)).
Proof.
  destruct entry as [item child]. cbn [snd].
  intros Hself allText eff eff' text Hrun.
  unfold contentEntry in Hrun. unfold keptEntry.
  destruct (ig (path_relative cwd (path_join dir item))).
  { injection Hrun as _ <-. now rewrite app_nil_r. }
  unfold bind at 1 in Hrun.
  destruct child as [[[sz t]|e] raw utf8|[[sz t]|e] unreadable sub];
    cbn [statSync ret throw isDirectory] in Hrun; try discriminate Hrun.
  - destruct (shouldProcessFile item).
    2: { injection Hrun as _ <-. destruct raw; now rewrite app_nil_r. }
    unfold bind at 1 in Hrun. unfold readFileSyncRaw, lift in Hrun.
    destruct raw as [buffer|e]; [|discriminate Hrun].
    destruct (isBinaryFile buffer).
    { unfold bind at 1 in Hrun. cbn [print ret] in Hrun.
      injection Hrun as _ <-. now rewrite app_nil_r. }
    unfold bind at 1 in Hrun. unfold readFileSyncUtf8, lift in Hrun.
    destruct utf8 as [fileContent|e]; [|discriminate Hrun].
    injection Hrun as _ <-. cbn [andb negb].
    rewrite filesOfChildren_single. cbn [filesOf].
    unfold blocksOf, blockOf. cbn [map concat kfText kfName kfRelativePath].
    now rewrite app_nil_r.
  - unfold bind at 1 in Hrun.
    specialize (Hself (path_join dir item) (path_join parent item) eff).
    destruct (self (Dir (Ok (sz, t)) unreadable sub)
                (path_join dir item) (path_join parent item) rw rc eff)
      as [eff1 [sub'|e]]; [|discriminate Hrun].
    specialize (Hself eff1 sub' eq_refl). subst sub'.
    injection Hrun as _ <-.
    now rewrite filesOfChildren_single.
Qed.

Lemma contentLoop_kept
  (self : fsnode -> jsstring -> jsstring -> bool -> bool -> M jsstring)
  (kself : fsnode -> jsstring -> jsstring -> list (jsstring * node))
  (dir parent : jsstring) (items : list (jsstring * fsnode)) :
  Forall (fun entry =>
            forall d p eff eff' text,
              self (snd entry) d p rw rc eff = (eff', Ok text) ->
              text = blocksOf rw rc
                       (filesOfChildren insertionOrder (kself (snd entry) d p)))
         items ->
  forall allText eff eff' text,
    forEach (contentEntry cwd ig self dir parent rw rc) items allText eff
    = (eff', Ok text) ->
    text = allText
           ++ blocksOf rw rc
                (filesOfChildren insertionOrder
                   (flat_map (keptEntry cwd ig kself dir parent) items)).
Proof.
  induction items as [|entry rest IH]; intros Hself allText eff eff' text Hrun.
  - injection Hrun as _ <-. now rewrite app_nil_r.
  - inversion Hself as [|? ? Hentry Hrest]; subst.
    rewrite forEach_cons in Hrun. cbn [flat_map].
    destruct (contentEntry cwd ig self dir parent rw rc entry allText eff)
      as [eff1 [text1|e]] eqn:Estep; [|discriminate Hrun].
    rewrite (contentEntry_kept self kself dir parent entry Hentry _ _ _ _ Estep)
      in Hrun.
    rewrite (IH Hrest _ _ _ _ Hrun).
    now rewrite filesOfChildren_app, blocksOf_app, app_assoc.
Qed.

(** The content pass returns the blocks of the kept files, in the order
    of the listings. *)
Lemma readAllFiles_kept (n : fsnode) :
  forall dir parent eff eff' text,
    readAllFiles cwd ig n dir parent rw rc eff = (eff', Ok text) ->
    text = blocksOf rw rc
             (filesOfChildren insertionOrder (keptChildren cwd ig n dir parent)).
Proof.
  induction n as [st raw utf8|st unreadable items IH] using fsnode_induction;
    intros dir parent eff eff' text Hrun; [discriminate Hrun|].
  destruct unreadable as [e|]; [discriminate Hrun|].
  cbn [readAllFiles] in Hrun. cbn [keptChildren].
  apply (contentLoop_kept _ _ dir parent items IH [] eff eff' text Hrun).
Qed.
End ContentPass.

(** ** The file entries of the built object *)

Lemma relabel_relabel {A B C : Type} (g : jsstring -> B -> C)
  (h : jsstring -> A -> B) (l : list (jsstring * A)) :
  relabel g (relabel h l) = relabel (fun k x => g k (h k x)) l.
Proof. unfold relabel. rewrite map_map. reflexivity. Qed.

Lemma relabel_ext {A B : Type} (g h : jsstring -> A -> B) (l : list (jsstring * A)) :
  Forall (fun entry => g (fst entry) (snd entry) = h (fst entry) (snd entry)) l ->
  relabel g l = relabel h l.
Proof.
  unfold relabel. induction 1 as [|entry l E _ IH]; cbn [map]; [reflexivity|].
  now rewrite E, IH.
Qed.

Lemma relabel_names {A B : Type} (g : jsstring -> A -> B) (l : list (jsstring * A)) :
  map fst (relabel g l) = map fst l.
Proof. unfold relabel. rewrite map_map. reflexivity. Qed.

Lemma concat_relabel_map {A B : Type} (f : A -> B) (l : list (jsstring * list A)) :
  concat (map snd (relabel (fun _ x => map f x) l))
  = map f (concat (map snd l)).
Proof.
  unfold relabel. induction l as [|[k x] l IH]; cbn [map concat fst snd];
    [reflexivity|].
  now rewrite IH, map_app.
Qed.

Lemma entryPath_toValue (n : node) :
  entryPath (toValue n)
  = match n with
    | FileNode f => Some (kfRelativePath f)
    | DirectoryNode _ => None
    end.
Proof.
  destruct n as [f|children]; [reflexivity|].
  cbn [toValue entryPath].
  induction children as [|[k child] l IH]; [reflexivity|].
  cbn [relabel map fst snd assoc] in *.
  destruct (eqs (lit "relativePath") k); [|exact IH].
  now destruct child.
Qed.

(** The file entries of the object of a tree, as [for ... in] meets them,
    are the kept files of the tree in property order. *)
Lemma entriesInOrder_toValue (n : node) :
  forall children, n = DirectoryNode children ->
  entriesInOrder (toValue n)
  = map kfRelativePath (filesOf propertyOrder n).
Proof.
  induction n as [f|l IH] using node_induction; intros children E;
    [discriminate E|]. clear E children.
  cbn [toValue entriesInOrder filesOf]. unfold propertyOrder at 1.
  rewrite relabel_relabel.
  rewrite <- concat_relabel_map. rewrite <- ownPropertyOrder_relabel.
  rewrite relabel_relabel. do 3 f_equal.
  apply relabel_ext. eapply Forall_impl; [|exact IH].
  intros [k child] Hchild. cbn [fst snd] in *.
  rewrite entryPath_toValue. destruct child as [f|sub]; [reflexivity|].
  now apply (Hchild sub).
Qed.

Lemma filesOf_plain_names (below : list jsstring -> bool) (n : node) :
  namesOk plainName below n = true ->
  filesOf propertyOrder n = filesOf insertionOrder n.
Proof.
  induction n as [f|l IH] using node_induction; intros Hok; [reflexivity|].
  apply namesOk_directory in Hok. destruct Hok as (_ & Ha & Hs).
  cbn [filesOf]. unfold propertyOrder at 1, insertionOrder at 1.
  rewrite ownPropertyOrder_named.
  - do 2 f_equal. apply relabel_ext.
    rewrite Forall_forall in *. intros entry Hentry.
    apply (IH entry Hentry). now apply (Hs entry Hentry).
  - rewrite relabel_names. rewrite forallb_forall in *.
    intros k Hk. specialize (Ha k Hk). unfold plainName in Ha.
    now apply andb_true_iff in Ha.
Qed.

(** ** Property order rearranges, it neither drops nor repeats *)

Lemma insertIndexed_permutation {A : Type} (i : N) (e : jsstring * A)
  (l : list (N * (jsstring * A))) :
  Permutation (map snd (insertIndexed i e l)) (e :: map snd l).
Proof.
  induction l as [|[j e'] l IH]; cbn [insertIndexed map snd]; [reflexivity|].
  destruct (i <? j)%N; cbn [map snd]; [reflexivity|].
  rewrite IH. apply perm_swap.
Qed.

Lemma ownPropertyOrder_permutation {A : Type} (l : list (jsstring * A)) :
  Permutation (ownPropertyOrder l) l.
Proof.
  unfold ownPropertyOrder.
  induction l as [|[k x] l IH]; cbn [indexedProps namedProps]; [reflexivity|].
  destruct (arrayIndex k) as [i|].
  - rewrite insertIndexed_permutation. cbn [app]. now apply perm_skip.
  - rewrite <- Permutation_middle. now apply perm_skip.
Qed.

Lemma concat_permutation {A : Type} (l1 l2 : list (list A)) :
  Permutation l1 l2 -> Permutation (concat l1) (concat l2).
Proof.
  induction 1 as [|x l l' _ IH|x y l|l l' l'' _ IH1 _ IH2]; cbn [concat].
  - reflexivity.
  - now apply Permutation_app_head.
  - rewrite !app_assoc. apply Permutation_app_tail, Permutation_app_comm.
  - now rewrite IH1.
Qed.

Lemma concat_relabel_permutation {A B : Type} (g h : jsstring -> A -> list B)
  (l : list (jsstring * A)) :
  Forall (fun entry => Permutation (g (fst entry) (snd entry))
                                   (h (fst entry) (snd entry))) l ->
  Permutation (concat (map snd (relabel g l))) (concat (map snd (relabel h l))).
Proof.
  induction 1 as [|entry l Hentry _ IH]; cbn [relabel map snd concat];
    [reflexivity|].
  now apply Permutation_app.
Qed.

(** The files met in property order are the files met in insertion
    order, each as often. *)
Lemma filesOf_permutation (n : node) :
  Permutation (filesOf propertyOrder n) (filesOf insertionOrder n).
Proof.
  induction n as [f|l IH] using node_induction; [reflexivity|].
  cbn [filesOf]. unfold propertyOrder at 1, insertionOrder at 1.
  rewrite (concat_permutation _ _
             (Permutation_map snd (ownPropertyOrder_permutation _))).
  now apply concat_relabel_permutation.
Qed.

(** ** The formatter on the built object *)

Lemma appendAll_ok (l : list (jsstring * jsstring)) :
  forall structureText,
    appendAll (relabel (fun _ part => Ok part) l) structureText
    = Ok (structureText ++ concat (map snd l)).
Proof.
  induction l as [|[k part] l IH]; intros structureText; cbn.
  - now rewrite app_nil_r.
  - fold (relabel (fun (_ : jsstring) (part : jsstring) => Ok part) l).
    rewrite IH. now rewrite <- app_assoc.
Qed.

Lemma map_let_relabel {A B : Type} (g : jsstring -> A -> B) (l : list (jsstring * A)) :
  map (fun entry : jsstring * A => let (k, x) := entry in (k, g k x)) l
  = relabel g l.
Proof. unfold relabel. apply map_ext. now intros [k x]. Qed.

Lemma memb_forallb (k : jsstring) (names : list jsstring) (p : jsstring -> bool) :
  forallb p names = true -> (forall x, p x = true -> eqs x k = false) ->
  memb k names = false.
Proof.
  intros H Hp. induction names as [|x names IH]; [reflexivity|].
  cbn in *. apply andb_true_iff in H. destruct H as [Hx H].
  rewrite eqs_sym, (Hp x Hx). now apply IH.
Qed.

Lemma formattableName_hasOwnProperty (x : jsstring) :
  formattableName x = true -> eqs x (lit "hasOwnProperty") = false.
Proof.
  unfold formattableName. intros H. apply andb_true_iff in H.
  destruct H as [_ H]. now apply negb_true_iff in H.
Qed.

Lemma formattableName_proto (x : jsstring) :
  formattableName x = true -> eqs x protoKey = false.
Proof.
  unfold formattableName. intros H. apply andb_true_iff in H.
  destruct H as [H _]. now apply negb_true_iff in H.
Qed.

Lemma plainName_proto (x : jsstring) :
  plainName x = true -> eqs x protoKey = false.
Proof.
  unfold plainName. intros H. apply andb_true_iff in H.
  destruct H as [H _]. now apply negb_true_iff in H.
Qed.

Lemma looksLikeFile_directory (sub : list (jsstring * node)) :
  noRelativePath (map fst sub) = true ->
  looksLikeFile (toValue (DirectoryNode sub)) = false.
Proof.
  intros H. unfold noRelativePath in H. apply negb_true_iff in H.
  unfold looksLikeFile. cbn [toValue typeofObject lookup andb].
  rewrite assoc_fresh; [reflexivity|]. now rewrite relabel_names.
Qed.

(** The formatter on the object of a tree lists the children of each
    directory in property order. *)
Lemma formatStructure_toValue (n : node) :
  forall children indent,
    n = DirectoryNode children ->
    namesOk formattableName noRelativePath n = true ->
    formatStructure (toValue n) indent
    = Ok (renderChildren propertyOrder children indent).
Proof.
  induction n as [f|l IH] using node_induction; intros children indent E Hok;
    [discriminate E|]. injection E as <-.
  apply namesOk_directory in Hok. destruct Hok as (_ & Ha & Hs).
  cbn [toValue formatStructure lookup].
  rewrite assoc_fresh.
  2: { rewrite relabel_names.
       apply (memb_forallb _ _ _ Ha formattableName_hasOwnProperty). }
  rewrite map_let_relabel, relabel_relabel.
  rewrite (relabel_ext _ (fun k child => Ok (render propertyOrder indent k child))).
  - rewrite <- (relabel_relabel (fun _ part => Ok part)
                  (render propertyOrder indent)).
    rewrite ownPropertyOrder_relabel, appendAll_ok. reflexivity.
  - rewrite Forall_forall in *. intros [k child] Hentry.
    specialize (IH _ Hentry). specialize (Hs _ Hentry).
    cbn [fst snd] in *. destruct Hs as [Hnames Hbelow].
    destruct child as [f|sub].
    + reflexivity.
    + cbn [belowOk] in Hbelow.
      rewrite (looksLikeFile_directory _ Hbelow).
      rewrite (IH sub (indent + 2) eq_refl Hnames). reflexivity.
Qed.

Section TwoPasses.
Variable cwd : jsstring.
Variable ig : jsstring -> bool.

Lemma structurePass_kept (allowed : jsstring -> bool)
  (below : list jsstring -> bool) (root : fsnode) (fileStructure : value) :
  (forall k, allowed k = true -> eqs k protoKey = false) ->
  namesOk allowed below (DirectoryNode (keptChildren cwd ig root cwd [])) = true ->
  structurePass cwd ig root = Ok fileStructure ->
  fileStructure = toValue (DirectoryNode (keptChildren cwd ig root cwd [])).
Proof.
  intros Hallowed Hok Hrun. unfold structurePass in Hrun.
  destruct (getDirectoryStructure cwd ig root cwd emptyObject [] noEffects)
    as [eff' result] eqn:E. cbn [snd] in Hrun. subst result.
  exact (getDirectoryStructure_kept cwd ig allowed below Hallowed root
           _ _ _ _ _ Hok E).
Qed.

Lemma contentPass_kept (root : fsnode) (rw rc : bool) (filesText : jsstring) :
  contentPass cwd ig root rw rc = Ok filesText ->
  filesText
  = blocksOf rw rc (filesOfChildren insertionOrder (keptChildren cwd ig root cwd [])).
Proof.
  intros Hrun. unfold contentPass in Hrun.
  destruct (readAllFiles cwd ig root cwd [] rw rc noEffects)
    as [eff' result] eqn:E. cbn [snd] in Hrun. subst result.
  exact (readAllFiles_kept cwd ig rw rc root _ _ _ _ _ E).
Qed.

(** C1, as the code has it.  When the kept names of each directory are
    distinct and none of them is [__proto__], the two passes keep the
    same files: the text of the content pass is the sequence of the
    blocks of the kept files in the order of the directory listings; the
    file entries of the structure are these same files, each once, so a
    file has an entry exactly when it has a block.  The entries come in
    the order in which the properties of the objects are enumerated, in
    each directory the array-index names first, in ascending numeric
    order, and then the other names in the order of the listing; when no
    kept name is an array index this is the order of the blocks. *)
Theorem structure_and_content_agree (root : fsnode) (rw rc : bool)
  (fileStructure : value) (filesText : jsstring) :
  namesOk ordinaryName (fun _ => true)
    (DirectoryNode (keptChildren cwd ig root cwd [])) = true ->
  structurePass cwd ig root = Ok fileStructure ->
  contentPass cwd ig root rw rc = Ok filesText ->
  let tree := DirectoryNode (keptChildren cwd ig root cwd []) in
  let files := filesOf insertionOrder tree in
  filesText = blocksOf rw rc files
  /\ entriesInOrder fileStructure
     = map kfRelativePath (filesOf propertyOrder tree)
  /\ Permutation (filesOf propertyOrder tree) files
  /\ (forall path,
        In path (entriesInOrder fileStructure)
        <-> In path (map kfRelativePath files))
  /\ (namesOk plainName (fun _ => true) tree = true ->
      entriesInOrder fileStructure = map kfRelativePath files).
Proof.
  intros Hok Hstructure Hcontent tree files.
  assert (Hproto : forall k, ordinaryName k = true -> eqs k protoKey = false).
  { intros k Hk. now apply negb_true_iff in Hk. }
  assert (Hentries : entriesInOrder fileStructure
                     = map kfRelativePath (filesOf propertyOrder tree)).
  { rewrite (structurePass_kept _ _ _ _ Hproto Hok Hstructure).
    exact (entriesInOrder_toValue _ _ eq_refl). }
  pose proof (filesOf_permutation tree) as Hperm.
  split; [exact (contentPass_kept _ _ _ _ Hcontent)|].
  split; [exact Hentries|]. split; [exact Hperm|]. split.
  - intros path. rewrite Hentries.
    pose proof (Permutation_map kfRelativePath Hperm) as Hpaths.
    split; intros Hin.
    + exact (Permutation_in _ Hpaths Hin).
    + exact (Permutation_in _ (Permutation_sym Hpaths) Hin).
  - intros Hplain. rewrite Hentries.
    now rewrite (filesOf_plain_names _ _ Hplain).
Qed.

(** C8, as the code has it.  When the kept names of each directory are
    distinct, none of them is [__proto__] or [hasOwnProperty], and no
    directory below the root has an entry named [relativePath], the
    formatter renders a file as one line with its name, path, size and
    modification time, and a directory as its name and a slash followed
    by its children two columns further in, visiting the children of each
    directory in property order: array-index names in ascending numeric
    order, then the other names in insertion order. *)
Theorem formatStructure_renders_kept_tree (root : fsnode) (fileStructure : value) :
  namesOk formattableName noRelativePath
    (DirectoryNode (keptChildren cwd ig root cwd [])) = true ->
  structurePass cwd ig root = Ok fileStructure ->
  formatStructure fileStructure 0
  = Ok (renderChildren propertyOrder (keptChildren cwd ig root cwd []) 0)
  /\ (forall indent name f,
        render propertyOrder indent name (FileNode f)
        = repeat 32%N indent ++ name ++ lit " (Path: " ++ kfRelativePath f
          ++ lit ", Size: " ++ string_of_N (size (kfStats f))
          ++ lit " bytes, Last Modified: " ++ mtime (kfStats f)
          ++ lit ")" ++ nl)
  /\ (forall indent name children,
        render propertyOrder indent name (DirectoryNode children)
        = repeat 32%N indent ++ name ++ lit "/" ++ nl
          ++ renderChildren propertyOrder children (indent + 2))
  /\ (forall children indent,
        renderChildren propertyOrder children indent
        = concat (map (fun entry => render propertyOrder indent (fst entry) (snd entry))
                      (ownPropertyOrder children))).
Proof.
  intros Hok Hstructure.
  split; [|split; [reflexivity|split; [reflexivity|]]].
  - rewrite (structurePass_kept _ _ _ _ formattableName_proto Hok Hstructure).
    now apply formatStructure_toValue.
  - intros children indent. unfold renderChildren, propertyOrder.
    rewrite ownPropertyOrder_relabel. unfold relabel. now rewrite map_map.
Qed.
End TwoPasses.

Lemma structure_and_content_agree_witness :
  namesOk ordinaryName (fun _ => true)
    (DirectoryNode (keptChildren workDir ignoresNothing specExample workDir [])) = true
  /\ match structurePass workDir ignoresNothing specExample,
           contentPass workDir ignoresNothing specExample false false with
     | Ok fileStructure, Ok filesText =>
       entriesInOrder fileStructure = [lit "a.txt"; lit "sub/b.txt"]
       /\ filesText
          = fileBlock (lit "a.txt") (lit "a.txt") (lit "hello")
            ++ fileBlock (lit "b.txt") (lit "sub/b.txt") (lit "world")
     | _, _ => False
     end.
Proof.
  split; [reflexivity|].
  destruct (structurePass workDir ignoresNothing specExample)
    as [fileStructure|e] eqn:E1; [|discriminate E1].
  destruct (contentPass workDir ignoresNothing specExample false false)
    as [filesText|e] eqn:E2; [|discriminate E2].
  destruct (structure_and_content_agree workDir ignoresNothing specExample
              false false fileStructure filesText eq_refl E1 E2)
    as (H1 & H2 & _).
  split; [exact H2|exact H1].
Defined.

(** C1, as stated, at a directory that lists a file named [b] before a
    file named [1]: the content pass emits the block of [b] first, but
    the object built by the structure pass has the property [1] first,
    because an array-index key precedes every other key. *)
Lemma digit_name_breaks_agreement :
  contentPass workDir ignoresNothing letterThenDigit false false
  = Ok (fileBlock (lit "b") (lit "b") (lit "hi")
        ++ fileBlock (lit "1") (lit "1") (lit "yo"))
  /\ match structurePass workDir ignoresNothing letterThenDigit with
     | Ok fileStructure => entriesInOrder fileStructure = [lit "1"; lit "b"]
     | Throw _ => False
     end
  /\ ~ passesAgree workDir ignoresNothing letterThenDigit.
Proof.
  split; [reflexivity|]. split; [reflexivity|].
  intros H.
  destruct (structurePass workDir ignoresNothing letterThenDigit)
    as [fileStructure|e] eqn:E1; [|discriminate E1].
  destruct (contentPass workDir ignoresNothing letterThenDigit false false)
    as [filesText|e] eqn:E2; [|discriminate E2].
  destruct (H fileStructure filesText E1 E2) as [_ Hentries].
  vm_compute in E1. injection E1 as <-.
  vm_compute in Hentries. discriminate Hentries.
Qed.

(** Why the name [__proto__] is set apart: at a directory of that name
    which holds one file, the content pass emits the block of the file,
    but the structure pass has made the object of the directory the
    prototype of the structure, which so has no property and no file
    entry at all. *)
Lemma proto_name_hides_files :
  contentPass workDir ignoresNothing protoDirectory false false
  = Ok (fileBlock (lit "a.txt") (lit "__proto__/a.txt") (lit "hi"))
  /\ match structurePass workDir ignoresNothing protoDirectory with
     | Ok fileStructure => entriesInOrder fileStructure = []
     | Throw _ => False
     end.
Proof. split; reflexivity. Qed.

Lemma formatStructure_renders_kept_tree_witness :
  namesOk formattableName noRelativePath
    (DirectoryNode (keptChildren workDir ignoresNothing specExample workDir [])) = true
  /\ match structurePass workDir ignoresNothing specExample with
     | Ok fileStructure =>
       formatStructure fileStructure 0
       = Ok (lit "a.txt (Path: a.txt, Size: 5 bytes, Last Modified: Mon Nov 02 2026)"
             ++ nl ++ lit "sub/" ++ nl
             ++ lit "  b.txt (Path: sub/b.txt, Size: 5 bytes, Last Modified: Mon Nov 02 2026)"
             ++ nl)
     | Throw _ => False
     end.
Proof.
  split; [reflexivity|].
  destruct (structurePass workDir ignoresNothing specExample)
    as [fileStructure|e] eqn:E1; [|discriminate E1].
  destruct (formatStructure_renders_kept_tree workDir ignoresNothing specExample
              fileStructure eq_refl E1) as (H & _).
  rewrite H. reflexivity.
Defined.

(** C8, as stated, at the same directory: the formatter lists [1] before
    [b], not in the order in which the entries were inserted. *)
Lemma digit_name_listed_first :
  match structurePass workDir ignoresNothing letterThenDigit with
  | Ok fileStructure =>
    formatStructure fileStructure 0
    = Ok (lit "1 (Path: 1, Size: 2 bytes, Last Modified: Mon Nov 02 2026)" ++ nl
          ++ lit "b (Path: b, Size: 2 bytes, Last Modified: Mon Nov 02 2026)" ++ nl)
  | Throw _ => False
  end
  /\ ~ formatsInInsertionOrder workDir ignoresNothing letterThenDigit.
Proof.
  split; [reflexivity|].
  intros H.
  destruct (structurePass workDir ignoresNothing letterThenDigit)
    as [fileStructure|e] eqn:E1; [|discriminate E1].
  specialize (H fileStructure E1).
  vm_compute in E1. injection E1 as <-.
  vm_compute in H. discriminate H.
Qed.

End Tree.

(* ====================================================================== *)
(** * The restoring pass undoes the protecting passes *)
(* ====================================================================== *)

Module Restore.
Import TextDefs ReplaceFacts Collapsed.

Lemma strip_prefix_app (p s r : jsstring) :
  strip_prefix p s = Some r <-> s = p ++ r.
Proof.
  revert s. induction p as [|x p IH]; intros s; simpl.
  - split; [now intros [= ->]|now intros ->].
  - destruct s as [|y s]; [split; discriminate|].
    destruct (eqc x y) eqn:E.
    + apply N.eqb_eq in E. subst y. rewrite IH. split.
      * now intros ->.
      * now intros [= ->].
    + split; [discriminate|]. intros [= -> _].
      unfold eqc in E. now rewrite N.eqb_refl in E.
Qed.

Lemma span_app_stop (p : char -> bool) (ds rest : jsstring) :
  Forall (fun c => p c = true) ds ->
  match rest with [] => True | c :: _ => p c = false end ->
  span p (ds ++ rest) = length ds.
Proof.
  induction 1 as [|c ds Hc _ IH]; intros Hrest; simpl.
  - destruct rest as [|c rest]; simpl; [reflexivity|]. now rewrite Hrest.
  - rewrite Hc. f_equal. now apply IH.
Qed.

Lemma span_split (p : char -> bool) (s : jsstring) :
  s = firstn (span p s) s ++ skipn (span p s) s
  /\ Forall (fun c => p c = true) (firstn (span p s) s).
Proof.
  split; [now rewrite firstn_skipn|].
  apply Forall_forall. apply span_firstn.
Qed.

(** The shape of a match of the restoring pattern. *)
Lemma placeholderPattern_shape (s : jsstring) (n : nat) (g : list jsstring) :
  placeholderPattern s = Some (n, g) <->
  exists ds rest,
    s = placeholderPrefix ++ ds ++ lit "__" ++ rest
    /\ ds <> []
    /\ Forall (fun c => isDigit c = true) ds
    /\ n = length placeholderPrefix + length ds + 2
    /\ g = [ds].
Proof.
  unfold placeholderPattern. split.
  - destruct (strip_prefix placeholderPrefix s) as [s1|] eqn:E1; [|discriminate].
    apply strip_prefix_app in E1.
    destruct (span isDigit s1) as [|k] eqn:Ek; [discriminate|].
    destruct (strip_prefix (lit "__") (skipn (S k) s1)) as [r2|] eqn:E2;
      [|discriminate].
    apply strip_prefix_app in E2. intros [= <- <-].
    destruct (span_split isDigit s1) as [Hs1 Hd]. rewrite Ek in Hs1, Hd.
    exists (firstn (S k) s1), r2. repeat split.
    + rewrite E1. f_equal. rewrite <- E2. exact Hs1.
    + destruct s1; [discriminate Ek|discriminate].
    + exact Hd.
    + rewrite length_firstn. pose proof (span_le isDigit s1).
      change (length placeholderPrefix) with 13. lia.
  - intros (ds & rest & -> & Hne & Hd & -> & ->).
    assert (E1 : strip_prefix placeholderPrefix
                   (placeholderPrefix ++ ds ++ lit "__" ++ rest)
                 = Some (ds ++ lit "__" ++ rest)) by now apply strip_prefix_app.
    rewrite E1.
    rewrite (span_app_stop isDigit ds (lit "__" ++ rest) Hd eq_refl).
    assert (Hsk : forall k, length ds = k ->
                  skipn k (ds ++ lit "__" ++ rest) = lit "__" ++ rest).
    { intros k <-. now rewrite skipn_app, skipn_all, Nat.sub_diag. }
    destruct (length ds) as [|k] eqn:El.
    { destruct ds; [contradiction|discriminate El]. }
    rewrite (Hsk (S k) eq_refl).
    assert (E2 : strip_prefix (lit "__") (lit "__" ++ rest) = Some rest)
      by now apply strip_prefix_app.
    rewrite E2, <- El.
    now rewrite firstn_app, firstn_all, Nat.sub_diag, app_nil_r.
Qed.

Lemma placeholderPattern_starts (s : jsstring) (n : nat) (g : list jsstring) :
  placeholderPattern s = Some (n, g) -> startsLikePlaceholder s = true.
Proof.
  intros H. apply placeholderPattern_shape in H.
  destruct H as (ds & rest & -> & Hne & Hd & _).
  unfold startsLikePlaceholder.
  assert (E : strip_prefix placeholderPrefix
                (placeholderPrefix ++ ds ++ lit "__" ++ rest)
              = Some (ds ++ lit "__" ++ rest)) by now apply strip_prefix_app.
  rewrite E. destruct ds as [|d ds]; [contradiction|].
  now inversion Hd.
Qed.

Lemma placeholderPattern_length (s : jsstring) (n : nat) (g : list jsstring) :
  placeholderPattern s = Some (n, g) ->
  16 <= n <= length s /\ exists n', n = S n'.
Proof.
  intros H. apply placeholderPattern_shape in H.
  destruct H as (ds & rest & -> & Hne & Hd & -> & _).
  destruct ds as [|d ds]; [contradiction|].
  rewrite !length_app. cbn [length placeholderPrefix lit map list_ascii_of_string].
  split; [lia|]. eexists. reflexivity.
Qed.

(** A match is decided by the code units it covers. *)
Lemma placeholderPattern_prefix (s : jsstring) (n : nat) (g : list jsstring)
  (rest' : jsstring) :
  placeholderPattern s = Some (n, g) ->
  placeholderPattern (firstn n s ++ rest') = Some (n, g).
Proof.
  intros H. apply placeholderPattern_shape in H.
  destruct H as (ds & rest & -> & Hne & Hd & -> & ->).
  apply placeholderPattern_shape. exists ds, rest'.
  repeat split; try assumption.
  replace (placeholderPrefix ++ ds ++ lit "__" ++ rest)
    with ((placeholderPrefix ++ ds ++ lit "__") ++ rest)
    by now rewrite <- !app_assoc.
  rewrite firstn_app.
  replace (length placeholderPrefix + length ds + 2)
    with (length (placeholderPrefix ++ ds ++ lit "__"))
    by (rewrite !length_app; reflexivity).
  rewrite firstn_all, Nat.sub_diag. cbn [firstn].
  now rewrite app_nil_r, <- !app_assoc.
Qed.

Lemma digit_inAlphabet (c : char) :
  isDigit c = true -> inPlaceholderAlphabet c = true.
Proof.
  intros H. unfold inPlaceholderAlphabet. rewrite H.
  now rewrite orb_true_r.
Qed.

(** A match consists of code units of the placeholder alphabet. *)
Lemma placeholderPattern_alphabet (s : jsstring) (n : nat) (g : list jsstring) :
  placeholderPattern s = Some (n, g) ->
  Forall (fun c => inPlaceholderAlphabet c = true) (firstn n s).
Proof.
  intros H. pose proof (placeholderPattern_prefix s n g [] H) as H'.
  apply placeholderPattern_shape in H'.
  destruct H' as (ds & rest & E & Hne & Hd & Hn & _).
  assert (Hrest : rest = []).
  { apply (f_equal (@length _)) in E.
    rewrite !length_app, length_firstn in E.
    destruct (placeholderPattern_length _ _ _ H) as [[_ Hle] _].
    rewrite Nat.min_l in E by exact Hle. cbn [length] in E.
    destruct rest; [reflexivity|]. cbn [length lit map list_ascii_of_string] in *. lia. }
  subst rest. rewrite app_nil_r in E. rewrite E.
  apply Forall_app. split; [repeat constructor|].
  apply Forall_app. split; [|repeat constructor].
  eapply Forall_impl; [|exact Hd]. apply digit_inAlphabet.
Qed.

(** ** Decimal numerals *)

Lemma number_of_digits_uint (u : Decimal.uint) :
  forall acc,
    fold_left (fun acc c => (10 * acc + (c - 48))%N) (digits_of_uint u) acc
    = (DecimalPos.Unsigned.of_lu (Decimal.rev u)
       + acc * 10 ^ DecimalPos.Unsigned.usize u)%N.
Proof.
  induction u; intros acc; cbn [digits_of_uint fold_left DecimalPos.Unsigned.usize];
    [cbn; lia|..];
    rewrite IHu; unfold Decimal.rev at 2; cbn [Decimal.revapp];
    rewrite DecimalPos.Unsigned.of_lu_revapp;
    cbn [DecimalPos.Unsigned.of_lu]; rewrite N.pow_succ_r';
    simpl (_ - 48)%N; ring.
Qed.

Lemma number_of_digits_string_of_N (n : N) :
  number_of_digits (string_of_N n) = n.
Proof.
  unfold number_of_digits, string_of_N.
  pose proof (DecimalN.Unsigned.of_to n) as H.
  assert (E : fold_left (fun acc c => (10 * acc + (c - 48))%N)
                (digits_of_uint (N.to_uint n)) 0%N = n).
  { rewrite number_of_digits_uint.
    rewrite <- DecimalPos.Unsigned.of_uint_alt.
    change (Pos.of_uint (N.to_uint n)) with (N.of_uint (N.to_uint n)).
    rewrite H. lia. }
  destruct (N.to_uint n) eqn:Eu; exact E.
Qed.

Lemma string_of_nat_nonempty (i : nat) : string_of_nat i <> [].
Proof.
  unfold string_of_nat, string_of_N.
  destruct (N.to_uint (N.of_nat i)); discriminate.
Qed.

(** The restoring pattern matches a placeholder exactly, and the
    replacer reads the item of its number. *)
Lemma placeholderPattern_placeholder (i : nat) (rest : jsstring) :
  placeholderPattern (placeholder i ++ rest)
  = Some (length (placeholder i), [string_of_nat i]).
Proof.
  apply placeholderPattern_shape. exists (string_of_nat i), rest.
  unfold placeholder. repeat split.
  - now rewrite <- !app_assoc.
  - apply string_of_nat_nonempty.
  - apply string_of_nat_digits.
  - rewrite !length_app. reflexivity.
Qed.

Lemma restoreItem_placeholder (items : list jsstring) (m : jsstring) (i : nat) :
  restoreItem items m [string_of_nat i] = nth i items (lit "undefined").
Proof.
  unfold restoreItem, string_of_nat.
  now rewrite number_of_digits_string_of_N, Nat2N.id.
Qed.

(** ** Where a text can begin like a placeholder *)

Lemma strip_prefix_firstn (p s : jsstring) (n : nat) :
  length p <= n ->
  strip_prefix p (firstn n s)
  = option_map (firstn (n - length p)) (strip_prefix p s).
Proof.
  revert s n. induction p as [|x p IH]; intros s n Hn; simpl.
  - now rewrite Nat.sub_0_r.
  - destruct n as [|n]; [simpl in Hn; lia|].
    destruct s as [|y s]; simpl; [reflexivity|].
    destruct (eqc x y); [|reflexivity]. apply IH. simpl in Hn. lia.
Qed.

Lemma startsLikePlaceholder_firstn (s : jsstring) :
  startsLikePlaceholder (firstn 14 s) = startsLikePlaceholder s.
Proof.
  unfold startsLikePlaceholder.
  rewrite strip_prefix_firstn by (cbn; lia).
  destruct (strip_prefix placeholderPrefix s) as [[|c r]|]; reflexivity.
Qed.

Lemma startsLikePlaceholder_long (p a b : jsstring) :
  14 <= length p ->
  startsLikePlaceholder (p ++ a) = startsLikePlaceholder (p ++ b).
Proof.
  intros H.
  rewrite <- (startsLikePlaceholder_firstn (p ++ a)).
  rewrite <- (startsLikePlaceholder_firstn (p ++ b)).
  rewrite !firstn_app.
  replace (14 - length p) with 0 by lia. reflexivity.
Qed.

(** A placeholder put after one to thirteen code units does not make
    the text begin like a placeholder: the prefix [__PRESERVED__]
    overlaps itself only in its underscores, and after those a
    placeholder goes on with an underscore or a letter, not a digit. *)
Lemma startsLikePlaceholder_short (v rest : jsstring) :
  1 <= length v <= 13 ->
  startsLikePlaceholder (v ++ placeholderPrefix ++ rest) = false.
Proof.
  intros [H1 H2].
  let rec go n :=
    match n with
    | O => idtac
    | S ?k => destruct v as [|? v]; [|go k]
    end in go 14.
  all: try (cbn in H1, H2; lia).
  all: unfold startsLikePlaceholder; cbn.
  all: repeat match goal with
       | |- context [if ?b then _ else _] => destruct b; try reflexivity
       end.
Qed.

Lemma startsLikePlaceholder_before_placeholder (p : jsstring) (i : nat)
  (a b : jsstring) :
  p <> [] ->
  startsLikePlaceholder (p ++ placeholder i ++ a) = true ->
  startsLikePlaceholder (p ++ b) = true.
Proof.
  intros Hp H. destruct (Nat.le_gt_cases 14 (length p)) as [Hlong|Hshort].
  - now rewrite (startsLikePlaceholder_long p b (placeholder i ++ a)).
  - exfalso. unfold placeholder in H. rewrite <- !app_assoc in H.
    rewrite startsLikePlaceholder_short in H; [discriminate|].
    destruct p; [contradiction|]. cbn [length] in *. lia.
Qed.

(** ** More on the scan *)

Section Scan.
Context {St : Type}.
Variable re : matcher.
Variable cb : St -> jsstring -> list jsstring -> St * jsstring.

Lemma replace_st_copy_prefix (m rest : jsstring) (st : St) :
  (forall i, i < length m ->
     forall len g, re (skipn i (m ++ rest)) <> Some (S len, g)) ->
  replace_st re cb st (m ++ rest)
  = let (st', t) := replace_st re cb st rest in (st', m ++ t).
Proof.
  induction m as [|c m IH]; intros H.
  - cbn [app]. now destruct (replace_st re cb st rest).
  - cbn [app]. rewrite replace_st_copy.
    + rewrite IH.
      * now destruct (replace_st re cb st rest).
      * intros i Hi. apply (H (S i)). cbn [length]. lia.
    + apply (H 0). cbn [length]. lia.
Qed.
End Scan.

Lemma replace_copy_prefix (re : matcher)
  (r : jsstring -> list jsstring -> jsstring) (m rest : jsstring) :
  (forall i, i < length m ->
     forall len g, re (skipn i (m ++ rest)) <> Some (S len, g)) ->
  replace re r (m ++ rest) = m ++ replace re r rest.
Proof.
  intros H. unfold replace. rewrite replace_st_copy_prefix by exact H.
  now destruct (replace_st re _ tt rest).
Qed.

(** The protecting scan only adds to the preserved items. *)
Lemma preserve_extends (re : matcher) (s : jsstring) :
  forall k st, exists ms,
    fst (replace_from re preserve k st s) = st ++ ms.
Proof.
  induction s as [|c s IH]; intros k st; cbn [replace_from].
  - exists []. now rewrite app_nil_r.
  - destruct k as [|k]; [|apply IH].
    destruct (re (c :: s)) as [[[|len] g]|].
    + destruct (IH 0 st) as [ms E].
      destruct (replace_from re preserve 0 st s). now exists ms.
    + cbn [preserve].
      destruct (IH len (st ++ [firstn (S len) (c :: s)])) as [ms E].
      destruct (replace_from re preserve len _ s).
      cbn [fst] in *. exists (firstn (S len) (c :: s) :: ms).
      rewrite E. now rewrite <- app_assoc.
    + destruct (IH 0 st) as [ms E].
      destruct (replace_from re preserve 0 st s). now exists ms.
Qed.

Lemma restore_copy (items : list jsstring) (c : char) (s : jsstring) :
  placeholderPattern (c :: s) = None ->
  restore items (c :: s) = c :: restore items s.
Proof.
  intros H. unfold restore. apply replace_copy. intros len g. now rewrite H.
Qed.

Lemma restore_match (items : list jsstring) (s : jsstring) (n : nat)
  (g : list jsstring) :
  placeholderPattern s = Some (S n, g) ->
  restore items s
  = restoreItem items [] g ++ restore items (skipn (S n) s).
Proof.
  intros H. destruct s as [|c s]; [discriminate H|].
  unfold restore. now rewrite (replace_match _ _ _ _ _ _ H).
Qed.

Lemma restore_placeholder (items : list jsstring) (i : nat) (rest : jsstring) :
  restore items (placeholder i ++ rest)
  = nth i items (lit "undefined") ++ restore items rest.
Proof.
  pose proof (placeholderPattern_placeholder i rest) as H.
  destruct (placeholderPattern_length _ _ _ H) as [_ [n En]].
  rewrite En in H. rewrite (restore_match _ _ _ _ H), <- En.
  rewrite restoreItem_placeholder.
  now rewrite skipn_app, skipn_all, Nat.sub_diag.
Qed.

(** ** Alignment *)

Lemma aligned_after_match (s : jsstring) (n : nat) (g : list jsstring) :
  placeholderPattern s = Some (n, g) -> aligned s -> aligned (skipn n s).
Proof.
  intros H Ha. inversion Ha as [E|c s' Hstart Hs' E|s' n' g' H' Hs' E]; subst.
  - discriminate H.
  - apply placeholderPattern_starts in H. congruence.
  - rewrite H in H'. injection H' as -> _. exact Hs'.
Qed.

Lemma aligned_after_copies (k : nat) :
  forall s,
    (forall i, i < k -> placeholderPattern (skipn i s) = None) ->
    aligned s -> aligned (skipn k s).
Proof.
  induction k as [|k IH]; intros s H Ha; [exact Ha|].
  destruct s as [|c s]; [exact Ha|].
  cbn [skipn]. apply IH.
  - intros i Hi. apply (H (S i)). lia.
  - inversion Ha as [|c' s' Hstart Hs'|s' n' g' H' Hs']; subst; [exact Hs'|].
    assert (H0 := H 0 ltac:(lia)). cbn [skipn] in H0.
    rewrite H0 in H'. discriminate H'.
Qed.

Lemma occursIn_head (p s : jsstring) :
  occursIn p s = false ->
  strip_prefix p s = None
  /\ match s with [] => True | _ :: s' => occursIn p s' = false end.
Proof.
  destruct s as [|c s]; cbn [occursIn];
    destruct (strip_prefix p _); intros H; try discriminate H; now split.
Qed.

Lemma occursIn_skipn (p s : jsstring) (i : nat) :
  occursIn p s = false -> occursIn p (skipn i s) = false.
Proof.
  revert s. induction i as [|i IH]; intros s H; [exact H|].
  destruct s as [|c s]; [exact H|]. cbn [skipn]. apply IH.
  now destruct (occursIn_head _ _ H).
Qed.

Lemma noPlaceholderText_starts (s : jsstring) :
  occursIn placeholderPrefix s = false -> startsLikePlaceholder s = false.
Proof.
  intros H. unfold startsLikePlaceholder.
  now rewrite (proj1 (occursIn_head _ _ H)).
Qed.

Lemma noPlaceholderText_aligned (s : jsstring) :
  occursIn placeholderPrefix s = false -> aligned s.
Proof.
  induction s as [|c s IH]; intros H; [constructor|].
  apply aligned_copy.
  - now apply noPlaceholderText_starts.
  - apply IH. now destruct (occursIn_head _ _ H).
Qed.

Lemma noPlaceholderText_restore (items : list jsstring) (s : jsstring) :
  occursIn placeholderPrefix s = false -> restore items s = s.
Proof.
  induction s as [|c s IH]; intros H; [reflexivity|].
  rewrite restore_copy.
  - f_equal. apply IH. now destruct (occursIn_head _ _ H).
  - destruct (placeholderPattern (c :: s)) as [[n g]|] eqn:E; [|reflexivity].
    apply placeholderPattern_starts in E.
    now rewrite (noPlaceholderText_starts _ H) in E.
Qed.

(** If the result of a protecting scan, put after [p], begins like a
    placeholder, then so did the scanned text put after [p]. *)
Lemma starts_after_scan (re : matcher) (s : jsstring) :
  forall st p,
    p <> [] ->
    startsLikePlaceholder (p ++ snd (replace_st re preserve st s)) = true ->
    startsLikePlaceholder (p ++ s) = true.
Proof.
  induction s as [|c s IH]; intros st p Hp H; [exact H|].
  destruct (re (c :: s)) as [[[|len] g]|] eqn:Er.
  - rewrite replace_st_copy in H by (intros len g'; rewrite Er; discriminate).
    specialize (IH st (p ++ [c])).
    destruct (replace_st re preserve st s) as [st' t']. cbn [snd] in *.
    rewrite <- !app_assoc in IH. cbn [app] in IH. apply IH; [|exact H].
    now destruct p.
  - rewrite (replace_st_match _ _ _ _ _ _ _ Er) in H. cbn [preserve] in H.
    destruct (replace_st re preserve _ (skipn len s)) as [st2 out].
    cbn [snd] in H.
    now apply (startsLikePlaceholder_before_placeholder p _ out _ Hp H).
  - rewrite replace_st_copy in H by (intros len g'; rewrite Er; discriminate).
    specialize (IH st (p ++ [c])).
    destruct (replace_st re preserve st s) as [st' t']. cbn [snd] in *.
    rewrite <- !app_assoc in IH. cbn [app] in IH. apply IH; [|exact H].
    now destruct p.
Qed.

(** ** What a protecting pattern matches *)

Lemma skipn_app_le (m rest : jsstring) (i : nat) :
  i <= length m -> skipn i (m ++ rest) = skipn i m ++ rest.
Proof.
  intros H. rewrite skipn_app. replace (i - length m) with 0 by lia.
  reflexivity.
Qed.

Lemma skipn_app_all (m rest : jsstring) : skipn (length m) (m ++ rest) = rest.
Proof. now rewrite skipn_app, skipn_all, Nat.sub_diag. Qed.

Lemma skipn_head_in (m rest : jsstring) :
  forall i, i < length m ->
    exists c tl, skipn i (m ++ rest) = c :: tl /\ In c m.
Proof.
  induction m as [|x m IH]; intros i H; [cbn in H; lia|].
  destruct i as [|i].
  - exists x, (m ++ rest). split; [reflexivity|now left].
  - cbn [length] in H. destruct (IH i ltac:(lia)) as (c & tl & E & Hin).
    exists c, tl. split; [exact E|now right].
Qed.

Lemma delimited_head (re : matcher) :
  delimited re ->
  forall c s len g,
    inPlaceholderAlphabet c = true -> re (c :: s) <> Some (S len, g).
Proof.
  intros Hre c s len g Hc H.
  destruct (Hre _ _ _ H) as (d & pre & e & E & Hd & _).
  cbn [firstn] in E. injection E as -> _. congruence.
Qed.

(** A protecting pattern does not match inside a placeholder. *)
Lemma delimited_skips_alphabet (re : matcher) (m rest : jsstring) :
  delimited re ->
  Forall (fun c => inPlaceholderAlphabet c = true) m ->
  forall i, i < length m ->
    forall len g, re (skipn i (m ++ rest)) <> Some (S len, g).
Proof.
  intros Hre Hm i Hi len g.
  destruct (skipn_head_in m rest i Hi) as (c & tl & -> & Hin).
  apply delimited_head; [exact Hre|].
  rewrite Forall_forall in Hm. now apply Hm.
Qed.

(** The restoring pattern does not match inside a preserved literal that
    holds no [__PRESERVED__] and ends outside the alphabet. *)
Lemma no_placeholder_in_literal (m rest pre : jsstring) (e : char) :
  m = pre ++ [e] ->
  inPlaceholderAlphabet e = false ->
  occursIn placeholderPrefix m = false ->
  forall i, i < length m -> placeholderPattern (skipn i (m ++ rest)) = None.
Proof.
  intros Em He Hm i Hi.
  rewrite skipn_app_le by lia.
  destruct (placeholderPattern (skipn i m ++ rest)) as [[n g]|] eqn:E;
    [exfalso|reflexivity].
  pose proof (placeholderPattern_alphabet _ _ _ E) as Ha.
  destruct (placeholderPattern_length _ _ _ E) as [[Hn _] _].
  pose proof (occursIn_skipn _ _ i Hm) as Hocc.
  assert (Hin : In e (skipn i m)).
  { rewrite Em. rewrite Em, length_app in Hi. cbn [length] in Hi.
    rewrite skipn_app_le by lia. apply in_or_app. right. now left. }
  remember (skipn i m) as a eqn:Ea.
  destruct (Nat.le_gt_cases (length a) n) as [Hle|Hgt].
  - rewrite firstn_app in Ha. apply Forall_app in Ha as [Ha _].
    rewrite firstn_all2 in Ha by lia.
    rewrite Forall_forall in Ha. rewrite (Ha e Hin) in He. discriminate He.
  - apply placeholderPattern_shape in E. destruct E as (ds & rest2 & E & _).
    assert (Hs : strip_prefix placeholderPrefix a = Some (skipn 13 a)).
    { apply strip_prefix_app.
      rewrite <- (firstn_skipn 13 a) at 1. f_equal.
      assert (Hf : firstn 13 (a ++ rest) = firstn 13 a).
      { rewrite firstn_app. replace (13 - length a) with 0 by lia.
        cbn [firstn]. apply app_nil_r. }
      rewrite <- Hf, E. reflexivity. }
    destruct (occursIn_head _ _ Hocc) as [Hs' _]. congruence.
Qed.

Lemma aligned_copy_inv (c : char) (s : jsstring) :
  placeholderPattern (c :: s) = None ->
  aligned (c :: s) ->
  startsLikePlaceholder (c :: s) = false /\ aligned s.
Proof.
  intros Hp Ha.
  inversion Ha as [|c0 s0 Hstart Hs' E0|s0 n0 g0 H0 _]; [now split|congruence].
Qed.

Lemma preserve_eq (st : list jsstring) (m : jsstring) (g : list jsstring) :
  preserve st m g = (st ++ [m], placeholder (length st)).
Proof.
  unfold preserve. cbv zeta. do 2 f_equal.
  rewrite length_app. cbn [length]. lia.
Qed.

Lemma preserve_extends_st (re : matcher) (s : jsstring) (st : list jsstring) :
  exists ms, fst (replace_st re preserve st s) = st ++ ms.
Proof. apply preserve_extends. Qed.

(** ** One protecting pass is undone by the restoring pass *)

Lemma protecting_pass_restored (re : matcher) (items : list jsstring) :
  delimited re ->
  Forall (fun m => occursIn placeholderPrefix m = false) items ->
  forall s st st' t,
    replace_st re preserve st s = (st', t) ->
    aligned s ->
    (exists more, items = st' ++ more) ->
    restore items t = restore items s /\ aligned t.
Proof.
  intros Hre Hplain s. induction s as [s IH] using suffix_induction.
  intros st st' t Hscan Hal [more Hitems].
  destruct s as [|c s'].
  { rewrite replace_st_nil in Hscan. injection Hscan as <- <-. now split. }
  destruct (placeholderPattern (c :: s')) as [[n g]|] eqn:Ep.
  - (* a placeholder that the text holds already is copied *)
    destruct (placeholderPattern_length _ _ _ Ep) as [[Hn Hns] [n' ->]].
    pose proof (aligned_after_match _ _ _ Ep Hal) as Hrest.
    pose proof (placeholderPattern_alphabet _ _ _ Ep) as Hm.
    pose proof (fun t2 => placeholderPattern_prefix _ _ _ t2 Ep) as Ep2.
    rewrite (restore_match _ _ _ _ Ep).
    remember (c :: s') as s eqn:Es.
    remember (firstn (S n') s) as m eqn:Em.
    remember (skipn (S n') s) as rest eqn:Erest.
    assert (Hs : s = m ++ rest) by (subst m rest; symmetry; apply firstn_skipn).
    assert (Hlm : length m = S n') by (subst m; rewrite length_firstn; lia).
    rewrite Hs in Hscan.
    rewrite replace_st_copy_prefix in Hscan
      by (apply delimited_skips_alphabet; assumption).
    destruct (replace_st re preserve st rest) as [st2 t2] eqn:E2.
    injection Hscan as <- <-.
    destruct (IH rest) with (st := st) (st' := st2) (t := t2) as [IHr IHa];
      [subst rest; rewrite length_skipn; lia|exact E2|exact Hrest|now exists more|].
    split.
    + rewrite (restore_match _ _ _ _ (Ep2 t2)).
      rewrite <- Hlm, skipn_app_all. now f_equal.
    + apply (aligned_match _ _ _ (Ep2 t2)).
      now rewrite <- Hlm, skipn_app_all.
  - destruct (aligned_copy_inv _ _ Ep Hal) as [Hstart Hs'].
    assert (Hcopy : (forall len g, re (c :: s') <> Some (S len, g)) ->
                    restore items t = restore items (c :: s') /\ aligned t).
    { intros Hno. rewrite replace_st_copy in Hscan by exact Hno.
      destruct (replace_st re preserve st s') as [st1 t1] eqn:E1.
      injection Hscan as <- <-.
      destruct (IH s') with (st := st) (st' := st1) (t := t1) as [IHr IHa];
        [cbn [length]; lia|exact E1|exact Hs'|now exists more|].
      assert (Hst : startsLikePlaceholder (c :: t1) = false).
      { destruct (startsLikePlaceholder (c :: t1)) eqn:Ec; [|reflexivity].
        pose proof (starts_after_scan re s' st [c] ltac:(discriminate)) as Hq.
        rewrite E1 in Hq. cbn [snd app] in Hq.
        rewrite (Hq Ec) in Hstart. discriminate Hstart. }
      assert (Hp : placeholderPattern (c :: t1) = None).
      { destruct (placeholderPattern (c :: t1)) as [[n g]|] eqn:E;
          [|reflexivity].
        apply placeholderPattern_starts in E. congruence. }
      split.
      - rewrite (restore_copy _ _ _ Hp), (restore_copy _ _ _ Ep).
        now f_equal.
      - now apply aligned_copy. }
    destruct (re (c :: s')) as [[[|len] gr]|] eqn:Er;
      [apply Hcopy; discriminate| |apply Hcopy; discriminate].
    clear Hcopy.
    (* a literal is replaced by the placeholder of its index *)
    rewrite (replace_st_match _ _ _ _ _ _ _ Er) in Hscan.
    rewrite preserve_eq in Hscan.
    remember (firstn (S len) (c :: s')) as m eqn:Em.
    remember (skipn len s') as rest eqn:Erest.
    match type of Hscan with
    | context [replace_st re preserve ?a rest] =>
      destruct (replace_st re preserve a rest) as [st2 out] eqn:E2
    end.
    apply pair_equal_spec in Hscan as [<- <-].
    match type of E2 with
    | replace_st _ _ ?a _ = _ =>
      destruct (preserve_extends_st re rest a) as [ms Hms]
    end.
    rewrite E2 in Hms. cbn [fst] in Hms.
    assert (Hnth : nth (length st) items (lit "undefined") = m).
    { rewrite Hitems, Hms, <- !app_assoc. rewrite app_nth2 by lia.
      now rewrite Nat.sub_diag. }
    assert (Hin : In m items).
    { rewrite Hitems, Hms, <- !app_assoc. apply in_or_app. right. now left. }
    pose proof (proj1 (Forall_forall _ _) Hplain m Hin) as Hm.
    cbn beta in Hm.
    destruct (Hre _ _ _ Er) as (d & pre & e & Ed & Hd & He).
    rewrite <- Em in Ed.
    assert (Hs : c :: s' = m ++ rest).
    { subst m rest. symmetry. apply (firstn_skipn (S len) (c :: s')). }
    assert (Hnone : forall i, i < length m ->
              placeholderPattern (skipn i (m ++ rest)) = None).
    { apply (no_placeholder_in_literal m rest (d :: pre) e); assumption. }
    assert (Harest : aligned rest).
    { rewrite <- (skipn_app_all m rest).
      apply aligned_after_copies; [exact Hnone|now rewrite <- Hs]. }
    destruct (IH rest) with (st := st ++ [m]) (st' := st2) (t := out)
      as [IHr IHa];
      [subst rest; cbn [length]; rewrite length_skipn; lia|exact E2
      |exact Harest|now exists more|].
    split.
    + rewrite restore_placeholder, Hnth, Hs. unfold restore at 2.
      rewrite replace_copy_prefix
        by (intros i Hi len' g'; rewrite (Hnone i Hi); discriminate).
      f_equal. exact IHr.
    + pose proof (placeholderPattern_placeholder (length st) out) as Hp.
      destruct (placeholderPattern_length _ _ _ Hp) as [_ [n En]].
      rewrite En in Hp. apply (aligned_match _ _ _ Hp).
      now rewrite <- En, skipn_app_all.
Qed.

(** ** The two protecting patterns are delimited *)

Lemma quote_outside_alphabet (q : char) :
  isQuote q = true -> inPlaceholderAlphabet q = false.
Proof.
  unfold isQuote. rewrite !orb_true_iff, !N.eqb_eq.
  intros [[->| ->]| ->]; reflexivity.
Qed.

Lemma flag_outside_alphabet (c : char) :
  isRegexFlag c = true -> inPlaceholderAlphabet c = false.
Proof.
  unfold isRegexFlag. rewrite !orb_true_iff, !N.eqb_eq.
  intros [[[[[->| ->]| ->]| ->]| ->]| ->]; reflexivity.
Qed.

Lemma stringBody_last (q : char) :
  forall s n, stringBody q s = Some n -> exists pre, firstn n s = pre ++ [q].
Proof.
  intros s. induction s as [s IH] using suffix_induction. intros n H.
  destruct s as [|c s']; [discriminate H|]. cbn [stringBody] in H.
  destruct (eqc c q) eqn:Ec.
  - injection H as <-. exists []. apply N.eqb_eq in Ec. now subst.
  - destruct (eqc c backslash).
    + destruct s' as [|e s'']; [discriminate H|].
      destruct (isLineTerminator e); [discriminate H|].
      destruct (stringBody q s'') as [k|] eqn:Ek; [|discriminate H].
      injection H as <-.
      destruct (IH s'' ltac:(cbn [length]; lia) k Ek) as [pre Hpre].
      exists (c :: e :: pre). cbn [firstn]. now rewrite Hpre.
    + destruct (isLineTerminator c); [discriminate H|].
      destruct (stringBody q s') as [k|] eqn:Ek; [|discriminate H].
      injection H as <-.
      destruct (IH s' ltac:(cbn [length]; lia) k Ek) as [pre Hpre].
      exists (c :: pre). cbn [firstn]. now rewrite Hpre.
Qed.

Lemma stringPattern_delimited : delimited stringPattern.
Proof.
  intros s n g H. destruct s as [|q s']; [discriminate H|].
  cbn [stringPattern] in H. destruct (isQuote q) eqn:Eq; [|discriminate H].
  destruct (stringBody q s') as [k|] eqn:Ek; [|discriminate H].
  injection H as <- _.
  destruct (stringBody_last _ _ _ Ek) as [pre Hpre].
  exists q, pre, q. cbn [firstn]. rewrite Hpre.
  repeat split; now apply quote_outside_alphabet.
Qed.

Lemma regexPattern_delimited : delimited regexPattern.
Proof.
  intros s n g H. destruct s as [|c s']; [discriminate H|].
  cbn [regexPattern] in H. destruct (eqc c slash) eqn:Ec; [|discriminate H].
  apply N.eqb_eq in Ec. subst c.
  destruct s' as [|d0 s'']; [discriminate H|].
  destruct (eqc d0 star); [discriminate H|].
  remember (d0 :: s'') as s' eqn:Es'. clear Es' d0 s''.
  pose proof (span_le isRegexBodyChar s') as Hle.
  destruct (span isRegexBodyChar s') as [|k] eqn:Ek; [discriminate H|].
  destruct (skipn (S k) s') as [|e tail] eqn:Esk; [discriminate H|].
  destruct (eqc e slash) eqn:Ee; [|discriminate H].
  apply N.eqb_eq in Ee. subst e.
  injection H as Hn _.
  assert (En : n = S k + S (span isRegexFlag tail)) by lia. clear Hn.
  assert (Ef : firstn n s'
               = firstn (S k) s' ++ slash :: firstn (span isRegexFlag tail) tail).
  { rewrite <- (firstn_skipn (S k) s') at 1.
    rewrite firstn_app, firstn_firstn, length_firstn, Esk.
    replace (Nat.min n (S k)) with (S k) by lia.
    replace (n - Nat.min (S k) (length s')) with (S (span isRegexFlag tail))
      by lia.
    reflexivity. }
  cbn [firstn]. rewrite Ef.
  pose proof (span_firstn isRegexFlag tail) as Hflags.
  destruct (firstn (span isRegexFlag tail) tail) as [|x l] eqn:El.
  - exists slash, (firstn (S k) s'), slash. now repeat split.
  - destruct (@exists_last _ (x :: l) ltac:(discriminate)) as (l' & z & Ez).
    exists slash, (firstn (S k) s' ++ slash :: l'), z.
    rewrite Ez, <- app_assoc. repeat split.
    apply flag_outside_alphabet, Hflags. rewrite Ez.
    apply in_or_app. right. now left.
Qed.

(** ** Texts that [removeComments] leaves as they are *)

Lemma removeComments_fixes_plain_text (x : jsstring) :
  noPlaceholderText x -> commentFree x -> literalsPlain x ->
  removeComments x = x.
Proof.
  intros Hx [Hs Hm] Hlit.
  rewrite removeComments_unfold, Hs, Hm.
  unfold literalsPlain in Hlit. unfold protect in *.
  destruct (replace_st stringPattern preserve [] x) as [items1 t1] eqn:E1.
  destruct (replace_st regexPattern preserve items1 t1) as [items t] eqn:E2.
  cbn [fst snd] in *.
  assert (Hplain : Forall (fun m => occursIn placeholderPrefix m = false) items).
  { apply Forall_forall. intros m Hin.
    rewrite forallb_forall in Hlit. apply Hlit in Hin.
    now apply negb_true_iff in Hin. }
  destruct (preserve_extends_st regexPattern t1 items1) as [ms Hms].
  rewrite E2 in Hms. cbn [fst] in Hms.
  destruct (protecting_pass_restored stringPattern items
              stringPattern_delimited Hplain x [] items1 t1 E1)
    as [R1 A1]; [now apply noPlaceholderText_aligned|now exists ms|].
  destruct (protecting_pass_restored regexPattern items
              regexPattern_delimited Hplain t1 items1 items t E2 A1)
    as [R2 _]; [exists []; now rewrite app_nil_r|].
  rewrite R2, R1. now apply noPlaceholderText_restore.
Qed.

End Restore.


(* ====================================================================== *)
(** * A second application of [removeComments] *)
(* ====================================================================== *)

Module SecondRun.
Import TextDefs PieceDefs ReplaceFacts Collapsed Restore.

(** ** Pieces *)

Lemma sources_cons (p : piece) (ps : list piece) :
  sources (p :: ps) = source p ++ sources ps.
Proof. reflexivity. Qed.

Lemma maskeds_cons (p : piece) (ps : list piece) :
  maskeds (p :: ps) = masked p ++ maskeds ps.
Proof. reflexivity. Qed.

Lemma sources_app (ps qs : list piece) :
  sources (ps ++ qs) = sources ps ++ sources qs.
Proof. apply flat_map_app. Qed.

Lemma maskeds_app (ps qs : list piece) :
  maskeds (ps ++ qs) = maskeds ps ++ maskeds qs.
Proof. apply flat_map_app. Qed.

Lemma sources_chars (s : jsstring) : sources (map Chr s) = s.
Proof.
  induction s as [|c s IH]; [reflexivity|].
  cbn [map]. rewrite sources_cons, IH. reflexivity.
Qed.

Lemma maskeds_chars (s : jsstring) : maskeds (map Chr s) = s.
Proof.
  induction s as [|c s IH]; [reflexivity|].
  cbn [map]. rewrite maskeds_cons, IH. reflexivity.
Qed.

Lemma literals_app (ps qs : list piece) :
  literals (ps ++ qs) = literals ps ++ literals qs.
Proof.
  induction ps as [|[c|k m] ps IH]; cbn [app literals]; [reflexivity|exact IH|].
  now rewrite IH.
Qed.

Lemma literals_chars (s : jsstring) : literals (map Chr s) = [].
Proof. induction s as [|c s IH]; [reflexivity|exact IH]. Qed.

(** The pieces of a scan give its result. *)
Lemma scanned_scan (re : matcher) (ps : list piece) :
  forall st,
    scanned re ps ->
    numbered (length st) ps ->
    replace_st re preserve st (sources ps) = (st ++ literals ps, maskeds ps).
Proof.
  induction ps as [|[c|k m] ps IH]; intros st Hs Hn.
  - cbn. now rewrite app_nil_r.
  - destruct Hs as [Hc Hs]. rewrite sources_cons, maskeds_cons.
    cbn [source masked app literals].
    rewrite replace_st_copy by exact Hc.
    now rewrite (IH st Hs Hn).
  - destruct Hs as [(len & g & Hm & Hlen) Hs]. destruct Hn as [-> Hn].
    rewrite sources_cons, maskeds_cons. cbn [source masked literals].
    destruct m as [|c m']; [discriminate Hlen|].
    cbn [length] in Hlen. injection Hlen as Hlen.
    change ((c :: m') ++ sources ps) with (c :: m' ++ sources ps) in *.
    rewrite (replace_st_match re preserve st c (m' ++ sources ps) len g Hm).
    assert (Hf : firstn (S len) (c :: m' ++ sources ps) = c :: m').
    { cbn [firstn]. f_equal. subst len.
      rewrite firstn_app, Nat.sub_diag, firstn_all. cbn [firstn].
      apply app_nil_r. }
    rewrite Hf, preserve_eq. subst len. rewrite skipn_app_all.
    cbv beta iota.
    assert (Hn' : numbered (length (st ++ [c :: m'])) ps).
    { rewrite length_app. cbn [length]. now rewrite Nat.add_1_r. }
    match goal with
    | |- (let (_, _) := ?X in _) = _ =>
      replace X with ((st ++ [c :: m']) ++ literals ps, maskeds ps)
        by (symmetry; exact (IH (st ++ [c :: m']) Hs Hn'))
    end.
    now rewrite <- app_assoc.
Qed.

(** Every scan has its pieces. *)
Lemma scanned_exists (re : matcher) :
  bounded re ->
  forall s n, exists ps, sources ps = s /\ scanned re ps /\ numbered n ps.
Proof.
  intros Hb s. induction s as [s IH] using suffix_induction. intros n.
  destruct s as [|c s']; [exists []; now repeat split|].
  assert (Hcopy : (forall len g, re (c :: s') <> Some (S len, g)) ->
                  exists ps, sources ps = c :: s' /\ scanned re ps /\ numbered n ps).
  { intros Hc. destruct (IH s' (Nat.lt_succ_diag_r _) n) as (ps & Hs & Hsc & Hn).
    exists (Chr c :: ps). rewrite sources_cons, Hs.
    repeat split; [now rewrite Hs|exact Hsc|exact Hn]. }
  destruct (re (c :: s')) as [[[|len] g]|] eqn:E;
    [apply Hcopy; intros; discriminate| |apply Hcopy; intros; discriminate].
  pose proof (Hb _ _ _ E) as Hle.
  destruct (IH (skipn (S len) (c :: s'))) with (n := S n) as (ps & Hs & Hsc & Hn).
  { rewrite length_skipn. cbn [length]. lia. }
  exists (Lit n (firstn (S len) (c :: s')) :: ps).
  rewrite sources_cons, Hs. cbn [source]. rewrite firstn_skipn.
  repeat split; [|exact Hsc|exact Hn].
  exists len, g. rewrite Hs, firstn_skipn. split; [exact E|].
  apply firstn_length_le. exact Hle.
Qed.

(** A match is found at its number in the list of matches. *)
Lemma numbered_lookup (ps : list piece) :
  forall n k m,
    numbered n ps ->
    In (Lit k m) ps ->
    n <= k /\ nth (k - n) (literals ps) (lit "undefined") = m.
Proof.
  induction ps as [|[c|k0 m0] ps IH]; intros n k m Hn Hin.
  - destruct Hin.
  - destruct Hin as [Hin|Hin]; [discriminate Hin|]. exact (IH n k m Hn Hin).
  - destruct Hn as [-> Hn]. destruct Hin as [Hin|Hin].
    + injection Hin as -> ->. split; [lia|]. now rewrite Nat.sub_diag.
    + destruct (IH (S n) k m Hn Hin) as [Hle Hnth]. split; [lia|].
      cbn [literals]. replace (k - n) with (S (k - S n)) by lia. exact Hnth.
Qed.

Lemma numbered_consistent (st more : list jsstring) (ps : list piece) :
  numbered (length st) ps ->
  forall k m, In (Lit k m) ps ->
    nth k (st ++ literals ps ++ more) (lit "undefined") = m.
Proof.
  intros Hn k m Hin.
  destruct (numbered_lookup ps _ k m Hn Hin) as [Hle Hnth].
  rewrite app_nth2 by lia.
  destruct (Nat.lt_ge_cases (k - length st) (length (literals ps))) as [Hlt|Hge].
  - now rewrite app_nth1 by exact Hlt.
  - rewrite nth_overflow in Hnth by exact Hge. subst m.
    rewrite app_nth2 by lia.
    (* the match is in the list, so its number is in range *)
    exfalso. clear - Hn Hin Hge.
    revert Hn Hin Hge. generalize (length st) as n.
    induction ps as [|[c|k0 m0] ps IH]; intros n Hn Hin Hge.
    + destruct Hin.
    + destruct Hin as [Hin|Hin]; [discriminate Hin|]. exact (IH n Hn Hin Hge).
    + destruct Hn as [-> Hn]. destruct Hin as [Hin|Hin].
      * injection Hin as -> _. cbn [literals length] in Hge. lia.
      * pose proof (numbered_lookup ps _ _ _ Hn Hin) as [Hle _].
        apply (IH (S n) Hn Hin). cbn [literals length] in Hge. lia.
Qed.

Lemma sources_one (p : piece) : sources [p] = source p.
Proof. apply app_nil_r. Qed.

Lemma maskeds_one (p : piece) : maskeds [p] = masked p.
Proof. apply app_nil_r. Qed.

(** ** Groups *)

Lemma stringLevel_cons (g : group) (gs : list group) :
  stringLevel (g :: gs)
  = match g with One p => [p] | Reg _ ps => ps end ++ stringLevel gs.
Proof. reflexivity. Qed.

Lemma regexLevel_cons (g : group) (gs : list group) :
  regexLevel (g :: gs)
  = match g with
    | One (Chr c) => [Chr c]
    | One (Lit k _) => map Chr (placeholder k)
    | Reg j ps => [Lit j (maskeds ps)]
    end ++ regexLevel gs.
Proof. reflexivity. Qed.

Lemma restoredLevel_cons (g : group) (gs : list group) :
  restoredLevel (g :: gs)
  = match g with One p => [p] | Reg _ ps => map Chr (maskeds ps) end
    ++ restoredLevel gs.
Proof. reflexivity. Qed.

Lemma topLevel_cons (g : group) (gs : list group) :
  topLevel (g :: gs)
  = match g with One p => p | Reg j ps => Lit j (maskeds ps) end :: topLevel gs.
Proof. reflexivity. Qed.

(** The regex pass reads what the string pass has written. *)
Lemma maskeds_stringLevel (gs : list group) :
  maskeds (stringLevel gs) = sources (regexLevel gs).
Proof.
  induction gs as [|[[c|k m]|j ps] gs IH]; [reflexivity| | |];
    rewrite stringLevel_cons, regexLevel_cons, maskeds_app, sources_app, IH;
    f_equal;
    first [ now rewrite maskeds_one, sources_chars
          | now rewrite sources_one ].
Qed.

(** The protected text is what the regex pass has written. *)
Lemma maskeds_regexLevel (gs : list group) :
  maskeds (regexLevel gs) = maskeds (topLevel gs).
Proof.
  induction gs as [|[[c|k m]|j ps] gs IH]; [reflexivity| | |];
    rewrite regexLevel_cons, topLevel_cons, maskeds_app,
      (maskeds_cons _ (topLevel gs)), IH;
    f_equal; first [apply maskeds_one | apply maskeds_chars].
Qed.

Lemma sources_restoredLevel (gs : list group) :
  sources (restoredLevel gs) = sources (topLevel gs).
Proof.
  induction gs as [|[p|j ps] gs IH]; [reflexivity| |];
    rewrite restoredLevel_cons, topLevel_cons, sources_app,
      (sources_cons _ (topLevel gs)), IH;
    f_equal; first [apply sources_one | apply sources_chars].
Qed.

Lemma maskeds_restoredLevel (gs : list group) :
  maskeds (restoredLevel gs) = maskeds (stringLevel gs).
Proof.
  induction gs as [|[p|j ps] gs IH]; [reflexivity| |];
    rewrite restoredLevel_cons, stringLevel_cons, !maskeds_app, IH;
    f_equal; apply maskeds_chars.
Qed.

(** Every placeholder of the protected text names its item. *)
Lemma topLevel_consistent (gs : list group) :
  numbered 0 (stringLevel gs) ->
  numbered (length (literals (stringLevel gs))) (regexLevel gs) ->
  consistent (literals (stringLevel gs) ++ literals (regexLevel gs)) (topLevel gs).
Proof.
  intros Hs Hr k m Hin.
  assert (Hwhere : In (Lit k m) (stringLevel gs) \/ In (Lit k m) (regexLevel gs)).
  { clear - Hin. induction gs as [|[p|j ps] gs IH]; [destruct Hin| |].
    - rewrite topLevel_cons in Hin. rewrite stringLevel_cons, regexLevel_cons.
      destruct Hin as [Hin|Hin].
      + left. subst p. now left.
      + destruct (IH Hin) as [H|H]; [left|right]; apply in_or_app; now right.
    - rewrite topLevel_cons in Hin. rewrite stringLevel_cons, regexLevel_cons.
      destruct Hin as [Hin|Hin].
      + right. rewrite Hin. now left.
      + destruct (IH Hin) as [H|H]; [left|right]; apply in_or_app; now right. }
  destruct Hwhere as [H|H].
  - exact (numbered_consistent [] _ _ Hs k m H).
  - pose proof (numbered_consistent (literals (stringLevel gs)) [] _ Hr k m H) as E.
    now rewrite app_nil_r in E.
Qed.

(** The two protecting passes, by their groups. *)
Lemma protect_by_groups (gs : list group) :
  scanned stringPattern (stringLevel gs) ->
  numbered 0 (stringLevel gs) ->
  scanned regexPattern (regexLevel gs) ->
  numbered (length (literals (stringLevel gs))) (regexLevel gs) ->
  protect (sources (stringLevel gs))
  = (literals (stringLevel gs) ++ literals (regexLevel gs), maskeds (topLevel gs)).
Proof.
  intros Hs Hns Hr Hnr. unfold protect.
  rewrite (scanned_scan stringPattern _ [] Hs Hns). cbn [app].
  rewrite maskeds_stringLevel.
  rewrite (scanned_scan regexPattern _ _ Hr Hnr).
  now rewrite maskeds_regexLevel.
Qed.

(** ** The restoring pass on pieces *)

Lemma placeholder_starts (k : nat) :
  exists r, placeholder k = placeholderPrefix ++ r.
Proof. now exists (string_of_nat k ++ lit "__"). Qed.

Lemma maskeds_leading (ps : list piece) :
  exists rest,
    maskeds ps = leadingText ps ++ rest
    /\ (rest = [] \/ exists r, rest = placeholderPrefix ++ r).
Proof.
  induction ps as [|[c|k m] ps IH].
  - exists []. split; [reflexivity|now left].
  - destruct IH as (rest & E & Hrest). exists rest. split; [|exact Hrest].
    rewrite maskeds_cons, E. reflexivity.
  - exists (maskeds (Lit k m :: ps)). split; [reflexivity|right].
    rewrite maskeds_cons. cbn [masked].
    destruct (placeholder_starts k) as [r ->].
    exists (r ++ maskeds ps). now rewrite app_assoc.
Qed.

Lemma gap_no_placeholder (v rest : jsstring) :
  occursIn placeholderPrefix v = false ->
  v <> [] ->
  rest = [] \/ (exists r, rest = placeholderPrefix ++ r) ->
  placeholderPattern (v ++ rest) = None.
Proof.
  intros Hv Hne Hrest.
  destruct (placeholderPattern (v ++ rest)) as [[n g]|] eqn:E; [exfalso|reflexivity].
  apply placeholderPattern_starts in E.
  destruct Hrest as [->|[r ->]].
  - rewrite app_nil_r in E. now rewrite (noPlaceholderText_starts _ Hv) in E.
  - destruct (Nat.le_gt_cases 14 (length v)) as [Hlong|Hshort].
    + rewrite (startsLikePlaceholder_long v _ [] Hlong), app_nil_r in E.
      now rewrite (noPlaceholderText_starts _ Hv) in E.
    + destruct v as [|c v']; [now apply Hne|].
      rewrite startsLikePlaceholder_short in E by (cbn [length] in *; lia).
      discriminate E.
Qed.

Lemma restore_pieces (items : list jsstring) (ps : list piece) :
  gapsPlain ps ->
  consistent items ps ->
  restore items (maskeds ps) = sources ps.
Proof.
  induction ps as [|[c|k m] ps IH]; intros Hg Hc.
  - reflexivity.
  - destruct Hg as [Hv Hg].
    destruct (maskeds_leading (Chr c :: ps)) as (rest & E & Hrest).
    assert (Hnone : placeholderPattern (maskeds (Chr c :: ps)) = None).
    { rewrite E. apply gap_no_placeholder; [exact Hv|discriminate|exact Hrest]. }
    rewrite maskeds_cons, sources_cons in *. cbn [masked source app] in *.
    rewrite restore_copy by exact Hnone. f_equal.
    apply IH; [exact Hg|]. intros k m Hin. apply Hc. now right.
  - rewrite maskeds_cons, sources_cons. cbn [masked source].
    rewrite restore_placeholder. rewrite (Hc k m) by now left.
    f_equal. apply IH; [exact Hg|]. intros k' m' Hin. apply Hc. now right.
Qed.

(** [removeComments], by the groups of its protecting passes, where the
    removing passes find nothing. *)
Lemma removeComments_by_groups (gs : list group) :
  scanned stringPattern (stringLevel gs) ->
  numbered 0 (stringLevel gs) ->
  scanned regexPattern (regexLevel gs) ->
  numbered (length (literals (stringLevel gs))) (regexLevel gs) ->
  gapsPlain (topLevel gs) ->
  stripSingleLine (maskeds (topLevel gs)) = maskeds (topLevel gs) ->
  stripMultiLine (maskeds (topLevel gs)) = maskeds (topLevel gs) ->
  removeComments (sources (stringLevel gs)) = sources (topLevel gs).
Proof.
  intros Hs Hns Hr Hnr Hg H1 H2.
  rewrite removeComments_unfold.
  rewrite (protect_by_groups gs Hs Hns Hr Hnr). cbn [fst snd].
  rewrite H1, H2.
  apply restore_pieces; [exact Hg|].
  now apply topLevel_consistent.
Qed.

(** ** The groups of a text *)

Lemma stringBody_bounded (q : char) :
  forall s n, stringBody q s = Some n -> 1 <= n <= length s.
Proof.
  intros s. induction s as [s IH] using suffix_induction. intros n H.
  destruct s as [|c s']; [discriminate H|]. cbn [stringBody] in H.
  destruct (eqc c q).
  - injection H as <-. cbn [length]. lia.
  - destruct (eqc c backslash).
    + destruct s' as [|e s'']; [discriminate H|].
      destruct (isLineTerminator e); [discriminate H|].
      destruct (stringBody q s'') as [k|] eqn:Ek; [|discriminate H].
      injection H as <-.
      pose proof (IH s'' ltac:(cbn [length]; lia) k Ek). cbn [length]. lia.
    + destruct (isLineTerminator c); [discriminate H|].
      destruct (stringBody q s') as [k|] eqn:Ek; [|discriminate H].
      injection H as <-.
      pose proof (IH s' ltac:(cbn [length]; lia) k Ek). cbn [length]. lia.
Qed.

Lemma stringPattern_bounded : bounded stringPattern.
Proof.
  intros s n g H. destruct s as [|q s']; [discriminate H|].
  cbn [stringPattern] in H. destruct (isQuote q); [|discriminate H].
  destruct (stringBody q s') as [k|] eqn:Ek; [|discriminate H].
  injection H as <- _. pose proof (stringBody_bounded _ _ _ Ek).
  cbn [length]. lia.
Qed.

(** The form of a match of the regex-literal pattern, and the other way
    round. *)
Lemma regexPattern_shape (s : jsstring) (n : nat) (g : list jsstring) :
  regexPattern s = Some (n, g) ->
  exists d body flags rest,
    s = slash :: (d :: body) ++ slash :: flags ++ rest
    /\ eqc d star = false
    /\ Forall (fun c => isRegexBodyChar c = true) (d :: body)
    /\ Forall (fun c => isRegexFlag c = true) flags
    /\ match rest with [] => True | c :: _ => isRegexFlag c = false end
    /\ n = S (length (d :: body) + S (length flags))
    /\ g = [].
Proof.
  intros H. destruct s as [|c s']; [discriminate H|].
  cbn [regexPattern] in H. destruct (eqc c slash) eqn:Ec; [|discriminate H].
  apply N.eqb_eq in Ec. subst c.
  destruct s' as [|d s'']; [discriminate H|].
  destruct (eqc d star) eqn:Ed; [discriminate H|].
  destruct (span_split isRegexBodyChar (d :: s'')) as [Esplit Hbody].
  pose proof (span_le isRegexBodyChar (d :: s'')) as Hle.
  destruct (span isRegexBodyChar (d :: s'')) as [|k] eqn:Ek; [discriminate H|].
  destruct (skipn (S k) (d :: s'')) as [|e tail] eqn:Esk; [discriminate H|].
  destruct (eqc e slash) eqn:Ee; [|discriminate H].
  apply N.eqb_eq in Ee. subst e.
  injection H as Hn Hg.
  destruct (span_split isRegexFlag tail) as [Etail Hflags].
  pose proof (span_skipn isRegexFlag tail) as Hstop.
  pose proof (span_le isRegexFlag tail) as Hle'.
  exists d, (firstn k s''), (firstn (span isRegexFlag tail) tail),
    (skipn (span isRegexFlag tail) tail).
  cbn [firstn] in Esplit, Hbody.
  repeat split.
  - rewrite <- Etail. exact (f_equal (cons slash) Esplit).
  - exact Ed.
  - exact Hbody.
  - exact Hflags.
  - exact Hstop.
  - rewrite <- Hn. cbn [length]. rewrite !length_firstn.
    cbn [length] in Hle. lia.
  - now symmetry.
Qed.

Lemma span_app_all (p : char -> bool) (a s : jsstring) :
  Forall (fun c => p c = true) a -> span p (a ++ s) = length a + span p s.
Proof.
  induction 1 as [|c a Hc _ IH]; [reflexivity|].
  cbn [app span length]. now rewrite Hc, IH.
Qed.

Lemma regexPattern_build (d : char) (body flags rest : jsstring) :
  eqc d star = false ->
  Forall (fun c => isRegexBodyChar c = true) (d :: body) ->
  Forall (fun c => isRegexFlag c = true) flags ->
  match rest with [] => True | c :: _ => isRegexFlag c = false end ->
  regexPattern (slash :: (d :: body) ++ slash :: flags ++ rest)
  = Some (S (length (d :: body) + S (length flags)), []).
Proof.
  intros Hd Hbody Hflags Hrest.
  assert (Hspan : span isRegexBodyChar ((d :: body) ++ slash :: flags ++ rest)
                  = length (d :: body)).
  { rewrite span_app_all by exact Hbody. cbn [span]. 
    replace (isRegexBodyChar slash) with false by reflexivity. lia. }
  assert (Hf : span isRegexFlag (flags ++ rest) = length flags).
  { apply span_app_stop; assumption. }
  unfold regexPattern. replace (eqc slash slash) with true by reflexivity.
  change ((d :: body) ++ slash :: flags ++ rest)
    with (d :: body ++ slash :: flags ++ rest) in *.
  cbv beta iota. rewrite Hd, Hspan. cbn [length].
  assert (Hsk : skipn (S (length body)) (d :: body ++ slash :: flags ++ rest)
                = slash :: flags ++ rest).
  { cbn [skipn]. apply skipn_app_all. }
  rewrite Hsk. replace (eqc slash slash) with true by reflexivity.
  rewrite Hf. f_equal. f_equal. lia.
Qed.

Lemma regexPattern_bounded : bounded regexPattern.
Proof.
  intros s n g H.
  destruct (regexPattern_shape _ _ _ H)
    as (d & body & flags & rest & -> & _ & _ & _ & _ & -> & _).
  cbn [length]. rewrite length_app. cbn [length]. rewrite length_app. lia.
Qed.

Lemma placeholder_alphabet (k : nat) :
  Forall (fun c => inPlaceholderAlphabet c = true) (placeholder k).
Proof.
  pose proof (placeholderPattern_alphabet _ _ _
                (placeholderPattern_placeholder k [])) as H.
  now rewrite app_nil_r, firstn_all in H.
Qed.

Lemma placeholder_nonempty (k : nat) : placeholder k <> [].
Proof. destruct (placeholder_starts k) as [r ->]. discriminate. Qed.

(** Where the string pass has written code units of which placeholders
    are made, the regex pass copies them. *)
Lemma regexPass_copies (a : jsstring) :
  Forall (fun c => inPlaceholderAlphabet c = true) a ->
  forall qs r,
    scanned regexPattern qs ->
    sources qs = a ++ r ->
    exists qs', qs = map Chr a ++ qs' /\ sources qs' = r
                /\ scanned regexPattern qs'.
Proof.
  induction 1 as [|c a Hc _ IH]; intros qs r Hs E.
  - exists qs. now repeat split.
  - destruct qs as [|[c'|j m] qs]; [discriminate E| |].
    + rewrite sources_cons in E. cbn [source app] in E.
      injection E as -> E. destruct Hs as [_ Hs].
      destruct (IH qs r Hs E) as (qs' & -> & Hr & Hs').
      exists qs'. now repeat split.
    + exfalso. destruct Hs as [(len & g & Hm & _) _].
      rewrite sources_cons in E. cbn [source] in E. rewrite E in Hm.
      exact (delimited_head _ regexPattern_delimited c _ len g Hc Hm).
Qed.

(** A text that ends with a code unit of which no placeholder is made,
    read from the start of what a pass has written, ends with a piece. *)
Lemma ends_with_piece (ps : list piece) :
  forall m r,
    maskeds ps = m ++ r ->
    (m = [] \/ exists pre e, m = pre ++ [e] /\ inPlaceholderAlphabet e = false) ->
    exists ts ps', ps = ts ++ ps' /\ maskeds ts = m /\ maskeds ps' = r.
Proof.
  induction ps as [|[c|k mm] ps IH]; intros m r E Hend.
  - symmetry in E. apply app_eq_nil in E as [-> ->]. now exists [], [].
  - destruct m as [|c0 m1]; [now exists [], (Chr c :: ps)|].
    rewrite maskeds_cons in E. cbn [masked app] in E. injection E as <- E.
    destruct (IH m1 r E) as (ts & ps' & -> & Hts & Hps').
    { destruct Hend as [Hend|(pre & e & Hm & He)]; [discriminate Hend|].
      destruct m1 as [|x m2]; [now left|right].
      destruct pre as [|y pre']; [destruct m2; discriminate Hm|].
      injection Hm as _ Hm. now exists pre', e. }
    exists (Chr c :: ts), ps'. rewrite maskeds_cons, Hts. now repeat split.
  - destruct Hend as [->|(pre & e & Hm & He)]; [now exists [], (Lit k mm :: ps)|].
    rewrite maskeds_cons in E. cbn [masked] in E.
    assert (Hnot : ~ In e (placeholder k)).
    { intros Hin. pose proof (placeholder_alphabet k) as Ha.
      rewrite Forall_forall in Ha. apply Ha in Hin. congruence. }
    apply app_eq_app in E as [l [[E1 E2]|[E1 E2]]].
    + exfalso. apply Hnot. rewrite E1, Hm. apply in_or_app. left.
      apply in_or_app. right. now left.
    + destruct l as [|x l'].
      * exfalso. apply Hnot. rewrite app_nil_r in E1. rewrite <- E1, Hm.
        apply in_or_app. right. now left.
      * destruct (IH (x :: l') r E2) as (ts & ps' & -> & Hts & Hps').
        { right. destruct (@exists_last _ (x :: l') ltac:(discriminate))
            as (l'' & z & Ez).
          exists l'', z. split; [exact Ez|].
          rewrite Ez, Hm, app_assoc in E1.
          apply app_inj_tail in E1 as [_ <-]. exact He. }
        exists (Lit k mm :: ts), ps'. rewrite maskeds_cons, Hts.
        cbn [masked]. now repeat split.
Qed.

Lemma maskeds_nil (ps : list piece) : maskeds ps = [] -> ps = [].
Proof.
  destruct ps as [|[c|k m] ps]; [reflexivity|discriminate|].
  rewrite maskeds_cons. cbn [masked]. intros E.
  apply app_eq_nil in E as [E _]. now apply placeholder_nonempty in E.
Qed.

(** The steps of the regex pass group the steps of the string pass. *)
Lemma groups_exist (ps : list piece) :
  forall qs,
    scanned regexPattern qs ->
    maskeds ps = sources qs ->
    exists gs, stringLevel gs = ps /\ regexLevel gs = qs.
Proof.
  remember (length ps) as n eqn:En. revert ps En.
  induction n as [n IH] using lt_wf_ind. intros ps En qs Hs E.
  destruct ps as [|[c|k m] ps].
  - exists []. split; [reflexivity|].
    destruct qs as [|[c|j m] qs]; [reflexivity|discriminate E|].
    destruct Hs as [(len & g & _ & Hlen) _].
    destruct m; [discriminate Hlen|]. rewrite sources_cons in E. discriminate E.
  - rewrite maskeds_cons in E. cbn [masked app] in E.
    destruct qs as [|[c'|j m] qs]; [discriminate E| |].
    + rewrite sources_cons in E. cbn [source app] in E. injection E as <- E.
      destruct Hs as [_ Hs].
      destruct (IH (length ps) ltac:(subst n; cbn [length]; lia) ps eq_refl qs Hs E)
        as (gs & <- & <-).
      now exists (One (Chr c) :: gs).
    + destruct Hs as [(len & g & Hm & Hlen) Hs].
      rewrite sources_cons in E. cbn [source] in E.
      destruct (regexPattern_delimited _ _ _ Hm) as (d & pre & e & Hf & _ & He).
      rewrite <- Hlen, firstn_app, Nat.sub_diag, firstn_all in Hf.
      cbn [firstn] in Hf. rewrite app_nil_r in Hf.
      destruct (ends_with_piece (Chr c :: ps) m (sources qs))
        as (ts & ps' & Eps & Hts & Hps').
      { rewrite maskeds_cons. exact E. }
      { right. exists (d :: pre), e. now split. }
      assert (Hlt : length ps' < n).
      { subst n. rewrite Eps, length_app.
        destruct ts; [cbn in Hts; congruence|].
        cbn [length]. lia. }
      destruct (IH (length ps') Hlt ps' eq_refl qs Hs Hps') as (gs & <- & <-).
      exists (Reg j ts :: gs). rewrite stringLevel_cons, regexLevel_cons.
      rewrite Hts. now split.
  - rewrite maskeds_cons in E. cbn [masked] in E. symmetry in E.
    destruct (regexPass_copies _ (placeholder_alphabet k) qs _ Hs E)
      as (qs' & -> & Hr & Hs').
    destruct (IH (length ps) ltac:(subst n; cbn [length]; lia) ps eq_refl qs' Hs'
                 (eq_sym Hr)) as (gs & <- & <-).
    now exists (One (Lit k m) :: gs).
Qed.

(** ** The gaps of the protected text *)

Lemma occursIn_app_l (p v r : jsstring) :
  occursIn p (v ++ r) = false -> occursIn p v = false.
Proof.
  induction v as [|c v IH]; intros H.
  - destruct (occursIn_head _ _ H) as [Hs _].
    destruct p as [|x p]; [discriminate Hs|]. reflexivity.
  - destruct (occursIn_head _ _ H) as [Hs Ht]. cbn [app] in Ht.
    destruct p as [|x p]; [discriminate Hs|].
    cbn [occursIn]. cbn [app strip_prefix] in Hs |- *.
    destruct (eqc x c); [|exact (IH Ht)].
    destruct (strip_prefix p v) as [r'|] eqn:E; [|exact (IH Ht)].
    apply strip_prefix_app in E. subst v.
    assert (E' : strip_prefix p ((p ++ r') ++ r) = Some (r' ++ r)).
    { apply strip_prefix_app. now rewrite app_assoc. }
    rewrite E' in Hs. discriminate Hs.
Qed.

Lemma leadingText_prefix (gs : list group) :
  exists r, sources (stringLevel gs) = leadingText (topLevel gs) ++ r.
Proof.
  induction gs as [|[[c|k m]|j ps] gs [r IH]].
  - now exists [].
  - exists r. rewrite stringLevel_cons, topLevel_cons, sources_app, IH. reflexivity.
  - now exists (sources (stringLevel (One (Lit k m) :: gs))).
  - now exists (sources (stringLevel (Reg j ps :: gs))).
Qed.

Lemma gapsPlain_topLevel (gs : list group) :
  occursIn placeholderPrefix (sources (stringLevel gs)) = false ->
  gapsPlain (topLevel gs).
Proof.
  induction gs as [|[[c|k m]|j ps] gs IH]; intros H; [exact I| | |].
  - split.
    + destruct (leadingText_prefix (One (Chr c) :: gs)) as [r E].
      rewrite E in H. exact (occursIn_app_l _ _ _ H).
    + apply IH. exact (occursIn_skipn _ _ 1 H).
  - apply IH. rewrite stringLevel_cons, sources_app in H.
    apply (occursIn_skipn _ _ (length (sources [Lit k m]))) in H.
    now rewrite skipn_app_all in H.
  - apply IH. rewrite stringLevel_cons, sources_app in H.
    apply (occursIn_skipn _ _ (length (sources ps))) in H.
    now rewrite skipn_app_all in H.
Qed.

(** The groups of the first application. *)
Lemma first_run (x : jsstring) :
  noPlaceholderText x ->
  exists gs,
    sources (stringLevel gs) = x
    /\ scanned stringPattern (stringLevel gs)
    /\ numbered 0 (stringLevel gs)
    /\ scanned regexPattern (regexLevel gs)
    /\ numbered (length (literals (stringLevel gs))) (regexLevel gs)
    /\ gapsPlain (topLevel gs).
Proof.
  intros Hx.
  destruct (scanned_exists stringPattern stringPattern_bounded x 0)
    as (ps & Hps & Hs & Hn).
  destruct (scanned_exists regexPattern regexPattern_bounded (maskeds ps)
              (length (literals ps))) as (qs & Hqs & Hr & Hnr).
  destruct (groups_exist ps qs Hr (eq_sym Hqs)) as (gs & <- & <-).
  exists gs. repeat split; try assumption.
  apply gapsPlain_topLevel. now rewrite Hps.
Qed.

(** ** Texts that differ in the numbers of their placeholders *)

Lemma sameShape_refl (ps : list piece) : sameShape ps ps.
Proof. induction ps as [|[c|k m] ps IH]; now constructor. Qed.

Lemma sameShape_sym (ps qs : list piece) : sameShape ps qs -> sameShape qs ps.
Proof. induction 1; now constructor. Qed.

Lemma sameShape_sources (ps qs : list piece) :
  sameShape ps qs -> sources ps = sources qs.
Proof.
  induction 1 as [|c ps qs _ IH|k k' m ps qs _ IH]; [reflexivity| |];
    now rewrite !sources_cons, IH.
Qed.

Lemma sameShape_leading (ps qs : list piece) :
  sameShape ps qs -> leadingText ps = leadingText qs.
Proof.
  induction 1 as [|c ps qs _ IH|k k' m ps qs _ IH]; [reflexivity| |reflexivity].
  cbn [leadingText]. now rewrite IH.
Qed.

Lemma sameShape_gapsPlain (ps qs : list piece) :
  sameShape ps qs -> gapsPlain ps -> gapsPlain qs.
Proof.
  induction 1 as [|c ps qs H IH|k k' m ps qs _ IH]; [easy| |exact IH].
  intros [Hv Hg]. split; [|exact (IH Hg)].
  rewrite <- (sameShape_leading (Chr c :: ps) (Chr c :: qs)); [exact Hv|].
  now constructor.
Qed.

Lemma placeholder_head (k : nat) : exists r, placeholder k = underscore :: r.
Proof. eexists. reflexivity. Qed.

Lemma sameShape_head (ps qs : list piece) :
  sameShape ps qs -> hd_error (maskeds ps) = hd_error (maskeds qs).
Proof.
  destruct 1 as [|c ps qs _|k k' m ps qs _]; [reflexivity|reflexivity|].
  rewrite !maskeds_cons. cbn [masked].
  destruct (placeholder_head k) as [r ->].
  destruct (placeholder_head k') as [r' ->]. reflexivity.
Qed.

Lemma outside_alphabet (d : char) :
  inPlaceholderAlphabet d = false ->
  forall c, inPlaceholderAlphabet c = true -> eqc c d = false.
Proof.
  intros Hd c Hc. destruct (eqc c d) eqn:E; [|reflexivity].
  apply N.eqb_eq in E. congruence.
Qed.

Lemma alphabet_body (c : char) :
  inPlaceholderAlphabet c = true -> isRegexBodyChar c = true.
Proof.
  intros Hc. unfold isRegexBodyChar, eqc.
  pose proof (outside_alphabet slash eq_refl c Hc) as H1.
  pose proof (outside_alphabet backslash eq_refl c Hc) as H2.
  pose proof (outside_alphabet 10%N eq_refl c Hc) as H3.
  unfold eqc in *. now rewrite H1, H2, H3.
Qed.

Lemma alphabet_line (c : char) :
  inPlaceholderAlphabet c = true -> isLineTerminator c = false.
Proof.
  intros Hc. unfold isLineTerminator.
  pose proof (outside_alphabet 10%N eq_refl c Hc) as H1.
  pose proof (outside_alphabet 13%N eq_refl c Hc) as H2.
  pose proof (outside_alphabet 8232%N eq_refl c Hc) as H3.
  pose proof (outside_alphabet 8233%N eq_refl c Hc) as H4.
  unfold eqc in *. now rewrite H1, H2, H3, H4.
Qed.

Lemma stopOf_cons (p : char -> bool) (c : char) (s : jsstring) :
  stopOf p (c :: s) = if p c then stopOf p s else Some c.
Proof. unfold stopOf. cbn [span]. now destruct (p c). Qed.

Lemma stopOf_app (p : char -> bool) (a s : jsstring) :
  Forall (fun c => p c = true) a -> stopOf p (a ++ s) = stopOf p s.
Proof.
  induction 1 as [|c a Hc _ IH]; [reflexivity|].
  cbn [app]. now rewrite stopOf_cons, Hc.
Qed.

Lemma sameShape_stop (p : char -> bool) (ps qs : list piece) :
  (forall c, inPlaceholderAlphabet c = true -> p c = true) ->
  sameShape ps qs ->
  stopOf p (maskeds ps) = stopOf p (maskeds qs).
Proof.
  intros Hp. induction 1 as [|c ps qs _ IH|k k' m ps qs _ IH]; [reflexivity| |].
  - rewrite !maskeds_cons. cbn [masked app]. now rewrite !stopOf_cons, IH.
  - rewrite !maskeds_cons. cbn [masked].
    rewrite !stopOf_app; [exact IH| |];
      (eapply Forall_impl; [|apply placeholder_alphabet]); exact Hp.
Qed.

Lemma stopOf_skipn (p : char -> bool) (s : jsstring) :
  match skipn (span p s) s with
  | [] => stopOf p s = None
  | e :: _ => stopOf p s = Some e
  end.
Proof. unfold stopOf. now destruct (skipn (span p s) s). Qed.

(** *** The regex-literal pattern *)

Lemma regexPattern_renumbered (ps qs : list piece) (c : char) (n : nat)
  (g : list jsstring) :
  sameShape ps qs ->
  regexPattern (c :: maskeds ps) = Some (n, g) ->
  exists n', regexPattern (c :: maskeds qs) = Some (S n', []).
Proof.
  intros Hshape H.
  pose proof (sameShape_head _ _ Hshape) as Hhead.
  pose proof (sameShape_stop isRegexBodyChar _ _ alphabet_body Hshape) as Hstop.
  cbn [regexPattern] in *. destruct (eqc c slash); [|discriminate H].
  destruct (maskeds ps) as [|d s1] eqn:E1; [discriminate H|].
  destruct (maskeds qs) as [|d' s2] eqn:E2; [discriminate Hhead|].
  injection Hhead as <-.
  destruct (eqc d star); [discriminate H|].
  pose proof (stopOf_skipn isRegexBodyChar (d :: s1)) as H1.
  pose proof (stopOf_skipn isRegexBodyChar (d :: s2)) as H2.
  cbn [span] in *. destruct (isRegexBodyChar d); [|discriminate H].
  destruct (skipn (S (span isRegexBodyChar s1)) (d :: s1)) as [|e tail];
    [discriminate H|].
  destruct (eqc e slash) eqn:Ee; [|discriminate H].
  rewrite H1 in Hstop.
  destruct (skipn (S (span isRegexBodyChar s2)) (d :: s2)) as [|e' tail'];
    [congruence|].
  assert (e' = e) by congruence. subst e'. rewrite Ee.
  eexists. reflexivity.
Qed.

Lemma firstn_app_all (m r : jsstring) : firstn (length m) (m ++ r) = m.
Proof. now rewrite firstn_app, Nat.sub_diag, firstn_all, app_nil_r. Qed.

Lemma regexPattern_same_match (m s s' : jsstring) (len : nat) (g : list jsstring) :
  regexPattern (m ++ s) = Some (S len, g) ->
  length m = S len ->
  hd_error s' = hd_error s ->
  regexPattern (m ++ s') = Some (S len, g).
Proof.
  intros H Hlen Hhead.
  destruct (regexPattern_shape _ _ _ H)
    as (d & body & flags & rest & E & Hd & Hbody & Hflags & Hrest & En & ->).
  assert (Hm : m = slash :: (d :: body) ++ slash :: flags).
  { rewrite <- (firstn_app_all m s), E, Hlen, En.
    replace (slash :: (d :: body) ++ slash :: flags ++ rest)
      with ((slash :: (d :: body) ++ slash :: flags) ++ rest)
      by (cbn [app]; now rewrite <- app_assoc).
    replace (S (length (d :: body) + S (length flags)))
      with (length (slash :: (d :: body) ++ slash :: flags))
      by (cbn [length app]; rewrite length_app; cbn [length]; lia).
    apply firstn_app_all. }
  assert (Hs : s = rest).
  { rewrite <- (skipn_app_all m s), E, Hm.
    replace (slash :: (d :: body) ++ slash :: flags ++ rest)
      with ((slash :: (d :: body) ++ slash :: flags) ++ rest)
      by (cbn [app]; now rewrite <- app_assoc).
    apply skipn_app_all. }
  subst s. rewrite Hm, En.
  replace ((slash :: (d :: body) ++ slash :: flags) ++ s')
    with (slash :: (d :: body) ++ slash :: flags ++ s')
    by (cbn [app]; now rewrite <- app_assoc).
  apply regexPattern_build; try assumption.
  destruct s' as [|x s'], rest as [|y rest]; try discriminate Hhead; [exact I|].
  injection Hhead as ->. exact Hrest.
Qed.

(** *** The comment patterns *)

Lemma singleLine_renumbered (ps qs : list piece) (c : char) (n : nat)
  (g : list jsstring) :
  sameShape ps qs ->
  singleLineCommentPattern (c :: maskeds ps) = Some (n, g) ->
  exists n', singleLineCommentPattern (c :: maskeds qs) = Some (S n', []).
Proof.
  intros Hshape H.
  destruct Hshape as [|d ps qs Hshape|k k' m ps qs _].
  - discriminate H.
  - pose proof (sameShape_stop (fun x => negb (isLineTerminator x)) ps qs) as Hstop.
    rewrite !maskeds_cons in *. cbn [masked app] in *.
    cbn [singleLineCommentPattern] in *.
    destruct (eqc c slash && eqc d slash); [|discriminate H].
    pose proof (stopOf_skipn (fun x => negb (isLineTerminator x)) (maskeds ps)) as H1.
    pose proof (stopOf_skipn (fun x => negb (isLineTerminator x)) (maskeds qs)) as H2.
    rewrite Hstop in H1;
      [|intros x Hx; now rewrite (alphabet_line x Hx)|exact Hshape].
    destruct (skipn _ (maskeds qs)) as [|e' tl'].
    + eexists. reflexivity.
    + destruct (skipn _ (maskeds ps)) as [|e tl]; [congruence|].
      assert (e' = e) by congruence. subst e'.
      destruct ((e =? 10)%N || (e =? 13)%N); [|discriminate H].
      eexists. reflexivity.
  - exfalso. rewrite maskeds_cons in H. cbn [masked] in H.
    destruct (placeholder_head k) as [r Er]. rewrite Er in H.
    cbn [app singleLineCommentPattern] in H.
    replace (eqc underscore slash) with false in H by reflexivity.
    rewrite andb_false_r in H. discriminate H.
Qed.

Lemma findCommentEnd_app (a s : jsstring) :
  Forall (fun c => eqc c star = false) a ->
  findCommentEnd s = None -> findCommentEnd (a ++ s) = None.
Proof.
  induction 1 as [|c a Hc _ IH]; intros H; [exact H|].
  cbn [app findCommentEnd]. destruct (a ++ s) as [|d tl] eqn:E; [reflexivity|].
  rewrite Hc. cbn [andb]. now rewrite (IH H).
Qed.

Lemma findCommentEnd_renumbered (ps qs : list piece) :
  sameShape ps qs ->
  findCommentEnd (maskeds ps) = None -> findCommentEnd (maskeds qs) = None.
Proof.
  induction 1 as [|c ps qs Hshape IH|k k' m ps qs Hshape IH]; intros H;
    [reflexivity| |].
  - pose proof (sameShape_head _ _ Hshape) as Hhead.
    rewrite !maskeds_cons in *. cbn [masked app] in *.
    cbn [findCommentEnd] in *.
    destruct (maskeds ps) as [|d s1] eqn:E1, (maskeds qs) as [|d' s2] eqn:E2;
      try discriminate Hhead; [reflexivity|].
    injection Hhead as <-.
    destruct (eqc c star && eqc d slash); [discriminate H|].
    destruct (findCommentEnd (d :: s1)); [discriminate H|].
    now rewrite IH.
  - rewrite !maskeds_cons in *. cbn [masked] in *.
    apply findCommentEnd_app.
    + eapply Forall_impl; [|apply placeholder_alphabet].
      intros c. apply (outside_alphabet star eq_refl).
    + apply IH.
      destruct (findCommentEnd (maskeds ps)) as [i|] eqn:E; [|reflexivity].
      exfalso. clear - H E.
      assert (G : forall a s i, findCommentEnd s = Some i ->
                                findCommentEnd (a ++ s) <> None).
      { induction a as [|c a IHa]; intros s j Hs; [cbn [app]; congruence|].
        cbn [app findCommentEnd]. pose proof (IHa s j Hs) as Hrec.
        destruct (a ++ s) as [|d tl]; [exfalso; now apply Hrec|].
        destruct (eqc c star && eqc d slash); [discriminate|].
        destruct (findCommentEnd (d :: tl)); [discriminate|now apply Hrec]. }
      exact (G _ _ _ E H).
Qed.

Lemma multiLine_renumbered (ps qs : list piece) (c : char) (n : nat)
  (g : list jsstring) :
  sameShape ps qs ->
  multiLineCommentPattern (c :: maskeds ps) = Some (n, g) ->
  exists n', multiLineCommentPattern (c :: maskeds qs) = Some (S n', []).
Proof.
  intros Hshape H.
  destruct Hshape as [|d ps qs Hshape|k k' m ps qs _].
  - discriminate H.
  - pose proof (findCommentEnd_renumbered qs ps (sameShape_sym _ _ Hshape)) as Hend.
    rewrite !maskeds_cons in *. cbn [masked app] in *.
    cbn [multiLineCommentPattern] in *.
    destruct (eqc c slash && eqc d star); [|discriminate H].
    destruct (findCommentEnd (maskeds qs)) as [i|].
    + eexists. reflexivity.
    + rewrite Hend in H by reflexivity. discriminate H.
  - exfalso. rewrite maskeds_cons in H. cbn [masked] in H.
    destruct (placeholder_head k) as [r Er]. rewrite Er in H.
    cbn [app multiLineCommentPattern] in H.
    replace (eqc underscore star) with false in H by reflexivity.
    rewrite andb_false_r in H. discriminate H.
Qed.

(** *** A removing pass that finds nothing *)

Lemma nowhere_cons (re : matcher) (c : char) (s : jsstring) :
  nowhere re (c :: s) ->
  (forall len g, re (c :: s) <> Some (S len, g)) /\ nowhere re s.
Proof.
  intros H. split.
  - exact (H 0 ltac:(cbn [length]; lia)).
  - intros i Hi. exact (H (S i) ltac:(cbn [length]; lia)).
Qed.

Lemma nowhere_app (re : matcher) (a s : jsstring) :
  nowhere re (a ++ s) -> nowhere re s.
Proof.
  intros H i Hi. pose proof (H (i + length a)) as G.
  rewrite <- skipn_skipn, skipn_app_all in G. apply G.
  rewrite length_app. lia.
Qed.

Lemma replace_shorter (re : matcher) (s : jsstring) :
  length (replace re (fun _ _ => []) s) <= length s.
Proof.
  induction s as [s IH] using suffix_induction.
  destruct s as [|c s']; [apply Nat.le_refl|].
  destruct (re (c :: s')) as [[[|len] g]|] eqn:E.
  - rewrite replace_copy by (intros; rewrite E; discriminate).
    cbn [length]. apply le_n_S, IH. cbn [length]. lia.
  - rewrite (replace_match _ _ _ _ _ _ E). cbn [app length].
    pose proof (IH (skipn len s')) as G. rewrite length_skipn in G.
    pose proof (G ltac:(cbn [length]; lia)). lia.
  - rewrite replace_copy by (intros; rewrite E; discriminate).
    cbn [length]. apply le_n_S, IH. cbn [length]. lia.
Qed.

Lemma replace_fixed (re : matcher) (s : jsstring) :
  replace re (fun _ _ => []) s = s -> nowhere re s.
Proof.
  induction s as [|c s' IH]; intros H i Hi; [cbn [length] in Hi; lia|].
  assert (Hc : forall len g, re (c :: s') <> Some (S len, g)).
  { intros len g E. rewrite (replace_match _ _ _ _ _ _ E) in H.
    apply (f_equal (@List.length char)) in H. cbn [app length] in H.
    pose proof (replace_shorter re (skipn len s')) as G.
    rewrite length_skipn in G. lia. }
  rewrite replace_copy in H by exact Hc. injection H as H.
  destruct i as [|i]; [exact Hc|].
  apply (IH H). cbn [length] in Hi. lia.
Qed.

Section Renumbered.
Variable re : matcher.
Hypothesis head_free :
  forall c s len g, inPlaceholderAlphabet c = true -> re (c :: s) <> Some (S len, g).
Hypothesis renumbered :
  forall ps qs c n g,
    sameShape ps qs ->
    re (c :: maskeds ps) = Some (n, g) ->
    exists n', re (c :: maskeds qs) = Some (S n', []).

Lemma nowhere_renumbered (ps qs : list piece) :
  sameShape ps qs ->
  nowhere re (maskeds ps) ->
  replace re (fun _ _ => []) (maskeds qs) = maskeds qs.
Proof.
  induction 1 as [|c ps qs Hshape IH|k k' m ps qs Hshape IH]; intros H.
  - reflexivity.
  - rewrite !maskeds_cons in *. cbn [masked app] in *.
    apply nowhere_cons in H as [Hc H].
    rewrite replace_copy.
    + now rewrite (IH H).
    + intros len g E.
      destruct (renumbered qs ps c _ _ (sameShape_sym _ _ Hshape) E) as [n' E'].
      exact (Hc _ _ E').
  - rewrite !maskeds_cons in *. cbn [masked] in *.
    apply nowhere_app in H.
    rewrite replace_copy_prefix.
    + now rewrite (IH H).
    + intros i Hi len g.
      destruct (skipn_head_in (placeholder k') (maskeds qs) i Hi)
        as (c & tl & -> & Hin).
      apply head_free.
      pose proof (placeholder_alphabet k') as Ha.
      rewrite Forall_forall in Ha. now apply Ha.
Qed.
End Renumbered.

Lemma singleLine_head_free (c : char) (s : jsstring) (len : nat) (g : list jsstring) :
  inPlaceholderAlphabet c = true ->
  singleLineCommentPattern (c :: s) <> Some (S len, g).
Proof.
  intros Hc. destruct s as [|d s']; [discriminate|].
  cbn [singleLineCommentPattern].
  now rewrite (outside_alphabet slash eq_refl c Hc).
Qed.

Lemma multiLine_head_free (c : char) (s : jsstring) (len : nat) (g : list jsstring) :
  inPlaceholderAlphabet c = true ->
  multiLineCommentPattern (c :: s) <> Some (S len, g).
Proof.
  intros Hc. destruct s as [|d s']; [discriminate|].
  cbn [multiLineCommentPattern].
  now rewrite (outside_alphabet slash eq_refl c Hc).
Qed.

(** Where the removing passes find nothing, they find nothing after the
    placeholders have got other numbers. *)
Lemma strips_renumbered (ps qs : list piece) :
  sameShape ps qs ->
  stripSingleLine (maskeds ps) = maskeds ps ->
  stripMultiLine (maskeds ps) = maskeds ps ->
  stripSingleLine (maskeds qs) = maskeds qs
  /\ stripMultiLine (maskeds qs) = maskeds qs.
Proof.
  intros Hshape H1 H2. split.
  - apply (nowhere_renumbered singleLineCommentPattern singleLine_head_free
             singleLine_renumbered ps qs Hshape).
    now apply replace_fixed.
  - apply (nowhere_renumbered multiLineCommentPattern multiLine_head_free
             multiLine_renumbered ps qs Hshape).
    now apply replace_fixed.
Qed.

(** ** The string pass of a second application *)

Lemma quote_not_backslash (q : char) : isQuote q = true -> eqc q backslash = false.
Proof.
  unfold isQuote. rewrite !orb_true_iff, !N.eqb_eq.
  intros [[->| ->]| ->]; reflexivity.
Qed.

Lemma quote_not_lineTerminator (q : char) :
  isQuote q = true -> isLineTerminator q = false.
Proof.
  unfold isQuote. rewrite !orb_true_iff, !N.eqb_eq.
  intros [[->| ->]| ->]; reflexivity.
Qed.

Lemma backslash_not_quote (q : char) : isQuote q = true -> eqc backslash q = false.
Proof.
  unfold isQuote. rewrite !orb_true_iff, !N.eqb_eq.
  intros [[->| ->]| ->]; reflexivity.
Qed.

Lemma option_map_none {A B : Type} (f : A -> B) (o : option A) :
  option_map f o = None -> o = None.
Proof. now destruct o. Qed.

(** A common start keeps two texts safe. *)
Lemma safe_cons (q c : char) (r r' : jsstring) :
  safe q r r' -> safe q (c :: r) (c :: r').
Proof.
  intros [H1 H2]. split.
  - destruct (eqc c backslash) eqn:Eb.
    + apply N.eqb_eq in Eb. subst c. exact H2.
    + cbn [stringBody]. rewrite Eb. destruct (eqc c q); [discriminate|].
      destruct (isLineTerminator c); [reflexivity|].
      intros H. apply option_map_none in H. now rewrite (H1 H).
  - cbn [stringBody]. destruct (eqc backslash q); [discriminate|].
    replace (eqc backslash backslash) with true by reflexivity.
    destruct (isLineTerminator c); [reflexivity|].
    intros H. apply option_map_none in H. now rewrite (H1 H).
Qed.

Lemma safe_app (q : char) (u r r' : jsstring) :
  safe q r r' -> safe q (u ++ r) (u ++ r').
Proof.
  intros H. induction u as [|c u IH]; [exact H|]. now apply safe_cons.
Qed.

Lemma safe_refl (q : char) (r : jsstring) : safe q r r.
Proof. now split. Qed.

(** Past a string literal, the rest of the pattern goes on as before
    it. *)
Lemma stringBody_past_literal (q' q : char) (r0 : jsstring) :
  isQuote q' = true ->
  isQuote q = true ->
  forall (m r : jsstring),
    stringBody q' (m ++ r0) = Some (length m) ->
    stringBody q (m ++ r) = None ->
    stringBody q r = None.
Proof.
  intros Hq' Hq m. induction m as [m IH] using suffix_induction. intros r H0 H.
  destruct m as [|c m'].
  - cbn [app length] in H0. apply stringBody_bounded in H0. lia.
  - cbn [app length stringBody] in H0, H.
    destruct (eqc c q) eqn:Ecq; [discriminate H|].
    destruct (eqc c q') eqn:Ec.
    + injection H0 as H0. destruct m'; [|discriminate H0].
      apply N.eqb_eq in Ec. subst c.
      rewrite (quote_not_backslash _ Hq'), (quote_not_lineTerminator _ Hq') in H.
      now apply option_map_none in H.
    + destruct (eqc c backslash).
      * destruct m' as [|e m''].
        -- exfalso. cbn [app] in H0. destruct r0 as [|e r0']; [discriminate H0|].
           destruct (isLineTerminator e); [discriminate H0|].
           destruct (stringBody q' r0'); discriminate H0.
        -- cbn [app] in H0, H. destruct (isLineTerminator e); [discriminate H0|].
           destruct (stringBody q' (m'' ++ r0)) as [k|] eqn:Ek; [|discriminate H0].
           cbn [option_map length] in H0. injection H0 as H0. subst k.
           apply option_map_none in H.
           exact (IH m'' ltac:(cbn [length]; lia) r Ek H).
      * destruct (isLineTerminator c); [discriminate H0|].
        destruct (stringBody q' (m' ++ r0)) as [k|] eqn:Ek; [|discriminate H0].
        cbn [option_map] in H0. injection H0 as H0. subst k.
        apply option_map_none in H.
        exact (IH m' ltac:(cbn [length]; lia) r Ek H).
Qed.

(** A string literal is one whatever follows it. *)
Lemma stringBody_same_match (q : char) (r0 r : jsstring) :
  forall m : jsstring,
    stringBody q (m ++ r0) = Some (length m) ->
    stringBody q (m ++ r) = Some (length m).
Proof.
  intros m. induction m as [m IH] using suffix_induction. intros H0.
  destruct m as [|c m'].
  - cbn [app length] in H0. apply stringBody_bounded in H0. lia.
  - cbn [app length stringBody] in *.
    destruct (eqc c q); [exact H0|].
    destruct (eqc c backslash).
    + destruct m' as [|e m''].
      * exfalso. cbn [app] in H0. destruct r0 as [|e r0']; [discriminate H0|].
        destruct (isLineTerminator e); [discriminate H0|].
        destruct (stringBody q r0'); discriminate H0.
      * cbn [app] in *. destruct (isLineTerminator e); [discriminate H0|].
        destruct (stringBody q (m'' ++ r0)) as [k|] eqn:Ek; [|discriminate H0].
        cbn [option_map length] in H0. injection H0 as H0. subst k.
        now rewrite (IH m'' ltac:(cbn [length]; lia) Ek).
    + destruct (isLineTerminator c); [discriminate H0|].
      destruct (stringBody q (m' ++ r0)) as [k|] eqn:Ek; [|discriminate H0].
      cbn [option_map] in H0. injection H0 as H0. subst k.
      now rewrite (IH m' ltac:(cbn [length]; lia) Ek).
Qed.

Lemma stringPattern_same_match (m s s' : jsstring) (len : nat) (g : list jsstring) :
  stringPattern (m ++ s) = Some (S len, g) ->
  length m = S len ->
  stringPattern (m ++ s') = Some (S len, g).
Proof.
  intros H Hlen. destruct m as [|q m']; [discriminate Hlen|].
  cbn [app stringPattern length] in *. injection Hlen as Hlen.
  destruct (isQuote q); [|discriminate H].
  destruct (stringBody q (m' ++ s)) as [k|] eqn:Ek; [|discriminate H].
  injection H as H Hg. subst k g. rewrite <- Hlen in Ek.
  now rewrite (stringBody_same_match q s s' m' Ek), Hlen.
Qed.

(** The text of a placeholder neither closes a string nor breaks it
    off. *)
Lemma stringBody_inert (q : char) (a r : jsstring) :
  isQuote q = true ->
  Forall (fun c => inPlaceholderAlphabet c = true) a ->
  stringBody q r = None -> stringBody q (a ++ r) = None.
Proof.
  intros Hq Ha H. induction Ha as [|c a Hc _ IH]; [exact H|].
  cbn [app stringBody].
  assert (Ecq : eqc c q = false).
  { apply outside_alphabet; [now apply quote_outside_alphabet|exact Hc]. }
  rewrite Ecq, (outside_alphabet backslash eq_refl c Hc), (alphabet_line c Hc).
  now rewrite IH.
Qed.

Lemma stringPattern_literal (m s : jsstring) (len : nat) (g : list jsstring) :
  stringPattern (m ++ s) = Some (S len, g) ->
  length m = S len ->
  exists q m', m = q :: m' /\ isQuote q = true
               /\ stringBody q (m' ++ s) = Some (length m').
Proof.
  intros H Hlen. destruct m as [|q m']; [discriminate Hlen|].
  cbn [app stringPattern length] in *. injection Hlen as Hlen.
  destruct (isQuote q) eqn:Eq; [|discriminate H].
  destruct (stringBody q (m' ++ s)) as [k|] eqn:Ek; [|discriminate H].
  injection H as H Hg. subst k. rewrite <- Hlen in Ek. now exists q, m'.
Qed.

Lemma hardened_safe (ps qs : list piece) (q : char) :
  isQuote q = true ->
  hardened ps qs ->
  scanned stringPattern ps ->
  safe q (sources ps) (sources qs).
Proof.
  intros Hq. induction 1 as [|c ps qs _ IH|k m ps qs _ IH|k m ps qs _ IH];
    intros Hs.
  - apply safe_refl.
  - destruct Hs as [_ Hs]. rewrite !sources_cons. cbn [source app].
    apply safe_cons, IH, Hs.
  - destruct Hs as [_ Hs]. rewrite !sources_cons. cbn [source].
    apply safe_app, IH, Hs.
  - destruct Hs as [(len & g & Hm & Hlen) Hs].
    destruct (IH Hs) as [H1 _].
    destruct (stringPattern_literal _ _ _ _ Hm Hlen) as (q' & m' & -> & Hq' & Hb).
    rewrite sources_cons, sources_app, sources_chars. cbn [source].
    pose proof (placeholder_alphabet k) as Ha.
    destruct (placeholder_head k) as [p' Ep]. rewrite Ep in *.
    apply Forall_cons_iff in Ha as [Hu Ha].
    assert (Hpast : stringBody q (m' ++ sources ps) = None ->
                    stringBody q (p' ++ sources qs) = None).
    { intros H. apply stringBody_inert; [exact Hq|exact Ha|]. apply H1.
      exact (stringBody_past_literal q' q _ Hq' Hq m' _ Hb H). }
    split; cbn [app stringBody].
    + destruct (eqc q' q); [discriminate|].
      rewrite (quote_not_backslash _ Hq'), (quote_not_lineTerminator _ Hq').
      replace (eqc underscore q) with false
        by (symmetry; apply outside_alphabet;
            [now apply quote_outside_alphabet|reflexivity]).
      replace (eqc underscore backslash) with false by reflexivity.
      replace (isLineTerminator underscore) with false by reflexivity.
      intros H. apply option_map_none in H. now rewrite (Hpast H).
    + rewrite (backslash_not_quote _ Hq).
      replace (eqc backslash backslash) with true by reflexivity.
      rewrite (quote_not_lineTerminator _ Hq').
      replace (isLineTerminator underscore) with false by reflexivity.
      intros H. apply option_map_none in H. now rewrite (Hpast H).
Qed.

Lemma scanned_chars (re : matcher) (a : jsstring) (ps : list piece) :
  delimited re ->
  Forall (fun c => inPlaceholderAlphabet c = true) a ->
  scanned re ps -> scanned re (map Chr a ++ ps).
Proof.
  intros Hd Ha Hs. induction Ha as [|c a Hc _ IH]; [exact Hs|].
  cbn [map app]. split; [|exact IH].
  intros len g. exact (delimited_head re Hd c _ len g Hc).
Qed.

(** The string pass of a second application takes the steps of the
    first, but for the string literals that the regex pass covered. *)
Lemma hardened_scanned (ps qs : list piece) :
  hardened ps qs ->
  scanned stringPattern ps -> scanned stringPattern qs.
Proof.
  induction 1 as [|c ps qs Hh IH|k m ps qs Hh IH|k m ps qs Hh IH]; intros Hs.
  - exact I.
  - destruct Hs as [Hc Hs]. split; [|exact (IH Hs)].
    intros len g E. cbn [stringPattern] in E.
    destruct (isQuote c) eqn:Eq; [|discriminate E].
    destruct (hardened_safe ps qs c Eq Hh Hs) as [H1 _].
    assert (Hnone : stringBody c (sources ps) = None).
    { destruct (stringBody c (sources ps)) as [n|] eqn:En; [|reflexivity].
      exfalso. apply (Hc n [[c]]). cbn [stringPattern]. now rewrite Eq, En. }
    now rewrite (H1 Hnone) in E.
  - destruct Hs as [(len & g & Hm & Hlen) Hs]. split; [|exact (IH Hs)].
    exists len, g. split; [|exact Hlen].
    exact (stringPattern_same_match _ _ _ _ _ Hm Hlen).
  - destruct Hs as [_ Hs].
    apply scanned_chars;
      [exact stringPattern_delimited|apply placeholder_alphabet|exact (IH Hs)].
Qed.

Lemma hardened_refl (ps : list piece) : hardened ps ps.
Proof. induction ps as [|[c|k m] ps IH]; now constructor. Qed.

Lemma hardened_app (ps qs ps' qs' : list piece) :
  hardened ps qs -> hardened ps' qs' -> hardened (ps ++ ps') (qs ++ qs').
Proof.
  intros H H'. induction H as [|c ps qs _ IH|k m ps qs _ IH|k m ps qs _ IH];
    [exact H'| | |]; cbn [app].
  - now constructor.
  - now constructor.
  - rewrite <- app_assoc. now constructor.
Qed.

Lemma hardened_covered_all (ps : list piece) : hardened ps (map Chr (maskeds ps)).
Proof.
  induction ps as [|[c|k m] ps IH]; [constructor| |].
  - rewrite maskeds_cons. cbn [masked app map]. now constructor.
  - rewrite maskeds_cons, map_app. cbn [masked]. now constructor.
Qed.

Lemma hardened_levels (gs : list group) :
  hardened (stringLevel gs) (restoredLevel gs).
Proof.
  induction gs as [|[p|j ps] gs IH]; [constructor| |];
    rewrite stringLevel_cons, restoredLevel_cons; apply hardened_app;
    try exact IH.
  - apply hardened_refl.
  - apply hardened_covered_all.
Qed.

Lemma scanned_renumbered (re : matcher) (ps qs : list piece) :
  sameShape ps qs -> scanned re ps -> scanned re qs.
Proof.
  induction 1 as [|c ps qs Hshape IH|k k' m ps qs Hshape IH]; intros Hs;
    [exact I| |]; destruct Hs as [H Hs]; (split; [|exact (IH Hs)]).
  - now rewrite <- (sameShape_sources _ _ Hshape).
  - now rewrite <- (sameShape_sources _ _ Hshape).
Qed.

(** ** The groups of a second application *)

Lemma numbered_chars (n : nat) (a : jsstring) (ps : list piece) :
  numbered n (map Chr a ++ ps) <-> numbered n ps.
Proof. induction a as [|c a IH]; [reflexivity|exact IH]. Qed.

Lemma secondRun_stringLevel (gs : list group) :
  forall i j,
    sameShape (restoredLevel gs) (stringLevel (secondRun i j gs))
    /\ numbered i (stringLevel (secondRun i j gs))
    /\ literals (stringLevel (secondRun i j gs)) = literals (restoredLevel gs).
Proof.
  induction gs as [|[[c|k m]|j0 ps] gs IH]; intros i j.
  - repeat split. constructor.
  - destruct (IH i j) as (H1 & H2 & H3). cbn [secondRun].
    rewrite restoredLevel_cons, stringLevel_cons. cbn [app].
    repeat split; [now constructor|exact H2|exact H3].
  - destruct (IH (S i) j) as (H1 & H2 & H3). cbn [secondRun].
    rewrite restoredLevel_cons, stringLevel_cons. cbn [app].
    repeat split; [now constructor|exact H2|]. cbn [literals]. now rewrite H3.
  - destruct (IH i (S j)) as (H1 & H2 & H3). cbn [secondRun].
    rewrite restoredLevel_cons, stringLevel_cons.
    repeat split.
    + clear - H1. induction (maskeds ps) as [|c a IHa]; [exact H1|].
      cbn [map app]. now constructor.
    + now apply numbered_chars.
    + now rewrite !literals_app, !literals_chars, H3.
Qed.

Lemma secondRun_topLevel (gs : list group) :
  forall i j, sameShape (topLevel gs) (topLevel (secondRun i j gs)).
Proof.
  induction gs as [|[[c|k m]|j0 ps] gs IH]; intros i j; cbn [secondRun];
    rewrite ?topLevel_cons; try (now constructor).
  rewrite maskeds_chars. now constructor.
Qed.

Lemma secondRun_numbered (gs : list group) :
  forall i j, numbered j (regexLevel (secondRun i j gs)).
Proof.
  induction gs as [|[[c|k m]|j0 ps] gs IH]; intros i j; cbn [secondRun];
    rewrite ?regexLevel_cons.
  - exact I.
  - exact (IH i j).
  - apply numbered_chars, IH.
  - split; [reflexivity|apply IH].
Qed.

Lemma secondRun_restoredLevel (gs : list group) (i j : nat) :
  restoredLevel (secondRun i j gs) = stringLevel (secondRun i j gs).
Proof.
  revert i j. induction gs as [|[[c|k m]|j0 ps] gs IH]; intros i j;
    cbn [secondRun]; rewrite ?restoredLevel_cons, ?stringLevel_cons;
    [reflexivity| | |]; rewrite IH; [reflexivity|reflexivity|].
  now rewrite maskeds_chars.
Qed.

(** What the regex pass of the second application reads differs from
    what that of the first read in the numbers of the placeholders. *)
Lemma secondRun_reads (gs : list group) (i j : nat) :
  exists ps qs,
    sameShape ps qs
    /\ sources (regexLevel gs) = maskeds ps
    /\ sources (regexLevel (secondRun i j gs)) = maskeds qs.
Proof.
  exists (restoredLevel gs), (stringLevel (secondRun i j gs)).
  split; [apply secondRun_stringLevel|].
  now rewrite <- !maskeds_stringLevel, maskeds_restoredLevel.
Qed.

Lemma secondRun_scanned (gs : list group) :
  forall i j,
    scanned regexPattern (regexLevel gs) ->
    scanned regexPattern (regexLevel (secondRun i j gs)).
Proof.
  induction gs as [|[[c|k m]|j0 ps] gs IH]; intros i j Hs.
  - exact I.
  - rewrite regexLevel_cons in Hs. cbn [secondRun]. rewrite regexLevel_cons.
    cbn [app] in *.
    destruct Hs as [Hc Hs]. split; [|exact (IH i j Hs)].
    intros len g E.
    destruct (secondRun_reads gs i j) as (ps & qs & Hshape & E1 & E2).
    rewrite E2 in E. rewrite E1 in Hc.
    destruct (regexPattern_renumbered qs ps c _ _ (sameShape_sym _ _ Hshape) E)
      as [n' E'].
    exact (Hc _ _ E').
  - rewrite regexLevel_cons in Hs. cbn [secondRun]. rewrite regexLevel_cons.
    apply scanned_chars;
      [exact regexPattern_delimited|apply placeholder_alphabet|].
    apply IH.
    clear - Hs. induction (placeholder k) as [|c a IHa]; [exact Hs|].
    apply IHa. exact (proj2 Hs).
  - rewrite regexLevel_cons in Hs. cbn [secondRun]. rewrite regexLevel_cons.
    cbn [app] in *.
    destruct Hs as [(len & g & Hm & Hlen) Hs]. rewrite maskeds_chars.
    split; [|exact (IH i (S j) Hs)].
    exists len, g. split; [|exact Hlen].
    apply (regexPattern_same_match _ (sources (regexLevel gs)));
      [exact Hm|exact Hlen|].
    destruct (secondRun_reads gs i (S j)) as (ps' & qs' & Hshape & E1 & E2).
    rewrite E1, E2. symmetry. now apply sameShape_head.
Qed.

(** A second application of [removeComments] to the result of the first
    goes through the same groups and restores the same text. *)
Lemma removeComments_second_run (gs : list group) :
  scanned stringPattern (stringLevel gs) ->
  scanned regexPattern (regexLevel gs) ->
  gapsPlain (topLevel gs) ->
  stripSingleLine (maskeds (topLevel gs)) = maskeds (topLevel gs) ->
  stripMultiLine (maskeds (topLevel gs)) = maskeds (topLevel gs) ->
  removeComments (sources (topLevel gs)) = sources (topLevel gs).
Proof.
  intros Hs Hr Hg H1 H2.
  set (j := length (literals (restoredLevel gs))).
  destruct (secondRun_stringLevel gs 0 j) as (Hshape & Hn & Hlit).
  pose proof (secondRun_topLevel gs 0 j) as Htop.
  destruct (strips_renumbered _ _ Htop H1 H2) as [H1' H2'].
  rewrite <- sources_restoredLevel at 1.
  rewrite (sameShape_sources _ _ Hshape), (sameShape_sources _ _ Htop).
  apply removeComments_by_groups.
  - apply (scanned_renumbered _ _ _ Hshape).
    exact (hardened_scanned _ _ (hardened_levels gs) Hs).
  - exact Hn.
  - now apply secondRun_scanned.
  - rewrite Hlit. apply secondRun_numbered.
  - exact (sameShape_gapsPlain _ _ Htop Hg).
  - exact H1'.
  - exact H2'.
Qed.

End SecondRun.

(* ====================================================================== *)
(** * [removeComments]: literals and idempotence *)
(* ====================================================================== *)

Module Comments.
Import TextDefs PieceDefs ReplaceFacts Collapsed Restore SecondRun.

(** C7, where the code keeps its promise: a string literal holding two
    slashes, followed by a comment, stays as it is while the comment
    goes. *)
Lemma removeComments_keeps_string_before_comment :
  removeComments stringBeforeComment
  = lit "x = " ++ doubleQuoted (lit "//not-a-comment") ++ lit "; ".
Proof. reflexivity. Qed.

(** C7, where the code breaks it: the string literal stands between two
    divisions.  The string pass protects the literal; the regex pass then
    takes the text from the first division slash to the second, with the
    placeholder of the literal in it, for a regex literal and protects it
    as a whole; the restoring pass goes over the text once, so the inner
    placeholder stays in the result and the literal is lost. *)
Lemma removeComments_loses_string_between_divisions :
  fst (protect stringBetweenDivisions)
  = [doubleQuoted (lit "//not-a-comment"); lit "/ 2 + __PRESERVED__0__ + h /"]
  /\ removeComments stringBetweenDivisions = lit "w / 2 + __PRESERVED__0__ + h / 2"
  /\ occursIn (doubleQuoted (lit "//not-a-comment")) stringBetweenDivisions = true
  /\ occursIn (doubleQuoted (lit "//not-a-comment"))
       (removeComments stringBetweenDivisions) = false.
Proof. repeat split. Qed.

(** C6, as stated, at a text without comment: it has neither two
    neighbouring slashes nor a slash followed by a star, and the removing
    passes find nothing in it.  It holds a text of the form of a
    placeholder, which the restoring pass replaces by the first preserved
    item, the regex literal [/r/]; in the result this literal follows a
    slash and is followed by a star, so a second application pairs the
    slashes differently and finds a block comment. *)
Lemma removeComments_not_idempotent :
  commentFree placeholderInText
  /\ noCommentOpener placeholderInText = true
  /\ removeComments placeholderInText = lit "/ b /r/* c" ++ nl ++ lit "/r/ */"
  /\ removeComments (removeComments placeholderInText) = lit "/ b /r"
  /\ ~ idempotentOnCommentFree.
Proof.
  assert (Hfree : commentFree placeholderInText) by (split; reflexivity).
  split; [exact Hfree|]. split; [reflexivity|].
  split; [reflexivity|]. split; [reflexivity|].
  intros H. specialize (H placeholderInText Hfree).
  vm_compute in H. discriminate H.
Qed.

(** C6, amended: on a text without comment that holds no
    [__PRESERVED__], [removeComments] is idempotent.  The first
    application may change the text: where a match of the regex-literal
    pattern has taken the placeholder of a string literal with it, the
    placeholder stays in the result.  A second application goes through
    the same steps but for these string literals, which are plain code
    units now: the string pattern matches where it matched before and
    not covered, the regex-literal pattern matches the same literals,
    the removing passes find nothing again, and the restoring pass puts
    back what the first application returned. *)
Theorem removeComments_idempotent_without_placeholder (x : jsstring) :
  noPlaceholderText x -> commentFree x ->
  removeComments (removeComments x) = removeComments x.
Proof.
  intros Hx [H1 H2].
  destruct (first_run x Hx) as (gs & <- & Hs & Hns & Hr & Hnr & Hg).
  rewrite (protect_by_groups gs Hs Hns Hr Hnr) in H1, H2. cbn [snd] in H1, H2.
  rewrite (removeComments_by_groups gs Hs Hns Hr Hnr Hg H1 H2).
  now apply removeComments_second_run.
Qed.

Lemma removeComments_idempotent_without_placeholder_witness :
  noPlaceholderText stringBetweenDivisions
  /\ commentFree stringBetweenDivisions
  /\ removeComments (removeComments stringBetweenDivisions)
     = removeComments stringBetweenDivisions.
Proof.
  assert (Hx : noPlaceholderText stringBetweenDivisions) by reflexivity.
  assert (Hfree : commentFree stringBetweenDivisions) by (split; reflexivity).
  split; [exact Hx|]. split; [exact Hfree|].
  exact (removeComments_idempotent_without_placeholder
           stringBetweenDivisions Hx Hfree).
Defined.

End Comments.

(* ====================================================================== *)
(** * More on the binary detector *)
(* ====================================================================== *)

Module BinaryMore.
Import BinaryDefs MoreDefs Binary.

Lemma nth_error_examined (buffer : list Byte.byte) (i : nat) (b : Byte.byte) :
  i < maxBytes -> nth_error buffer i = Some b -> In b (examined buffer).
Proof.
  intros Hi Hb. unfold examined.
  assert (Hlen : i < length buffer).
  { apply nth_error_Some. now rewrite Hb. }
  apply (nth_error_In _ i).
  rewrite nth_error_firstn.
  destruct (Nat.ltb_spec i (Nat.min (length buffer) maxBytes)); [exact Hb|lia].
Qed.

(** X1.  A null byte at an index below 8000 makes [isBinaryFile] answer
    [true], whatever the other bytes are: the loop returns at once and
    the ratio is not looked at. *)
Theorem isBinaryFile_null_byte (buffer : list Byte.byte) (i : nat) :
  i < maxBytes ->
  nth_error buffer i = Some Byte.x00 ->
  isBinaryFile buffer = true.
Proof.
  intros Hi Hb. unfold isBinaryFile. fold (examined buffer).
  rewrite scanBytes_null; [reflexivity|].
  intros Hnull. apply (Hnull Byte.x00); [|reflexivity].
  exact (nth_error_examined buffer i _ Hi Hb).
Qed.

Lemma isBinaryFile_null_byte_witness :
  1 < maxBytes
  /\ nth_error letterThenNull 1 = Some Byte.x00
  /\ isBinaryFile letterThenNull = true.
Proof.
  assert (H1 : 1 < maxBytes) by (vm_compute; lia).
  split; [exact H1|]. split; [reflexivity|].
  exact (isBinaryFile_null_byte letterThenNull 1 H1 eq_refl).
Defined.

(** X2.  [isBinaryFile] depends on the first 8000 bytes of the buffer
    only: what follows them, a null byte included, is never read. *)
Theorem isBinaryFile_first_bytes (buffer : list Byte.byte) :
  isBinaryFile buffer = isBinaryFile (firstn maxBytes buffer).
Proof.
  unfold isBinaryFile.
  rewrite length_firstn, firstn_firstn.
  replace (Nat.min (Nat.min maxBytes (length buffer)) maxBytes)
    with (Nat.min (length buffer) maxBytes) by lia.
  replace (Nat.min (Nat.min (length buffer) maxBytes) maxBytes)
    with (Nat.min (length buffer) maxBytes) by lia.
  reflexivity.
Qed.

End BinaryMore.


(* ====================================================================== *)
(** * More on [removeWhitespace] *)
(* ====================================================================== *)

Module WhitespaceMore.
Import TextDefs MoreDefs ReplaceFacts Whitespace.

Lemma trimStart_app_other (a : jsstring) (c : char) :
  isWhiteSpace c = false ->
  trimStart (a ++ [c]) = trimStart a ++ [c].
Proof.
  intros Hc. induction a as [|x a IH]; cbn [app trimStart].
  - now rewrite Hc.
  - destruct (isWhiteSpace x); [exact IH|reflexivity].
Qed.

Lemma trimStart_app_kept (a b : jsstring) :
  trimStart a <> [] -> trimStart (a ++ b) = trimStart a ++ b.
Proof.
  induction a as [|x a IH]; cbn [app trimStart]; intros H; [contradiction|].
  destruct (isWhiteSpace x); [now apply IH|reflexivity].
Qed.

Lemma trimStart_app_gone (a b : jsstring) :
  trimStart a = [] -> trimStart (a ++ b) = trimStart b.
Proof.
  induction a as [|x a IH]; cbn [app trimStart]; intros H; [reflexivity|].
  destruct (isWhiteSpace x); [now apply IH|discriminate H].
Qed.

Lemma trimEnd_cons_other (c : char) (s : jsstring) :
  isWhiteSpace c = false -> trimEnd (c :: s) = c :: trimEnd s.
Proof.
  intros Hc. unfold trimEnd. cbn [rev].
  destruct (trimStart (rev s)) as [|x r] eqn:E.
  - rewrite trimStart_app_gone by exact E. cbn [trimStart]. now rewrite Hc.
  - rewrite trimStart_app_kept by (rewrite E; discriminate).
    rewrite E, rev_app_distr. reflexivity.
Qed.

Lemma trimEnd_cons_kept (c : char) (s : jsstring) :
  trimEnd s <> [] -> trimEnd (c :: s) = c :: trimEnd s.
Proof.
  intros H. unfold trimEnd in *. cbn [rev].
  rewrite trimStart_app_kept.
  - now rewrite rev_app_distr.
  - intros E. rewrite E in H. now apply H.
Qed.

Lemma trimEnd_nonempty (s : jsstring) :
  noLeadingWhiteSpace s -> s <> [] -> trimEnd s <> [].
Proof.
  intros Hl Hs E. destruct (trimEnd_split s) as (q & Eq & Hq).
  rewrite E in Eq. cbn [app] in Eq. subst q.
  destruct s as [|c s]; [now apply Hs|].
  pose proof (Hq c (or_introl eq_refl)) as H1.
  pose proof (Hl c s eq_refl) as H2. congruence.
Qed.

Lemma collapse_nil_inv (s : jsstring) : collapse s = [] -> s = [].
Proof.
  destruct s as [|c s]; [reflexivity|].
  destruct (isWhiteSpace c) eqn:Hc.
  - rewrite (collapse_space _ _ Hc). discriminate.
  - rewrite (collapse_other _ _ Hc). discriminate.
Qed.

Lemma trimStart_collapse (s : jsstring) :
  trimStart (collapse s) = collapse (trimStart s).
Proof.
  destruct s as [|c s]; [reflexivity|].
  destruct (isWhiteSpace c) eqn:Hc.
  - rewrite (collapse_space _ _ Hc). cbn [trimStart].
    change (isWhiteSpace 32%N) with true. cbv iota. rewrite Hc.
    apply trimStart_id, collapse_noLeading, trimStart_noLeading.
  - rewrite (collapse_other _ _ Hc). cbn [trimStart]. rewrite Hc.
    now rewrite (collapse_other _ _ Hc).
Qed.

(** [removeWhitespace] by cases on the head of a text without leading
    white space. *)
Lemma trimEnd_collapse_other (c : char) (s : jsstring) :
  isWhiteSpace c = false ->
  trimEnd (collapse (c :: s)) = c :: trimEnd (collapse s).
Proof.
  intros Hc. rewrite (collapse_other _ _ Hc). now apply trimEnd_cons_other.
Qed.

Lemma trimEnd_collapse_space (c : char) (s : jsstring) :
  isWhiteSpace c = true ->
  trimEnd (collapse (c :: s))
  = match trimStart s with
    | [] => []
    | _ => 32%N :: trimEnd (collapse (trimStart s))
    end.
Proof.
  intros Hc. rewrite (collapse_space _ _ Hc).
  destruct (trimStart s) as [|x r] eqn:E.
  - reflexivity.
  - apply trimEnd_cons_kept. apply trimEnd_nonempty.
    + rewrite <- E. apply collapse_noLeading, trimStart_noLeading.
    + intros H. apply collapse_nil_inv in H. discriminate H.
Qed.

Lemma removeWhitespace_trimStart (s : jsstring) :
  removeWhitespace s = trimEnd (collapse (trimStart s)).
Proof.
  rewrite removeWhitespace_unfold. unfold trim. now rewrite trimStart_collapse.
Qed.

Lemma joinWords_cons (w : jsstring) (ws : list jsstring) :
  joinWords (w :: ws)
  = match ws with [] => w | _ => w ++ 32%N :: joinWords ws end.
Proof. reflexivity. Qed.

Lemma splitWords_join (s : jsstring) :
  (forall word, word <> [] ->
     joinWords (splitWords s word) = word ++ trimEnd (collapse s))
  /\ joinWords (words s) = trimEnd (collapse (trimStart s))
  /\ (words s = [] <-> trimStart s = []).
Proof.
  induction s as [|c s (IH1 & IH2 & IH3)].
  - repeat split; try reflexivity.
    intros word Hw. cbn [splitWords]. destruct word; [contradiction|].
    cbn [joinWords]. now rewrite app_nil_r.
  - destruct (isWhiteSpace c) eqn:Hc.
    + split; [|split].
      * intros word Hw. cbn [splitWords]. rewrite Hc.
        destruct word as [|x word]; [contradiction|].
        rewrite joinWords_cons. fold (words s).
        rewrite (trimEnd_collapse_space _ _ Hc).
        destruct (words s) as [|w ws] eqn:Ew.
        -- rewrite (proj1 IH3 eq_refl). now rewrite app_nil_r.
        -- destruct (trimStart s) as [|y r] eqn:Et.
           ++ destruct IH3 as [_ IH3]. discriminate (IH3 eq_refl).
           ++ now rewrite IH2.
      * unfold words. cbn [splitWords trimStart]. rewrite Hc. exact IH2.
      * unfold words. cbn [splitWords trimStart]. rewrite Hc. exact IH3.
    + split; [|split].
      * intros word Hw. cbn [splitWords]. rewrite Hc.
        rewrite IH1 by (destruct word; discriminate).
        rewrite (trimEnd_collapse_other _ _ Hc), <- app_assoc. reflexivity.
      * unfold words. cbn [splitWords trimStart]. rewrite Hc. cbn [app].
        rewrite IH1 by discriminate.
        now rewrite (trimEnd_collapse_other _ _ Hc).
      * unfold words. cbn [splitWords trimStart]. rewrite Hc. cbn [app].
        split; [|discriminate].
        intros H. exfalso.
        assert (G : forall t word, word <> [] -> splitWords t word <> []).
        { induction t as [|x t IHt]; intros word Hw; cbn [splitWords].
          - destruct word; [contradiction|discriminate].
          - destruct (isWhiteSpace x).
            + destruct word; [contradiction|discriminate].
            + apply IHt. destruct word; discriminate. }
        apply (G s [c]); [discriminate|exact H].
Qed.

(** X3.  [removeWhitespace] returns the words of the text, that is its
    maximal runs of code units that are not white space, joined by single
    spaces. *)
Theorem removeWhitespace_joins_words (s : jsstring) :
  removeWhitespace s = joinWords (words s).
Proof.
  rewrite removeWhitespace_trimStart.
  symmetry. exact (proj1 (proj2 (splitWords_join s))).
Qed.

Lemma content_app (a b : jsstring) : content (a ++ b) = content a ++ content b.
Proof. apply filter_app. Qed.

Lemma content_white (p : jsstring) :
  (forall c, In c p -> isWhiteSpace c = true) -> content p = [].
Proof.
  induction p as [|x p IH]; intros H; [reflexivity|].
  unfold content. cbn [filter]. rewrite (H x) by now left.
  apply IH. intros c Hc. apply H. now right.
Qed.

Lemma content_trimStart (s : jsstring) : content (trimStart s) = content s.
Proof.
  destruct (trimStart_split s) as (p & E & Hp).
  rewrite E at 2. now rewrite content_app, (content_white _ Hp).
Qed.

Lemma content_trimEnd (s : jsstring) : content (trimEnd s) = content s.
Proof.
  destruct (trimEnd_split s) as (q & E & Hq).
  rewrite E at 2. now rewrite content_app, (content_white _ Hq), app_nil_r.
Qed.

Lemma content_collapse : forall s, content (collapse s) = content s.
Proof.
  apply suffix_induction. intros [|c s] IH; [reflexivity|].
  destruct (isWhiteSpace c) eqn:Hc.
  - rewrite (collapse_space _ _ Hc). unfold content at 1 2. cbn [filter].
    rewrite Hc. change (isWhiteSpace 32%N) with true. cbn [negb].
    fold (content (collapse (trimStart s))). fold (content s).
    rewrite IH by (cbn [length]; pose proof (trimStart_length s); lia).
    apply content_trimStart.
  - rewrite (collapse_other _ _ Hc). unfold content at 1 2. cbn [filter].
    rewrite Hc. cbn [negb]. f_equal. apply IH. cbn [length]. lia.
Qed.

Lemma collapse_length : forall s, length (collapse s) <= length s.
Proof.
  apply suffix_induction. intros [|c s] IH; [reflexivity|].
  destruct (isWhiteSpace c) eqn:Hc.
  - rewrite (collapse_space _ _ Hc). cbn [length].
    pose proof (trimStart_length s) as Hl.
    specialize (IH (trimStart s) ltac:(cbn [length]; lia)). lia.
  - rewrite (collapse_other _ _ Hc). cbn [length].
    specialize (IH s ltac:(cbn [length]; lia)). lia.
Qed.

Lemma trimEnd_length (s : jsstring) : length (trimEnd s) <= length s.
Proof.
  destruct (trimEnd_split s) as (q & E & _).
  rewrite E at 2. rewrite length_app. lia.
Qed.

(** X4.  [removeWhitespace] changes white space only: the code units
    that are not white space are the same before and after, in the same
    order, and the result is never longer than the text. *)
Theorem removeWhitespace_keeps_content (s : jsstring) :
  content (removeWhitespace s) = content s
  /\ length (removeWhitespace s) <= length s.
Proof.
  rewrite removeWhitespace_unfold. unfold trim. split.
  - now rewrite content_trimEnd, content_trimStart, content_collapse.
  - pose proof (trimEnd_length (trimStart (collapse s))).
    pose proof (trimStart_length (collapse s)).
    pose proof (collapse_length s). lia.
Qed.

(** X5.  The texts that [removeWhitespace] returns unchanged are those
    in which every white space code unit is a single space between two
    code units that are not white space. *)
Theorem removeWhitespace_fixed_points (s : jsstring) :
  removeWhitespace s = s
  <-> tidy s /\ noLeadingWhiteSpace s /\ noTrailingWhiteSpace s.
Proof.
  split.
  - intros E. rewrite <- E.
    split; [apply removeWhitespace_tidy|].
    split; [apply removeWhitespace_noLeading|apply removeWhitespace_noTrailing].
  - intros (Ht & Hl & Hr). rewrite removeWhitespace_unfold.
    rewrite (collapse_id _ Ht). now apply trim_id.
Qed.

End WhitespaceMore.


(* ====================================================================== *)
(** * More on [removeComments] *)
(* ====================================================================== *)

Module CommentsMore.
Import TextDefs MoreDefs ReplaceFacts Collapsed Restore.

(** ** Code units at which a pattern cannot begin *)

Section HeadFree.
Variable re : matcher.
Variable P : char -> bool.
Hypothesis head_free : forall c s, P c = true -> re (c :: s) = None.

Lemma head_free_positions (m rest : jsstring) :
  forallb P m = true ->
  forall i, i < length m ->
    forall len g, re (skipn i (m ++ rest)) <> Some (S len, g).
Proof.
  intros Hm i Hi len g.
  destruct (skipn_head_in m rest i Hi) as (c & tl & -> & Hin).
  rewrite forallb_forall in Hm. now rewrite (head_free c tl (Hm c Hin)).
Qed.

Lemma scan_copies {St : Type}
  (cb : St -> jsstring -> list jsstring -> St * jsstring)
  (m rest : jsstring) (st : St) :
  forallb P m = true ->
  replace_st re cb st (m ++ rest)
  = let (st', t) := replace_st re cb st rest in (st', m ++ t).
Proof.
  intros Hm. apply replace_st_copy_prefix. now apply head_free_positions.
Qed.

Lemma scan_copies_all {St : Type}
  (cb : St -> jsstring -> list jsstring -> St * jsstring)
  (m : jsstring) (st : St) :
  forallb P m = true -> replace_st re cb st m = (st, m).
Proof.
  intros Hm. rewrite <- (app_nil_r m) at 1. rewrite (scan_copies cb m [] st Hm).
  rewrite replace_st_nil. now rewrite app_nil_r.
Qed.

Lemma replace_copies (r : jsstring -> list jsstring -> jsstring)
  (m rest : jsstring) :
  forallb P m = true -> replace re r (m ++ rest) = m ++ replace re r rest.
Proof.
  intros Hm. apply replace_copy_prefix. now apply head_free_positions.
Qed.

Lemma replace_copies_all (r : jsstring -> list jsstring -> jsstring)
  (m : jsstring) :
  forallb P m = true -> replace re r m = m.
Proof.
  intros Hm. rewrite <- (app_nil_r m) at 1. rewrite (replace_copies r m [] Hm).
  unfold replace. rewrite replace_st_nil. apply app_nil_r.
Qed.
End HeadFree.

Lemma stringPattern_head (c : char) (s : jsstring) :
  notQuote c = true -> stringPattern (c :: s) = None.
Proof.
  unfold notQuote. intros H. apply negb_true_iff in H.
  cbn [stringPattern]. now rewrite H.
Qed.

Lemma regexPattern_head (c : char) (s : jsstring) :
  notSlash c = true -> regexPattern (c :: s) = None.
Proof.
  unfold notSlash. intros H. apply negb_true_iff in H.
  cbn [regexPattern]. now rewrite H.
Qed.

Lemma singleLineCommentPattern_head (c : char) (s : jsstring) :
  notSlash c = true -> singleLineCommentPattern (c :: s) = None.
Proof.
  unfold notSlash. intros H. apply negb_true_iff in H.
  destruct s as [|d s]; [reflexivity|].
  cbn [singleLineCommentPattern]. now rewrite H.
Qed.

Lemma multiLineCommentPattern_head (c : char) (s : jsstring) :
  notSlash c = true -> multiLineCommentPattern (c :: s) = None.
Proof.
  unfold notSlash. intros H. apply negb_true_iff in H.
  destruct s as [|d s]; [reflexivity|].
  cbn [multiLineCommentPattern]. now rewrite H.
Qed.

Lemma forallb_weaken (P Q : char -> bool) (s : jsstring) :
  (forall c, P c = true -> Q c = true) ->
  forallb P s = true -> forallb Q s = true.
Proof.
  intros H Hs. rewrite forallb_forall in *. intros c Hc. auto.
Qed.

Lemma isPlain_notSlash (c : char) : isPlain c = true -> notSlash c = true.
Proof. unfold isPlain. intros H. now apply andb_true_iff in H. Qed.

Lemma isPlain_notQuote (c : char) : isPlain c = true -> notQuote c = true.
Proof. unfold isPlain. intros H. now apply andb_true_iff in H. Qed.

(** After a slash, a text without slash holds no regex literal. *)
Lemma regexPattern_unclosed (rest : jsstring) :
  forallb notSlash rest = true -> regexPattern (slash :: rest) = None.
Proof.
  intros H. cbn [regexPattern]. change (eqc slash slash) with true. cbv iota.
  destruct rest as [|d rest']; [reflexivity|].
  destruct (eqc d star); [reflexivity|].
  destruct (span isRegexBodyChar (d :: rest')) as [|k]; [reflexivity|].
  destruct (skipn (S k) (d :: rest')) as [|e tail] eqn:E; [reflexivity|].
  assert (Hin : In e (d :: rest')).
  { rewrite <- (firstn_skipn (S k) (d :: rest')), E.
    apply in_or_app. right. now left. }
  rewrite forallb_forall in H. specialize (H e Hin).
  unfold notSlash in H. apply negb_true_iff in H. now rewrite H.
Qed.

Lemma findCommentEnd_none (s : jsstring) :
  forallb notSlash s = true -> findCommentEnd s = None.
Proof.
  induction s as [|c s IH]; intros H; [reflexivity|].
  cbn [forallb] in H. apply andb_true_iff in H as [_ H].
  cbn [findCommentEnd]. destruct s as [|d s']; [reflexivity|].
  rewrite (IH H). cbn [forallb] in H. apply andb_true_iff in H as [Hd _].
  unfold notSlash in Hd. apply negb_true_iff in Hd.
  now rewrite Hd, andb_false_r.
Qed.

Lemma findCommentEnd_first (comment tail : jsstring) :
  forallb notSlash comment = true ->
  findCommentEnd (comment ++ star :: slash :: tail) = Some (length comment).
Proof.
  induction comment as [|c comment IH]; intros H; [reflexivity|].
  cbn [forallb] in H. apply andb_true_iff in H as [_ H].
  cbn [app findCommentEnd length]. rewrite (IH H).
  destruct comment as [|d comment']; cbn [app].
  - change (eqc star slash) with false. now rewrite andb_false_r.
  - cbn [forallb] in H. apply andb_true_iff in H as [Hd _].
    unfold notSlash in Hd. apply negb_true_iff in Hd.
    now rewrite Hd, andb_false_r.
Qed.

(** ** The passes on text without literals *)

Lemma string_pass_plain (x : jsstring) (st : list jsstring) :
  forallb notQuote x = true ->
  replace_st stringPattern preserve st x = (st, x).
Proof. apply scan_copies_all. exact stringPattern_head. Qed.

Lemma regex_pass_plain (x : jsstring) (st : list jsstring) :
  forallb notSlash x = true ->
  replace_st regexPattern preserve st x = (st, x).
Proof. apply scan_copies_all. exact regexPattern_head. Qed.

Lemma stripSingleLine_plain (x : jsstring) :
  forallb notSlash x = true -> stripSingleLine x = x.
Proof. apply replace_copies_all. exact singleLineCommentPattern_head. Qed.

Lemma stripMultiLine_plain (x : jsstring) :
  forallb notSlash x = true -> stripMultiLine x = x.
Proof. apply replace_copies_all. exact multiLineCommentPattern_head. Qed.

Lemma removeComments_by_passes (x t1 t2 : jsstring) :
  protect x = ([], x) ->
  stripSingleLine x = t1 ->
  stripMultiLine t1 = t2 ->
  removeComments x = restore [] t2.
Proof.
  intros Hp H1 H2. rewrite removeComments_unfold, Hp. cbn [fst snd].
  now rewrite H1, H2.
Qed.

Lemma protect_plain (x : jsstring) :
  forallb notQuote x = true ->
  replace_st regexPattern preserve [] x = ([], x) ->
  protect x = ([], x).
Proof.
  intros Hq Hr. unfold protect. now rewrite (string_pass_plain x [] Hq).
Qed.

Lemma forallb_plain_app (P : char -> bool) (a b : jsstring) :
  forallb P a = true -> forallb P b = true -> forallb P (a ++ b) = true.
Proof. intros Ha Hb. rewrite forallb_app. now rewrite Ha, Hb. Qed.

Lemma slash_slash_no_regex (rest : jsstring) :
  regexPattern (slash :: slash :: rest) = None.
Proof. reflexivity. Qed.

Lemma slash_star_no_regex (rest : jsstring) :
  regexPattern (slash :: star :: rest) = None.
Proof. reflexivity. Qed.

Lemma plain_notSlash (s : jsstring) :
  forallb isPlain s = true -> forallb notSlash s = true.
Proof. exact (forallb_weaken _ _ _ isPlain_notSlash). Qed.

Lemma plain_notQuote (s : jsstring) :
  forallb isPlain s = true -> forallb notQuote s = true.
Proof. exact (forallb_weaken _ _ _ isPlain_notQuote). Qed.

(** ** A line comment *)

Lemma line_comment_protect (code rest : jsstring) :
  forallb isPlain code = true ->
  forallb isPlain rest = true ->
  protect (code ++ slash :: slash :: rest)
  = ([], code ++ slash :: slash :: rest).
Proof.
  intros Hcode Hrest.
  pose proof (plain_notSlash _ Hrest) as Hrs.
  apply protect_plain.
  - apply forallb_plain_app; [exact (plain_notQuote _ Hcode)|].
    cbn [forallb]. change (notQuote slash) with true. cbn [andb].
    exact (plain_notQuote _ Hrest).
  - rewrite (scan_copies _ _ regexPattern_head preserve code _ []
               (plain_notSlash _ Hcode)).
    rewrite replace_st_copy
      by (intros len g; rewrite slash_slash_no_regex; discriminate).
    rewrite replace_st_copy
      by (intros len g; rewrite (regexPattern_unclosed rest Hrs); discriminate).
    now rewrite (regex_pass_plain rest [] Hrs).
Qed.

Lemma span_comment (comment tail : jsstring) :
  forallb (fun c => negb (isLineTerminator c)) comment = true ->
  match tail with
  | [] => True
  | c :: _ => isLineTerminator c = true
  end ->
  span (fun x => negb (isLineTerminator x)) (comment ++ tail) = length comment.
Proof.
  intros Hc Ht. apply span_app_stop.
  - apply Forall_forall. now apply forallb_forall.
  - destruct tail as [|c tail']; [exact I|]. now rewrite Ht.
Qed.

Lemma singleLineCommentPattern_comment (comment tail : jsstring) :
  forallb (fun c => negb (isLineTerminator c)) comment = true ->
  beginsNewLine tail = true ->
  singleLineCommentPattern (slash :: slash :: comment ++ tail)
  = Some (S (S (length comment)), []).
Proof.
  intros Hc Ht. cbn [singleLineCommentPattern].
  change (eqc slash slash) with true. cbn [andb]. cbv zeta.
  rewrite span_comment; [|exact Hc|].
  - rewrite skipn_app_all. destruct tail as [|e tail']; [reflexivity|].
    cbn [beginsNewLine] in Ht. now rewrite Ht.
  - destruct tail as [|e tail']; [exact I|]. cbn [beginsNewLine] in Ht.
    unfold isLineTerminator. apply orb_true_iff in Ht as [-> | ->];
      [reflexivity|]. now rewrite orb_true_r.
Qed.

(** X6.  A line comment is removed up to the end of its line: in text
    without quote and without [__PRESERVED__], where the comment holds no
    slash and ends at LF, at CR or at the end of the text, the two
    slashes and the comment are gone and the rest is as it was. *)
Theorem removeComments_removes_line_comment (code comment tail : jsstring) :
  forallb isPlain code = true ->
  forallb isPlain comment = true ->
  forallb isPlain tail = true ->
  forallb (fun c => negb (isLineTerminator c)) comment = true ->
  beginsNewLine tail = true ->
  hasPlaceholderText (code ++ tail) = false ->
  removeComments (code ++ lit "//" ++ comment ++ tail) = code ++ tail.
Proof.
  intros Hcode Hcomment Htail Hline Hnl Hw.
  change (lit "//" ++ comment ++ tail) with (slash :: slash :: comment ++ tail).
  pose proof (plain_notSlash _ Hcode) as Hcs.
  pose proof (plain_notSlash _ Htail) as Hts.
  rewrite (removeComments_by_passes _ (code ++ tail) (code ++ tail)).
  - now apply noPlaceholderText_restore.
  - apply line_comment_protect; [exact Hcode|].
    now apply forallb_plain_app.
  - unfold stripSingleLine.
    rewrite (replace_copies _ _ singleLineCommentPattern_head _ code _ Hcs).
    rewrite (replace_match _ _ _ _ _ _
               (singleLineCommentPattern_comment comment tail Hline Hnl)).
    cbn [app skipn]. rewrite skipn_app_all.
    f_equal. exact (stripSingleLine_plain tail Hts).
  - apply stripMultiLine_plain. now apply forallb_plain_app.
Qed.

Lemma removeComments_removes_line_comment_witness :
  removeComments (sampleCode ++ lit "//" ++ sampleComment ++ sampleTail)
  = sampleCode ++ sampleTail.
Proof.
  apply (removeComments_removes_line_comment sampleCode sampleComment sampleTail);
    reflexivity.
Defined.

(** X7.  A line comment that ends at a line separator or a paragraph
    separator (U+2028, U+2029) is not removed: the dot of the pattern
    stops there, and the look-ahead accepts LF, CR and the end of the
    text only. *)
Theorem removeComments_keeps_comment_at_line_separator
  (code comment tail : jsstring) (ls : char) :
  forallb isPlain code = true ->
  forallb isPlain comment = true ->
  forallb isPlain tail = true ->
  forallb (fun c => negb (isLineTerminator c)) comment = true ->
  isLineSeparator ls = true ->
  hasPlaceholderText (code ++ lit "//" ++ comment ++ ls :: tail) = false ->
  removeComments (code ++ lit "//" ++ comment ++ ls :: tail)
  = code ++ lit "//" ++ comment ++ ls :: tail.
Proof.
  intros Hcode Hcomment Htail Hline Hls Hw.
  change (lit "//") with [slash; slash] in *. cbn [app] in *.
  assert (Hlsp : isPlain ls = true).
  { unfold isLineSeparator in Hls.
    apply orb_true_iff in Hls as [H|H]; apply N.eqb_eq in H; now subst ls. }
  assert (Hlt : isLineTerminator ls = true).
  { unfold isLineSeparator in Hls. unfold isLineTerminator.
    apply orb_true_iff in Hls as [-> | ->]; now rewrite ?orb_true_r. }
  assert (Hnot : ((ls =? 10)%N || (ls =? 13)%N) = false).
  { unfold isLineSeparator in Hls.
    apply orb_true_iff in Hls as [H|H]; apply N.eqb_eq in H; now subst ls. }
  assert (Hrest : forallb isPlain (comment ++ ls :: tail) = true).
  { apply forallb_plain_app; [exact Hcomment|]. cbn [forallb].
    now rewrite Hlsp, Htail. }
  pose proof (plain_notSlash _ Hcode) as Hcs.
  pose proof (plain_notSlash _ Hrest) as Hrs.
  set (rest := comment ++ ls :: tail) in *.
  set (x := code ++ slash :: slash :: rest) in *.
  rewrite (removeComments_by_passes x x x).
  - now apply noPlaceholderText_restore.
  - now apply line_comment_protect.
  - unfold stripSingleLine, x.
    rewrite (replace_copies _ _ singleLineCommentPattern_head _ code _ Hcs).
    f_equal.
    assert (E1 : singleLineCommentPattern (slash :: slash :: rest) = None).
    { cbn [singleLineCommentPattern].
      change (eqc slash slash) with true. cbn [andb]. cbv zeta.
      unfold rest. rewrite span_comment; [|exact Hline|exact Hlt].
      rewrite skipn_app_all. now rewrite Hnot. }
    assert (E2 : singleLineCommentPattern (slash :: rest) = None).
    { destruct rest as [|d rest'] eqn:Er; [reflexivity|].
      cbn [singleLineCommentPattern]. cbn [forallb] in Hrs.
      apply andb_true_iff in Hrs as [Hd _]. unfold notSlash in Hd.
      apply negb_true_iff in Hd. now rewrite Hd, andb_false_r. }
    rewrite replace_copy by (intros len g; rewrite E1; discriminate).
    rewrite replace_copy by (intros len g; rewrite E2; discriminate).
    do 2 f_equal. exact (stripSingleLine_plain rest Hrs).
  - unfold stripMultiLine, x.
    rewrite (replace_copies _ _ multiLineCommentPattern_head _ code _ Hcs).
    f_equal.
    assert (E2 : multiLineCommentPattern (slash :: rest) = None).
    { destruct rest as [|d rest'] eqn:Er; [reflexivity|].
      cbn [multiLineCommentPattern].
      destruct (eqc slash slash && eqc d star); [|reflexivity].
      cbn [forallb] in Hrs. apply andb_true_iff in Hrs as [_ Hrs].
      now rewrite (findCommentEnd_none rest' Hrs). }
    rewrite replace_copy by (intros len g; discriminate).
    rewrite replace_copy by (intros len g; rewrite E2; discriminate).
    do 2 f_equal. exact (stripMultiLine_plain rest Hrs).
Qed.

Lemma removeComments_keeps_comment_at_line_separator_witness :
  removeComments (sampleCode ++ lit "//" ++ sampleComment ++ 8232%N :: lit "y = 2;")
  = sampleCode ++ lit "//" ++ sampleComment ++ 8232%N :: lit "y = 2;".
Proof.
  apply (removeComments_keeps_comment_at_line_separator
           sampleCode sampleComment (lit "y = 2;") 8232%N);
    reflexivity.
Defined.

(** ** A block comment *)

Lemma block_comment_protect (code comment tail : jsstring) :
  forallb isPlain code = true ->
  forallb isPlain comment = true ->
  forallb isPlain tail = true ->
  protect (code ++ slash :: star :: comment ++ star :: slash :: tail)
  = ([], code ++ slash :: star :: comment ++ star :: slash :: tail).
Proof.
  intros Hcode Hcomment Htail.
  pose proof (plain_notSlash _ Htail) as Hts.
  assert (Hbody : forallb notSlash (star :: comment ++ [star]) = true).
  { cbn [forallb]. change (notSlash star) with true. cbn [andb].
    apply forallb_plain_app; [exact (plain_notSlash _ Hcomment)|reflexivity]. }
  apply protect_plain.
  - apply forallb_plain_app; [exact (plain_notQuote _ Hcode)|].
    cbn [forallb]. change (notQuote slash) with true.
    change (notQuote star) with true. cbn [andb].
    apply forallb_plain_app; [exact (plain_notQuote _ Hcomment)|].
    cbn [forallb]. change (notQuote slash) with true.
    change (notQuote star) with true. cbn [andb].
    exact (plain_notQuote _ Htail).
  - rewrite (scan_copies _ _ regexPattern_head preserve code _ []
               (plain_notSlash _ Hcode)).
    rewrite replace_st_copy
      by (intros len g; rewrite slash_star_no_regex; discriminate).
    change (star :: comment ++ star :: slash :: tail)
      with ((star :: comment) ++ star :: slash :: tail).
    replace ((star :: comment) ++ star :: slash :: tail)
      with ((star :: comment ++ [star]) ++ slash :: tail)
      by (cbn [app]; now rewrite <- app_assoc).
    rewrite (scan_copies _ _ regexPattern_head preserve _ _ [] Hbody).
    rewrite replace_st_copy
      by (intros len g; rewrite (regexPattern_unclosed tail Hts); discriminate).
    rewrite (regex_pass_plain tail [] Hts).
    cbn [app]. now rewrite <- app_assoc.
Qed.

(** X8.  A block comment is removed: in text without quote and without
    [__PRESERVED__], where the comment holds no slash (so that it ends at
    the first star-slash), the comment and its delimiters are gone and
    the text before and after is as it was.  The comment may hold line
    terminators. *)
Theorem removeComments_removes_block_comment (code comment tail : jsstring) :
  forallb isPlain code = true ->
  forallb isPlain comment = true ->
  forallb isPlain tail = true ->
  hasPlaceholderText (code ++ tail) = false ->
  removeComments (code ++ lit "/*" ++ comment ++ lit "*/" ++ tail)
  = code ++ tail.
Proof.
  intros Hcode Hcomment Htail Hw.
  change (lit "/*" ++ comment ++ lit "*/" ++ tail)
    with (slash :: star :: comment ++ star :: slash :: tail).
  pose proof (plain_notSlash _ Hcode) as Hcs.
  pose proof (plain_notSlash _ Htail) as Hts.
  pose proof (plain_notSlash _ Hcomment) as Hms.
  assert (Hbody : forallb notSlash (star :: comment ++ [star]) = true).
  { cbn [forallb]. change (notSlash star) with true. cbn [andb].
    apply forallb_plain_app; [exact Hms|reflexivity]. }
  assert (Eshape : star :: comment ++ star :: slash :: tail
                   = (star :: comment ++ [star]) ++ slash :: tail).
  { cbn [app]. now rewrite <- app_assoc. }
  set (x := code ++ slash :: star :: comment ++ star :: slash :: tail).
  rewrite (removeComments_by_passes x x (code ++ tail)).
  - now apply noPlaceholderText_restore.
  - now apply block_comment_protect.
  - unfold stripSingleLine, x.
    rewrite (replace_copies _ _ singleLineCommentPattern_head _ code _ Hcs).
    f_equal.
    rewrite replace_copy by (intros len g; discriminate).
    f_equal. rewrite Eshape.
    rewrite (replace_copies _ _ singleLineCommentPattern_head _ _ _ Hbody).
    f_equal.
    assert (E : singleLineCommentPattern (slash :: tail) = None).
    { destruct tail as [|d tail']; [reflexivity|].
      cbn [singleLineCommentPattern]. cbn [forallb] in Hts.
      apply andb_true_iff in Hts as [Hd _]. unfold notSlash in Hd.
      apply negb_true_iff in Hd. now rewrite Hd, andb_false_r. }
    rewrite replace_copy by (intros len g; rewrite E; discriminate).
    f_equal. exact (stripSingleLine_plain tail Hts).
  - unfold stripMultiLine, x.
    rewrite (replace_copies _ _ multiLineCommentPattern_head _ code _ Hcs).
    f_equal.
    assert (E : multiLineCommentPattern
                  (slash :: star :: comment ++ star :: slash :: tail)
                = Some (S (S (length comment + 2)), [])).
    { cbn [multiLineCommentPattern].
      change (eqc slash slash && eqc star star) with true. cbv iota.
      now rewrite (findCommentEnd_first comment tail Hms). }
    rewrite (replace_match _ _ _ _ _ _ E). cbn [app skipn].
    replace (length comment + 2) with (length (comment ++ [star; slash]))
      by (rewrite length_app; reflexivity).
    replace (comment ++ star :: slash :: tail)
      with ((comment ++ [star; slash]) ++ tail)
      by (now rewrite <- app_assoc).
    rewrite skipn_app_all. exact (stripMultiLine_plain tail Hts).
Qed.

Lemma removeComments_removes_block_comment_witness :
  removeComments (sampleCode ++ lit "/*" ++ (sampleComment ++ nl ++ lit " * here ")
                  ++ lit "*/" ++ sampleTail)
  = sampleCode ++ sampleTail.
Proof.
  apply (removeComments_removes_block_comment sampleCode
           (sampleComment ++ nl ++ lit " * here ") sampleTail);
    reflexivity.
Defined.

(** ** Text without slash *)

Lemma strip_prefix_firstn_some (p s : jsstring) (n : nat) :
  strip_prefix p (firstn n s) <> None -> strip_prefix p s <> None.
Proof.
  destruct (strip_prefix p (firstn n s)) as [r|] eqn:E; [|contradiction].
  intros _. apply strip_prefix_app in E.
  assert (E' : s = p ++ (r ++ skipn n s)).
  { rewrite app_assoc, <- E. symmetry. apply firstn_skipn. }
  apply strip_prefix_app in E'. now rewrite E'.
Qed.

Lemma occursIn_firstn (p s : jsstring) :
  occursIn p s = false -> forall n, occursIn p (firstn n s) = false.
Proof.
  induction s as [|c s IH]; intros H n.
  - now rewrite firstn_nil.
  - destruct (occursIn_head _ _ H) as [Hs Ht].
    destruct (strip_prefix p (firstn n (c :: s))) as [r|] eqn:E.
    + exfalso. apply (strip_prefix_firstn_some p (c :: s) n); [|exact Hs].
      now rewrite E.
    + destruct n as [|n]; cbn [firstn] in *.
      * cbn [occursIn]. now rewrite E.
      * cbn [occursIn]. rewrite E. now apply IH.
Qed.

(** What a protecting pass preserves are pieces of the text. *)
Lemma preserved_items_plain (re : matcher) (s : jsstring) :
  forall k st,
    occursIn placeholderPrefix s = false ->
    Forall (fun m => occursIn placeholderPrefix m = false) st ->
    Forall (fun m => occursIn placeholderPrefix m = false)
      (fst (replace_from re preserve k st s)).
Proof.
  induction s as [|c s IH]; intros k st Hs Hst; [exact Hst|].
  destruct (occursIn_head _ _ Hs) as [_ Hs'].
  cbn [replace_from]. destruct k as [|k]; [|now apply IH].
  destruct (re (c :: s)) as [[[|len] g]|].
  - specialize (IH 0 st Hs' Hst).
    now destruct (replace_from re preserve 0 st s).
  - rewrite preserve_eq.
    specialize (IH len (st ++ [firstn (S len) (c :: s)]) Hs').
    destruct (replace_from re preserve len _ s). cbn [fst] in *.
    apply IH. apply Forall_app. split; [exact Hst|].
    constructor; [|constructor]. now apply occursIn_firstn.
  - specialize (IH 0 st Hs' Hst).
    now destruct (replace_from re preserve 0 st s).
Qed.

Lemma placeholder_notSlash (i : nat) : Forall (fun c => notSlash c = true) (placeholder i).
Proof.
  pose proof (placeholderPattern_alphabet _ _ _
                (placeholderPattern_placeholder i [])) as H.
  rewrite app_nil_r, firstn_all in H.
  eapply Forall_impl; [|exact H]. intros c Hc. cbv beta in Hc.
  unfold notSlash. apply negb_true_iff.
  destruct (eqc c slash) eqn:E; [|reflexivity].
  apply N.eqb_eq in E. subst c. discriminate Hc.
Qed.

Lemma placeholder_notQuote (i : nat) : Forall (fun c => notQuote c = true) (placeholder i).
Proof.
  pose proof (placeholderPattern_alphabet _ _ _
                (placeholderPattern_placeholder i [])) as H.
  rewrite app_nil_r, firstn_all in H.
  eapply Forall_impl; [|exact H]. intros c Hc. cbv beta in Hc.
  unfold notQuote. apply negb_true_iff.
  destruct (isQuote c) eqn:E; [|reflexivity].
  apply quote_outside_alphabet in E. congruence.
Qed.

(** When the string pass leaves no slash, nothing else happens: the
    regex pass and the removing passes find nothing, and the restoring
    pass puts the literals back. *)
Lemma removeComments_fixes_protected (x : jsstring) :
  hasPlaceholderText x = false ->
  forallb notSlash (snd (replace_st stringPattern preserve [] x)) = true ->
  removeComments x = x.
Proof.
  intros Hw Hs.
  assert (Hitems : Forall (fun m => occursIn placeholderPrefix m = false)
                     (fst (replace_st stringPattern preserve [] x))).
  { now apply preserved_items_plain. }
  assert (Hprotect : protect x = replace_st stringPattern preserve [] x).
  { unfold protect.
    destruct (replace_st stringPattern preserve [] x) as [items1 t1].
    cbn [snd] in Hs. now apply regex_pass_plain. }
  apply removeComments_fixes_plain_text; [exact Hw| |].
  - unfold commentFree. rewrite Hprotect.
    split; [now apply stripSingleLine_plain|now apply stripMultiLine_plain].
  - unfold literalsPlain. rewrite Hprotect. apply forallb_forall.
    intros m Hm. rewrite Forall_forall in Hitems.
    now rewrite (Hitems m Hm).
Qed.

(** X9.  Text that holds neither a slash nor [__PRESERVED__] comes back
    from [removeComments] as it was, its string literals included: what
    the string pass replaces by placeholders, the restoring pass puts
    back. *)
Theorem removeComments_keeps_text_without_slash (x : jsstring) :
  forallb notSlash x = true ->
  hasPlaceholderText x = false ->
  removeComments x = x.
Proof.
  intros Hs Hw. apply removeComments_fixes_protected; [exact Hw|].
  apply forallb_forall. apply Forall_forall.
  apply (replace_from_Forall (fun c => notSlash c = true)).
  - intros st m g. rewrite preserve_eq. apply placeholder_notSlash.
  - apply Forall_forall. now apply forallb_forall.
Qed.

Lemma removeComments_keeps_text_without_slash_witness :
  removeComments (lit "say('hi', `a ${b}`) + 1")
  = lit "say('hi', `a ${b}`) + 1".
Proof.
  apply (removeComments_keeps_text_without_slash
           (lit "say('hi', `a ${b}`) + 1")); reflexivity.
Defined.

(** Before a placeholder, text without [__PRESERVED__] holds no match
    of the restoring pattern, not even one that runs into the
    placeholder. *)
Lemma no_placeholder_before (before rest : jsstring) :
  hasPlaceholderText before = false ->
  forall j, j < length before ->
    placeholderPattern (skipn j (before ++ placeholderPrefix ++ rest)) = None.
Proof.
  intros Hw j Hj. rewrite skipn_app_le by lia.
  pose proof (occursIn_skipn _ _ j Hw) as Hv.
  assert (Hlen : length (skipn j before) = length before - j)
    by apply length_skipn.
  remember (skipn j before) as v eqn:Ev.
  destruct (placeholderPattern (v ++ placeholderPrefix ++ rest))
    as [[n g]|] eqn:E; [exfalso|reflexivity].
  apply placeholderPattern_starts in E.
  destruct (Nat.le_gt_cases 14 (length v)) as [Hlong|Hshort].
  - rewrite (startsLikePlaceholder_long v _ [] Hlong), app_nil_r in E.
    now rewrite (noPlaceholderText_starts _ Hv) in E.
  - rewrite startsLikePlaceholder_short in E by lia. discriminate E.
Qed.

(** X10.  A text of the form of a placeholder that the input holds
    itself, in code without literals, is replaced too: no item was
    preserved, the index reads past the end of the list, and the result
    holds [undefined] in its place. *)
Theorem removeComments_replaces_placeholder_of_input
  (before after : jsstring) (i : nat) :
  forallb isPlain before = true ->
  forallb isPlain after = true ->
  hasPlaceholderText before = false ->
  hasPlaceholderText after = false ->
  removeComments (before ++ placeholder i ++ after)
  = before ++ lit "undefined" ++ after.
Proof.
  intros Hb Ha Hwb Hwa.
  assert (Hs : forallb notSlash (before ++ placeholder i ++ after) = true).
  { apply forallb_plain_app; [exact (plain_notSlash _ Hb)|].
    apply forallb_plain_app; [|exact (plain_notSlash _ Ha)].
    apply forallb_forall. apply Forall_forall. apply placeholder_notSlash. }
  assert (Hq : forallb notQuote (before ++ placeholder i ++ after) = true).
  { apply forallb_plain_app; [exact (plain_notQuote _ Hb)|].
    apply forallb_plain_app; [|exact (plain_notQuote _ Ha)].
    apply forallb_forall. apply Forall_forall. apply placeholder_notQuote. }
  set (x := before ++ placeholder i ++ after) in *.
  rewrite (removeComments_by_passes x x x).
  - assert (E : restore [] x = before ++ restore [] (placeholder i ++ after)).
    { unfold x. apply replace_copy_prefix.
      intros j Hj len g. unfold placeholder. rewrite <- !app_assoc.
      now rewrite (no_placeholder_before before _ Hwb j Hj). }
    rewrite E, restore_placeholder.
    replace (nth i [] (lit "undefined")) with (lit "undefined")
      by (now destruct i).
    now rewrite (noPlaceholderText_restore [] after Hwa).
  - apply protect_plain; [exact Hq|]. now apply regex_pass_plain.
  - now apply stripSingleLine_plain.
  - now apply stripMultiLine_plain.
Qed.

Lemma removeComments_replaces_placeholder_of_input_witness :
  removeComments (lit "a_ = " ++ placeholder 7 ++ lit ";")
  = lit "a_ = " ++ lit "undefined" ++ lit ";".
Proof.
  apply (removeComments_replaces_placeholder_of_input (lit "a_ = ") (lit ";") 7);
    reflexivity.
Defined.

(** ** Literals that hold comment markers *)

Lemma stringBody_body (q : char) (body after : jsstring) :
  forallb (isBodyChar q) body = true ->
  stringBody q (body ++ q :: after) = Some (S (length body)).
Proof.
  induction body as [|c body IH]; intros H; cbn [app stringBody length].
  - unfold eqc. now rewrite N.eqb_refl.
  - cbn [forallb] in H. apply andb_true_iff in H as [Hc H].
    unfold isBodyChar in Hc. apply andb_true_iff in Hc as [Hc H3].
    apply andb_true_iff in Hc as [H1 H2].
    apply negb_true_iff in H1, H2, H3.
    rewrite H1, H2, H3, (IH H). reflexivity.
Qed.

(** X11.  A string literal is kept as it is, whatever comment markers
    it holds, when no slash stands outside it: for text without
    [__PRESERVED__] that consists of text without quote and slash, one
    string literal without escape, and again text without quote and
    slash, [removeComments] returns the text unchanged. *)
Theorem removeComments_keeps_string_literal
  (before body after : jsstring) (q : char) :
  isQuote q = true ->
  forallb isPlain before = true ->
  forallb (isBodyChar q) body = true ->
  forallb isPlain after = true ->
  hasPlaceholderText (before ++ [q] ++ body ++ [q] ++ after) = false ->
  removeComments (before ++ [q] ++ body ++ [q] ++ after)
  = before ++ [q] ++ body ++ [q] ++ after.
Proof.
  intros Hq Hb Hbody Ha Hw. cbn [app] in *.
  apply removeComments_fixes_protected; [exact Hw|].
  rewrite (scan_copies _ _ stringPattern_head preserve before _ []
             (plain_notQuote _ Hb)).
  assert (E : stringPattern (q :: body ++ q :: after)
              = Some (S (S (length body)), [[q]])).
  { cbn [stringPattern]. now rewrite Hq, (stringBody_body q body after Hbody). }
  rewrite (replace_st_match _ _ _ _ _ _ _ E), preserve_eq.
  replace (skipn (S (length body)) (body ++ q :: after)) with after.
  2: { replace (body ++ q :: after) with ((body ++ [q]) ++ after)
         by (now rewrite <- app_assoc).
       replace (S (length body)) with (length (body ++ [q]))
         by (rewrite length_app; cbn [length]; lia).
       now rewrite skipn_app_all. }
  rewrite (string_pass_plain after _ (plain_notQuote _ Ha)).
  cbn [snd]. apply forallb_plain_app; [exact (plain_notSlash _ Hb)|].
  apply forallb_plain_app; [|exact (plain_notSlash _ Ha)].
  apply forallb_forall. apply Forall_forall. apply placeholder_notSlash.
Qed.

Lemma removeComments_keeps_string_literal_witness :
  removeComments (lit "url = " ++ [34%N] ++ lit "http://x/*y*/" ++ [34%N] ++ lit ";")
  = lit "url = " ++ [34%N] ++ lit "http://x/*y*/" ++ [34%N] ++ lit ";".
Proof.
  apply (removeComments_keeps_string_literal
           (lit "url = ") (lit "http://x/*y*/") (lit ";") 34%N);
    reflexivity.
Defined.

(** X12.  The restoring pass undoes the protecting passes: for text
    that holds no [__PRESERVED__] and of which no preserved literal
    holds one, putting the preserved items back into the protected text
    gives the text again. *)
Theorem restore_undoes_protect (x : jsstring) :
  noPlaceholderText x -> literalsPlain x ->
  restore (fst (protect x)) (snd (protect x)) = x.
Proof.
  intros Hx Hlit. unfold literalsPlain in Hlit. unfold protect in *.
  destruct (replace_st stringPattern preserve [] x) as [items1 t1] eqn:E1.
  destruct (replace_st regexPattern preserve items1 t1) as [items t] eqn:E2.
  cbn [fst snd] in *.
  assert (Hplain : Forall (fun m => occursIn placeholderPrefix m = false) items).
  { apply Forall_forall. intros m Hin.
    rewrite forallb_forall in Hlit. apply Hlit in Hin.
    now apply negb_true_iff in Hin. }
  destruct (preserve_extends_st regexPattern t1 items1) as [ms Hms].
  rewrite E2 in Hms. cbn [fst] in Hms.
  destruct (protecting_pass_restored stringPattern items
              stringPattern_delimited Hplain x [] items1 t1 E1)
    as [R1 A1]; [now apply noPlaceholderText_aligned|now exists ms|].
  destruct (protecting_pass_restored regexPattern items
              regexPattern_delimited Hplain t1 items1 items t E2 A1)
    as [R2 _]; [exists []; now rewrite app_nil_r|].
  rewrite R2, R1. now apply noPlaceholderText_restore.
Qed.

Lemma restore_undoes_protect_witness :
  restore (fst (protect plainText)) (snd (protect plainText)) = plainText.
Proof.
  apply (restore_undoes_protect plainText); reflexivity.
Defined.

(** ** A comment that holds a slash *)

Lemma regexPattern_literal (body rest : jsstring) :
  forallb isRegexBodyChar body = true ->
  beginsWithoutStar body = true ->
  regexPattern (slash :: body ++ slash :: rest)
  = Some (S (length body + 1 + span isRegexFlag rest), []).
Proof.
  intros Hbody Hstar.
  assert (Hspan : span isRegexBodyChar (body ++ slash :: rest) = length body).
  { apply span_app_stop; [|reflexivity].
    apply Forall_forall. now apply forallb_forall. }
  destruct body as [|d body']; [discriminate Hstar|].
  cbn [beginsWithoutStar] in Hstar. apply negb_true_iff in Hstar.
  cbn [regexPattern app]. change (eqc slash slash) with true. cbv iota.
  rewrite Hstar. cbn [app] in Hspan. rewrite Hspan. cbn [length].
  change (d :: body' ++ slash :: rest) with ((d :: body') ++ slash :: rest).
  replace (S (length body')) with (length (d :: body')) by reflexivity.
  rewrite skipn_app_all. change (eqc slash slash) with true. cbv iota.
  reflexivity.
Qed.

(** X13.  A line comment that holds a slash is not removed: the second
    slash of the comment opener and the slash inside the comment enclose
    a match of the regex-literal pattern, which is preserved and put
    back, and the single slash left before it opens no comment. *)
Theorem removeComments_keeps_comment_with_slash
  (code words rest : jsstring) :
  forallb isPlain code = true ->
  forallb isPlain words = true ->
  forallb isRegexBodyChar words = true ->
  beginsWithoutStar words = true ->
  forallb isPlain rest = true ->
  hasPlaceholderText (code ++ lit "//" ++ words ++ lit "/" ++ rest) = false ->
  removeComments (code ++ lit "//" ++ words ++ lit "/" ++ rest)
  = code ++ lit "//" ++ words ++ lit "/" ++ rest.
Proof.
  intros Hcode Hwords Hbody Hstar Hrest Hw.
  change (lit "//" ++ words ++ lit "/" ++ rest)
    with (slash :: slash :: words ++ slash :: rest) in *.
  set (x := code ++ slash :: slash :: words ++ slash :: rest) in *.
  set (f := span isRegexFlag rest).
  set (m := firstn (S (length words + 1 + f))
              (slash :: words ++ slash :: rest)).
  assert (Hq : forallb notQuote x = true).
  { apply forallb_plain_app; [exact (plain_notQuote _ Hcode)|].
    cbn [forallb]. change (notQuote slash) with true. cbn [andb].
    apply forallb_plain_app; [exact (plain_notQuote _ Hwords)|].
    cbn [forallb]. change (notQuote slash) with true. cbn [andb].
    exact (plain_notQuote _ Hrest). }
  assert (Hr' : forallb notSlash (skipn f rest) = true).
  { apply forallb_forall. intros c Hc.
    pose proof (plain_notSlash _ Hrest) as H. rewrite forallb_forall in H.
    apply H. rewrite <- (firstn_skipn f rest). apply in_or_app. now right. }
  assert (Hprotect :
            protect x
            = ([m], code ++ slash :: placeholder 0 ++ skipn f rest)).
  { unfold protect. rewrite (string_pass_plain x [] Hq). unfold x.
    rewrite (scan_copies _ _ regexPattern_head preserve code _ []
               (plain_notSlash _ Hcode)).
    rewrite replace_st_copy
      by (intros len g; rewrite slash_slash_no_regex; discriminate).
    rewrite (replace_st_match _ _ _ _ _ _ _
               (regexPattern_literal words rest Hbody Hstar)).
    rewrite preserve_eq. fold f. fold m.
    replace (skipn (length words + 1 + f) (words ++ slash :: rest))
      with (skipn f rest).
    2: { replace (words ++ slash :: rest) with ((words ++ [slash]) ++ rest)
           by (now rewrite <- app_assoc).
         replace (length words + 1 + f) with (length (words ++ [slash]) + f)
           by (rewrite length_app; reflexivity).
         now rewrite Nat.add_comm, <- skipn_skipn, skipn_app_all. }
    rewrite (regex_pass_plain _ _ Hr'). reflexivity. }
  assert (Ht : forallb notSlash (placeholder 0 ++ skipn f rest) = true).
  { apply forallb_plain_app; [|exact Hr'].
    apply forallb_forall. apply Forall_forall. apply placeholder_notSlash. }
  apply removeComments_fixes_plain_text; [exact Hw| |].
  - unfold commentFree. rewrite Hprotect. cbn [snd]. split.
    + unfold stripSingleLine.
      rewrite (replace_copies _ _ singleLineCommentPattern_head _ code _
                 (plain_notSlash _ Hcode)).
      f_equal. rewrite replace_copy by (intros len g; discriminate).
      f_equal. exact (stripSingleLine_plain _ Ht).
    + unfold stripMultiLine.
      rewrite (replace_copies _ _ multiLineCommentPattern_head _ code _
                 (plain_notSlash _ Hcode)).
      f_equal. rewrite replace_copy by (intros len g; discriminate).
      f_equal. exact (stripMultiLine_plain _ Ht).
  - unfold literalsPlain. rewrite Hprotect. cbn [fst forallb].
    rewrite andb_true_r. apply negb_true_iff.
    unfold m. apply occursIn_firstn.
    replace (slash :: words ++ slash :: rest)
      with (skipn (length (code ++ [slash])) x).
    + now apply occursIn_skipn.
    + unfold x.
      replace (code ++ slash :: slash :: words ++ slash :: rest)
        with ((code ++ [slash]) ++ slash :: words ++ slash :: rest)
        by (now rewrite <- app_assoc).
      apply skipn_app_all.
Qed.

Lemma removeComments_keeps_comment_with_slash_witness :
  removeComments (sampleCode ++ lit "//" ++ lit " see docs" ++ lit "/" ++ lit "readme")
  = sampleCode ++ lit "//" ++ lit " see docs" ++ lit "/" ++ lit "readme".
Proof.
  apply (removeComments_keeps_comment_with_slash
           sampleCode (lit " see docs") (lit "readme"));
    reflexivity.
Defined.

End CommentsMore.


(* ====================================================================== *)
(** * More on the traversals and the run *)
(* ====================================================================== *)

Module WalkMore.
Import TextDefs TreeDefs RunDefs MoreDefs Run Tree.

(** A loop that completes has printed what its callback prints for each
    item, in order. *)
Lemma forEach_console {A S : Type} (callback : A -> S -> M S)
  (lines : A -> list (stream * jsstring)) (items : list A) :
  Forall (fun item => forall captured eff eff' captured',
              callback item captured eff = (eff', Ok captured') ->
              console eff' = console eff ++ lines item) items ->
  forall captured eff eff' captured',
    forEach callback items captured eff = (eff', Ok captured') ->
    console eff' = console eff ++ flat_map lines items.
Proof.
  induction items as [|item rest IH]; intros H captured eff eff' captured' Hrun.
  - cbn in Hrun. injection Hrun as <- _. cbn. now rewrite app_nil_r.
  - inversion H as [|? ? Hitem Hrest]; subst.
    rewrite forEach_cons in Hrun.
    destruct (callback item captured eff) as [eff1 [captured1|e]] eqn:E;
      [|discriminate Hrun].
    cbn [flat_map]. rewrite app_assoc, <- (Hitem _ _ _ _ E).
    exact (IH Hrest _ _ _ _ Hrun).
Qed.

Lemma forEach_filter {A S : Type} (callback : A -> S -> M S) (keep : A -> bool)
  (items : list A) :
  (forall item captured, keep item = false -> callback item captured = ret captured) ->
  forall captured eff,
    forEach callback items captured eff
    = forEach callback (filter keep items) captured eff.
Proof.
  intros Hskip. induction items as [|item rest IH]; intros captured eff;
    [reflexivity|].
  cbn [filter]. destruct (keep item) eqn:E.
  - rewrite !forEach_cons.
    destruct (callback item captured eff) as [eff1 [captured1|e]];
      [apply IH|reflexivity].
  - rewrite forEach_cons, (Hskip _ _ E). unfold ret. apply IH.
Qed.

Section Passes.
Variable cwd : jsstring.
Variable ig : jsstring -> bool.

(** X14.  An entry that the ignore rules match is skipped before it is
    examined in any way: both traversals of a directory go as if its
    listing did not hold the ignored entries, whatever the file system
    would have answered about them. *)
Theorem ignored_entries_are_not_examined
  (stat : outcome (N * jsstring)) (items : list (jsstring * fsnode))
  (dir parentPath : jsstring) (fileStructure : value)
  (removeWhitespaceSetting removeCommentsSetting : bool) (eff : effects) :
  getDirectoryStructure cwd ig (Dir stat None items) dir fileStructure
    parentPath eff
  = getDirectoryStructure cwd ig
      (Dir stat None (filter (notIgnored cwd ig dir) items))
      dir fileStructure parentPath eff
  /\ readAllFiles cwd ig (Dir stat None items) dir parentPath
       removeWhitespaceSetting removeCommentsSetting eff
     = readAllFiles cwd ig
         (Dir stat None (filter (notIgnored cwd ig dir) items))
         dir parentPath removeWhitespaceSetting removeCommentsSetting eff.
Proof.
  split; cbn [getDirectoryStructure readAllFiles]; apply forEach_filter.
  - intros [item child] captured Hk. unfold notIgnored in Hk.
    apply negb_false_iff in Hk. cbn [fst] in Hk.
    unfold structureEntry. now rewrite Hk.
  - intros [item child] captured Hk. unfold notIgnored in Hk.
    apply negb_false_iff in Hk. cbn [fst] in Hk.
    unfold contentEntry. now rewrite Hk.
Qed.

Lemma structureEntry_console
  (self : fsnode -> jsstring -> value -> jsstring -> M value)
  (kself : fsnode -> jsstring -> list jsstring)
  (dir parent : jsstring) (entry : jsstring * fsnode) :
  (forall d fs p eff eff' tree,
      self (snd entry) d fs p eff = (eff', Ok tree) ->
      console eff' = console eff ++ map skipLine (kself (snd entry) d)) ->
  forall fs eff eff' fs',
    structureEntry cwd ig self dir parent entry fs eff = (eff', Ok fs') ->
    console eff'
    = console eff ++ map skipLine (skippedEntry cwd ig kself dir entry).
Proof.
  destruct entry as [item child]. cbn [snd]. intros Hself fs eff eff' fs' Hrun.
  unfold structureEntry, skippedEntry in *.
  destruct (ig _).
  { injection Hrun as <- _. now rewrite app_nil_r. }
  unfold bind at 1 in Hrun.
  destruct child as [[[sz t]|e] raw utf8|[[sz t]|e] unreadable sub];
    cbn [statSync ret throw isDirectory] in Hrun; try discriminate Hrun.
  - destruct (shouldProcessFile item).
    2: { destruct raw; injection Hrun as <- _; now rewrite app_nil_r. }
    unfold bind at 1 in Hrun. unfold readFileSyncRaw, lift in Hrun.
    destruct raw as [buffer|e]; [|discriminate Hrun].
    cbn [andb]. destruct (isBinaryFile buffer).
    + cbn in Hrun. injection Hrun as <- _. reflexivity.
    + injection Hrun as <- _. now rewrite app_nil_r.
  - unfold bind at 1 in Hrun.
    destruct (self (Dir (Ok (sz, t)) unreadable sub) _ _ _ eff)
      as [eff1 [filled|e]] eqn:E; [|discriminate Hrun].
    injection Hrun as <- _. exact (Hself _ _ _ _ _ _ E).
Qed.

Lemma contentEntry_console
  (self : fsnode -> jsstring -> jsstring -> bool -> bool -> M jsstring)
  (kself : fsnode -> jsstring -> list jsstring)
  (dir parent : jsstring) (rw rc : bool) (entry : jsstring * fsnode) :
  (forall d p eff eff' text,
      self (snd entry) d p rw rc eff = (eff', Ok text) ->
      console eff' = console eff ++ map skipLine (kself (snd entry) d)) ->
  forall allText eff eff' allText',
    contentEntry cwd ig self dir parent rw rc entry allText eff
    = (eff', Ok allText') ->
    console eff'
    = console eff ++ map skipLine (skippedEntry cwd ig kself dir entry).
Proof.
  destruct entry as [item child]. cbn [snd].
  intros Hself allText eff eff' allText' Hrun.
  unfold contentEntry, skippedEntry in *.
  destruct (ig _).
  { injection Hrun as <- _. now rewrite app_nil_r. }
  unfold bind at 1 in Hrun.
  destruct child as [[[sz t]|e] raw utf8|[[sz t]|e] unreadable sub];
    cbn [statSync ret throw isDirectory] in Hrun; try discriminate Hrun.
  - destruct (shouldProcessFile item).
    2: { destruct raw; injection Hrun as <- _; now rewrite app_nil_r. }
    unfold bind at 1 in Hrun. unfold readFileSyncRaw, lift in Hrun.
    destruct raw as [buffer|e]; [|discriminate Hrun].
    cbn [andb]. destruct (isBinaryFile buffer).
    + cbn in Hrun. injection Hrun as <- _. reflexivity.
    + unfold bind at 1 in Hrun. unfold readFileSyncUtf8, lift in Hrun.
      destruct utf8 as [content|e]; [|discriminate Hrun].
      injection Hrun as <- _. now rewrite app_nil_r.
  - unfold bind at 1 in Hrun.
    destruct (self (Dir (Ok (sz, t)) unreadable sub) _ _ _ _ eff)
      as [eff1 [sub'|e]] eqn:E; [|discriminate Hrun].
    injection Hrun as <- _. exact (Hself _ _ _ _ _ E).
Qed.

Lemma flat_map_map {A B C : Type} (f : A -> list B) (g : B -> C) (l : list A) :
  flat_map (fun x => map g (f x)) l = map g (flat_map f l).
Proof.
  induction l as [|x l IH]; [reflexivity|].
  cbn [flat_map]. now rewrite map_app, IH.
Qed.

Lemma getDirectoryStructure_console (node : fsnode) :
  forall dir fs parent eff eff' tree,
    getDirectoryStructure cwd ig node dir fs parent eff = (eff', Ok tree) ->
    console eff' = console eff ++ map skipLine (skipped cwd ig node dir).
Proof.
  induction node as [st raw utf8|st unreadable items IH] using fsnode_induction;
    intros dir fs parent eff eff' tree Hrun; [discriminate Hrun|].
  destruct unreadable as [e|]; [discriminate Hrun|].
  cbn [getDirectoryStructure skipped] in *.
  rewrite <- flat_map_map.
  refine (forEach_console _ _ items _ _ _ _ _ Hrun).
  eapply Forall_impl; [|exact IH].
  intros entry Hentry captured eff0 eff0' captured'.
  now apply structureEntry_console.
Qed.

Lemma readAllFiles_console (node : fsnode) :
  forall dir parent rw rc eff eff' text,
    readAllFiles cwd ig node dir parent rw rc eff = (eff', Ok text) ->
    console eff' = console eff ++ map skipLine (skipped cwd ig node dir).
Proof.
  induction node as [st raw utf8|st unreadable items IH] using fsnode_induction;
    intros dir parent rw rc eff eff' text Hrun; [discriminate Hrun|].
  destruct unreadable as [e|]; [discriminate Hrun|].
  cbn [readAllFiles skipped] in *.
  rewrite <- flat_map_map.
  refine (forEach_console _ _ items _ _ _ _ _ Hrun).
  eapply Forall_impl; [|exact IH].
  intros entry Hentry captured eff0 eff0' captured'.
  apply contentEntry_console. intros d p e1 e2 text'. apply Hentry.
Qed.

(** X15.  A traversal that completes prints one line
    [Skipping binary file: <relative path>] for each file that is not
    ignored and is found binary, in the order of the traversal, and
    nothing else; so the structure pass and the content pass of one tree
    print the same lines. *)
Theorem passes_print_the_same_warnings (node : fsnode)
  (dir parentPath : jsstring) (fileStructure tree : value)
  (removeWhitespaceSetting removeCommentsSetting : bool) (text : jsstring)
  (eff1 eff1' eff2 eff2' : effects) :
  getDirectoryStructure cwd ig node dir fileStructure parentPath eff1
  = (eff1', Ok tree) ->
  readAllFiles cwd ig node dir parentPath
    removeWhitespaceSetting removeCommentsSetting eff2
  = (eff2', Ok text) ->
  console eff1' = console eff1 ++ map skipLine (skipped cwd ig node dir)
  /\ console eff2' = console eff2 ++ map skipLine (skipped cwd ig node dir).
Proof.
  intros H1 H2. split.
  - exact (getDirectoryStructure_console node _ _ _ _ _ _ H1).
  - exact (readAllFiles_console node _ _ _ _ _ _ _ H2).
Qed.
End Passes.

Lemma passes_print_the_same_warnings_witness :
  console (fst (getDirectoryStructure workDir ignoresNothing withBinary
                  workDir emptyObject [] noEffects))
  = [skipLine (lit "img/p.png")]
  /\ console (fst (readAllFiles workDir ignoresNothing withBinary
                     workDir [] false false noEffects))
     = [skipLine (lit "img/p.png")].
Proof.
  destruct (getDirectoryStructure workDir ignoresNothing withBinary
              workDir emptyObject [] noEffects) as [eff1 [tree|e]] eqn:E1;
    [|discriminate E1].
  destruct (readAllFiles workDir ignoresNothing withBinary
              workDir [] false false noEffects) as [eff2 [text|e]] eqn:E2;
    [|discriminate E2].
  exact (passes_print_the_same_warnings workDir ignoresNothing withBinary
           workDir [] emptyObject tree false false text
           noEffects eff1 noEffects eff2 E1 E2).
Defined.

Section TheRun.
Variable cwd : jsstring.
Variable ignores : list jsstring -> jsstring -> bool.

Lemma getIgnorePatterns_ok (w : world) (eff : effects) :
  (forall e, gitignore w <> Some (Throw e)) ->
  getIgnorePatterns ignores w eff = (eff, Ok (ignores (ignorePatterns w))).
Proof.
  intros H. unfold getIgnorePatterns, ignorePatterns, bind, lift, ret.
  destruct (gitignore w) as [[content|e]|]; try reflexivity.
  now destruct (H e).
Qed.

Lemma traverse_completed (w : world) (fileStructure : value)
  (structureText filesText : jsstring) :
  traverse cwd ignores w = Completed fileStructure structureText filesText ->
  exists eff1 eff2,
    getIgnorePatterns ignores w noEffects
    = (noEffects, Ok (ignores (ignorePatterns w)))
    /\ getDirectoryStructure cwd (ignores (ignorePatterns w)) (root w) cwd
         emptyObject [] noEffects = (eff1, Ok fileStructure)
    /\ formatStructure fileStructure 0 = Ok structureText
    /\ readAllFiles cwd (ignores (ignorePatterns w)) (root w) cwd []
         false false eff1 = (eff2, Ok filesText).
Proof.
  unfold traverse. intros H.
  assert (Hg : forall e, gitignore w <> Some (Throw e)).
  { intros e He. unfold getIgnorePatterns, bind, lift in H. rewrite He in H.
    discriminate H. }
  rewrite (getIgnorePatterns_ok w noEffects Hg) in H.
  destruct (getDirectoryStructure _ _ (root w) cwd emptyObject [] noEffects)
    as [eff1 [fs|e]]; [|discriminate H].
  destruct (formatStructure fs 0) as [st|e] eqn:Ef; [|discriminate H].
  destruct (readAllFiles _ _ (root w) cwd [] false false eff1)
    as [eff2 [ft|e]] eqn:Er; [|discriminate H].
  injection H as <- <- <-.
  exists eff1, eff2. repeat split; try reflexivity; try assumption.
  now apply getIgnorePatterns_ok.
Qed.

Lemma effects_eq (eff : effects) (c : list (stream * jsstring))
  (f : list (jsstring * jsstring)) :
  console eff = c -> written eff = f -> eff = {| console := c; written := f |}.
Proof. destruct eff. cbn. now intros -> ->. Qed.

(** A run whose traversals complete, up to the writing. *)
Lemma run_completed (w : world) (fileStructure : value)
  (structureText filesText : jsstring) :
  traverse cwd ignores w = Completed fileStructure structureText filesText ->
  let warnings :=
    map skipLine (skipped cwd (ignores (ignorePatterns w)) (root w) cwd) in
  run cwd ignores w
  = match writeError w with
    | None =>
      ({| console := warnings ++ warnings ++ [savedLine cwd];
          written := [(path_join cwd (lit "output.txt"),
                       finalOutput structureText filesText)] |}, 0%Z)
    | Some failure =>
      ({| console := warnings ++ warnings ++ [errorLine (failureError failure)];
          written :=
            match failure with
            | OpenFails _ => []
            | WriteFails _ remains => [(path_join cwd (lit "output.txt"), remains)]
            end |},
       0%Z)
    end.
Proof.
  intros H warnings.
  destruct (traverse_completed w _ _ _ H) as (eff1 & eff2 & Hg & Hs & Hf & Hc).
  pose proof (getDirectoryStructure_console _ _ _ _ _ _ _ _ _ Hs) as C1.
  pose proof (readAllFiles_console _ _ _ _ _ _ _ _ _ _ Hc) as C2.
  pose proof (getDirectoryStructure_written cwd (ignores (ignorePatterns w))
                (root w) cwd emptyObject [] noEffects) as W1.
  pose proof (readAllFiles_written cwd (ignores (ignorePatterns w))
                (root w) cwd [] false false eff1) as W2.
  rewrite Hs in W1. rewrite Hc in W2. cbn [fst] in W1, W2.
  rewrite W1 in W2. cbn [console written noEffects app] in C1, W2.
  rewrite C1 in C2. fold warnings in C2.
  rewrite (effects_eq eff2 _ _ C2 W2) in Hc.
  unfold run, main, tryCatch, mainBody, bind.
  rewrite Hg, Hs. unfold lift. rewrite Hf, Hc.
  unfold writeFileSync. destruct (writeError w) as [[e|e remains]|].
  - unfold throw, print. cbn [console written message failureError].
    unfold exitStatus, errorLine. now rewrite <- !app_assoc.
  - unfold print. cbn [console written message failureError app].
    unfold exitStatus, errorLine. now rewrite <- !app_assoc.
  - unfold print. cbn [console written]. unfold exitStatus.
    unfold savedLine, finalOutput. now rewrite <- !app_assoc.
Qed.

(** X16.  A run in which both traversals and the formatting complete
    and the writing succeeds leaves exactly one file, [output.txt] in the
    working directory, with the listing and the contents under their two
    headings; on the console it leaves the warnings about binary files
    twice, once from each traversal, and then the line of success. *)
Theorem run_writes_one_file (w : world) (fileStructure : value)
  (structureText filesText : jsstring) :
  traverse cwd ignores w = Completed fileStructure structureText filesText ->
  writeError w = None ->
  let warnings :=
    map skipLine (skipped cwd (ignores (ignorePatterns w)) (root w) cwd) in
  run cwd ignores w
  = ({| console := warnings ++ warnings ++ [savedLine cwd];
        written := [(path_join cwd (lit "output.txt"),
                     lit "Directory Structure:" ++ nl ++ structureText ++ nl
                     ++ lit "File Contents:" ++ nl ++ filesText)] |}, 0%Z).
Proof.
  intros H Hw. pose proof (run_completed w _ _ _ H) as R.
  cbv zeta in R. now rewrite Hw in R.
Qed.


(** X18.  When [.gitignore] exists but cannot be read, the run ends
    before any traversal: it prints the error line and nothing else, and
    writes no file. *)
Theorem run_stops_at_unreadable_gitignore (w : world) (e : error) :
  gitignore w = Some (Throw e) ->
  run cwd ignores w
  = ({| console := [errorLine e]; written := [] |}, 0%Z).
Proof.
  intros H. unfold run, main, tryCatch, mainBody, bind, getIgnorePatterns.
  rewrite H. reflexivity.
Qed.
End TheRun.

Lemma run_writes_one_file_witness :
  run workDir matchesNothing withBinaryWorld
  = ({| console := [skipLine (lit "img/p.png"); skipLine (lit "img/p.png");
                    savedLine workDir];
        written := [(lit "/work/output.txt",
                     lit "Directory Structure:" ++ nl
                     ++ (lit "a.txt (Path: a.txt, Size: 2 bytes, Last Modified: Mon Nov 02 2026)"
                         ++ nl ++ lit "img/" ++ nl)
                     ++ nl ++ lit "File Contents:" ++ nl
                     ++ fileBlock (lit "a.txt") (lit "a.txt") (lit "hi"))] |},
      0%Z).
Proof.
  destruct (traverse workDir matchesNothing withBinaryWorld)
    as [e|e|e|e|fileStructure structureText filesText] eqn:E;
    try discriminate E.
  rewrite (run_writes_one_file workDir matchesNothing withBinaryWorld
             fileStructure structureText filesText E eq_refl).
  injection E as _ <- <-. reflexivity.
Defined.


Lemma run_stops_at_unreadable_gitignore_witness :
  run workDir matchesNothing badGitignoreWorld
  = ({| console := [errorLine gitignoreIsDirectory]; written := [] |}, 0%Z).
Proof.
  exact (run_stops_at_unreadable_gitignore workDir matchesNothing
           badGitignoreWorld gitignoreIsDirectory eq_refl).
Defined.

End WalkMore.


(* ====================================================================== *)
(** * More on the formatter *)
(* ====================================================================== *)

Module FormatMore.
Import TreeDefs RunDefs MoreDefs Run Tree.

Lemma assoc_memb {A : Type} (k : jsstring) (l : list (jsstring * A)) :
  memb k (map fst l) = true -> exists x, assoc k l = Some x.
Proof.
  induction l as [|[k' x] l IH]; cbn [map fst memb assoc]; intros H;
    [discriminate H|].
  destruct (eqs k k'); [now exists x|]. now apply IH.
Qed.

Section Formatting.
Variable cwd : jsstring.
Variable ig : jsstring -> bool.

(** X19.  A working directory that keeps an entry named
    [hasOwnProperty] cannot be listed: the structure pass stores the
    entry as a property of that name, which hides the built-in method,
    and the call [fileStructure.hasOwnProperty(key)] of the formatter
    throws a TypeError.  (The kept names of each directory are taken to
    be distinct and other than [__proto__].) *)
Theorem formatStructure_fails_on_hasOwnProperty (root : fsnode)
  (fileStructure : value) :
  namesOk ordinaryName (fun _ => true)
    (DirectoryNode (keptChildren cwd ig root cwd [])) = true ->
  memb (lit "hasOwnProperty") (map fst (keptChildren cwd ig root cwd [])) = true ->
  structurePass cwd ig root = Ok fileStructure ->
  formatStructure fileStructure 0
  = Throw (TypeError (lit "fileStructure.hasOwnProperty is not a function")).
Proof.
  intros Hok Hin Hrun.
  assert (Hproto : forall k, ordinaryName k = true -> eqs k protoKey = false).
  { intros k Hk. now apply negb_true_iff in Hk. }
  rewrite (structurePass_kept cwd ig ordinaryName (fun _ => true) root
             fileStructure Hproto Hok Hrun).
  rewrite toValue_directory. rewrite <- toProps_names in Hin.
  destruct (assoc_memb _ _ Hin) as [x Hx].
  cbn [formatStructure lookup]. now rewrite Hx.
Qed.
End Formatting.

Lemma formatStructure_fails_on_hasOwnProperty_witness :
  match structurePass workDir ignoresNothing withHasOwnProperty with
  | Ok fileStructure =>
    formatStructure fileStructure 0
    = Throw (TypeError (lit "fileStructure.hasOwnProperty is not a function"))
  | Throw _ => False
  end.
Proof.
  destruct (structurePass workDir ignoresNothing withHasOwnProperty)
    as [fileStructure|e] eqn:E; [|discriminate E].
  exact (formatStructure_fails_on_hasOwnProperty workDir ignoresNothing
           withHasOwnProperty fileStructure eq_refl eq_refl E).
Defined.

End FormatMore.


(* ====================================================================== *)
(** * File names and the constants of the chord factory *)
(* ====================================================================== *)

Module NamesMore.
Import TextDefs TreeDefs MoreDefs Tree.

Lemma lastDot_app (a b : jsstring) :
  forall i,
    lastDot (a ++ b) i
    = match lastDot b (i + length a) with
      | Some j => Some j
      | None => lastDot a i
      end.
Proof.
  induction a as [|c a IH]; intros i; cbn [app lastDot length].
  - rewrite Nat.add_0_r. now destruct (lastDot b i).
  - rewrite IH. replace (S i + length a) with (i + S (length a)) by lia.
    destruct (lastDot b (i + S (length a))); reflexivity.
Qed.

Lemma lastDot_range (s : jsstring) :
  forall i j, lastDot s i = Some j -> i <= j < i + length s.
Proof.
  induction s as [|c s IH]; intros i j H; cbn [lastDot length] in *;
    [discriminate H|].
  destruct (lastDot s (S i)) as [k|] eqn:E.
  - injection H as <-. specialize (IH _ _ E). lia.
  - destruct (eqc c 46%N); [|discriminate H]. injection H as <-. lia.
Qed.

Lemma toLowerCase_js (ext : jsstring) :
  toLowerCase ext = lit ".js" ->
  exists j s, ext = [46%N; j; s] /\ eqc j 46%N = false /\ eqc s 46%N = false.
Proof.
  destruct ext as [|a [|b [|c [|d ext]]]]; try discriminate.
  unfold toLowerCase. cbn [map]. intros H. injection H as Ha Hb Hc.
  assert (L : forall x y : N,
             (if ((65 <=? x) && (x <=? 90))%N then (x + 32)%N else x) = y ->
             (y < 65)%N -> x = y).
  { intros x y E Hy. destruct ((65 <=? x) && (x <=? 90))%N eqn:B; [|exact E].
    apply andb_true_iff in B as [B1 B2]. apply N.leb_le in B1. lia. }
  assert (N46 : forall x y : N,
             (if ((65 <=? x) && (x <=? 90))%N then (x + 32)%N else x) = y ->
             (y > 90)%N -> eqc x 46%N = false).
  { intros x y E Hy. apply N.eqb_neq. intros ->. cbn in E. lia. }
  exists b, c. repeat split.
  - f_equal. apply (L a _ Ha). reflexivity.
  - apply (N46 b _ Hb). reflexivity.
  - apply (N46 c _ Hc). reflexivity.
Qed.

(** X20.  The test [path.extname(item).toLowerCase() === '.js'] of
    [readAllFiles] accepts exactly the names that consist of a non-empty
    stem and an extension that reads [.js] in lower case: [a.js] and
    [A.JS] pass, the bare name [.js] does not. *)
Theorem isJsFile_by_name (item : jsstring) :
  isJsFile item = true
  <-> exists stem ext,
        item = stem ++ ext /\ stem <> [] /\ toLowerCase ext = lit ".js".
Proof.
  unfold isJsFile. rewrite eqs_eq. split.
  - intros H. unfold extname in H.
    destruct (lastDot item 0) as [[|i]|] eqn:E; try discriminate H.
    destruct (eqs item (lit "..")); [discriminate H|].
    exists (firstn (S i) item), (skipn (S i) item).
    split; [symmetry; apply firstn_skipn|]. split; [|exact H].
    apply lastDot_range in E. destruct item; [cbn in E; lia|discriminate].
  - intros (stem & ext & -> & Hstem & Hext).
    destruct (toLowerCase_js ext Hext) as (j & s & -> & Hj & Hs).
    unfold extname. rewrite lastDot_app. cbn [lastDot Nat.add].
    rewrite Hj, Hs. change (eqc 46%N 46%N) with true. cbv iota.
    destruct (length stem) as [|n] eqn:El.
    + destruct stem; [contradiction|discriminate El].
    + assert (Hne : eqs (stem ++ [46%N; j; s]) (lit "..") = false).
      { apply not_true_iff_false. intros H. apply eqs_eq in H.
        apply (f_equal (@List.length char)) in H.
        rewrite length_app, El in H. cbn in H. lia. }
      rewrite Hne, <- El, skipn_app, skipn_all, Nat.sub_diag. exact Hext.
Qed.

(** X21.  The tables of [constants.js] agree: [TUNING] holds, string by
    string, the index that [NOTE_INDEX_MAP] gives to the note of
    [STANDARD_TUNING]; the map names twelve distinct notes and numbers
    them from 0 to 11 in the order of the source. *)
Theorem tuning_tables_agree :
  map (fun note => assoc note NOTE_INDEX_MAP) STANDARD_TUNING = map Some TUNING
  /\ distinct (map fst NOTE_INDEX_MAP) = true
  /\ map snd NOTE_INDEX_MAP = map N.of_nat (seq 0 12).
Proof. repeat split. Qed.

End NamesMore.

